(** * LuminaOS tutoring pipeline: whiteboard command protocol, canvas
      surface manager and audio transport bridge.

    The development embeds the TypeScript of [SocraticChat] (command parser,
    microphone capture, playback scheduling, interruption) and of
    [TutorWhiteboard] (cursor, de-duplication, growth, image placement) and
    proves the properties the specification lists for them.

    Conventions.
    - A JavaScript string is its sequence of UTF-16 code units ([list N]).
    - A JavaScript number is an exact rational ([Q]); IEEE-754 rounding is not
      modelled, the one place where rounding decides a branch (the truthiness
      of a parsed number) is written out.
    - Mutable refs ([useRef]) are fields of an explicit state record that every
      operation takes and returns. *)

From Stdlib Require Import ZArith NArith QArith Qabs Qround Qminmax Lia Lqa String Ascii List Bool.
From stdpp Require Import base option list gmap.

(** ** JavaScript strings *)

Module JS.

Abbreviation jsstring := (list N).

(** Code units of an ASCII literal. *)
Definition str (s : string) : jsstring :=
  List.map N_of_ascii (list_ascii_of_string s).

Definition quote : N := 34%N.

(** [String.prototype.startsWith] in its stripping form: the remainder of [s]
    after the literal [p], when [s] begins with [p]. *)
Fixpoint strip_prefix (p s : jsstring) : option jsstring :=
  match p, s with
  | [], _ => Some s
  | a :: p', b :: s' => if (a =? b)%N then strip_prefix p' s' else None
  | _ :: _, [] => None
  end.

(** ECMAScript LineTerminator code units: LF, CR, LS, PS. These are the code
    units the regular-expression atom [.] refuses. *)
Definition isLineTerminator (c : N) : bool :=
  ((c =? 10) || (c =? 13) || (c =? 8232) || (c =? 8233))%N.

(** ECMAScript WhiteSpace and LineTerminator code units, as stripped by
    [String.prototype.trim]. *)
Definition isTrimmable (c : N) : bool :=
  ((c =? 9) || (c =? 10) || (c =? 11) || (c =? 12) || (c =? 13) || (c =? 32)
   || (c =? 160) || (c =? 5760) || ((8192 <=? c) && (c <=? 8202))
   || (c =? 8232) || (c =? 8233) || (c =? 8239) || (c =? 8287)
   || (c =? 12288) || (c =? 65279))%N.

Fixpoint trimStart (s : jsstring) : jsstring :=
  match s with
  | c :: s' => if isTrimmable c then trimStart s' else s
  | [] => []
  end.

Definition trim (s : jsstring) : jsstring :=
  rev (trimStart (rev (trimStart s))).

(** [s.substring(0, n)]. *)
Definition substring0 (n : nat) (s : jsstring) : jsstring := take n s.

End JS.

(** ** JSON.parse

    The host's [JSON.parse], written out after the ECMA-404 grammar: a value
    is an object, an array, a string, a number or one of the three literals,
    with insignificant whitespace around structural characters; the whole
    text must be consumed. An object keeps its members in source order. *)

Module JSON.
Import JS.

Inductive JValue : Type :=
| JNull
| JBool (b : bool)
| JNumber (q : Q)
| JString (s : jsstring)
| JArray (elements : list JValue)
| JObject (members : list (jsstring * JValue)).

Inductive outcome (A : Type) : Type :=
| Parsed (a : A) (rest : jsstring)
| SyntaxError
| OutOfFuel.
Arguments Parsed {A} a rest.
Arguments SyntaxError {A}.
Arguments OutOfFuel {A}.

Local Open Scope N_scope.

Definition isWs (c : N) : bool :=
  (c =? 32) || (c =? 9) || (c =? 10) || (c =? 13).

Fixpoint skip_ws (s : jsstring) : jsstring :=
  match s with
  | c :: s' => if isWs c then skip_ws s' else s
  | [] => []
  end.

Definition isDigit (c : N) : bool := (48 <=? c) && (c <=? 57).

Definition hexval (c : N) : option N :=
  if isDigit c then Some (c - 48)
  else if (97 <=? c) && (c <=? 102) then Some (c - 87)
  else if (65 <=? c) && (c <=? 70) then Some (c - 55)
  else None.

Definition hex4 (a b c d : N) : option N :=
  match hexval a, hexval b, hexval c, hexval d with
  | Some x, Some y, Some z, Some w => Some (((x * 16 + y) * 16 + z) * 16 + w)
  | _, _, _, _ => None
  end.

(** The character a single-letter escape stands for. *)
Definition escape (e : N) : option N :=
  if e =? 34 then Some 34          (* quotation mark *)
  else if e =? 92 then Some 92     (* reverse solidus *)
  else if e =? 47 then Some 47     (* solidus *)
  else if e =? 98 then Some 8      (* b: backspace *)
  else if e =? 102 then Some 12    (* f: form feed *)
  else if e =? 110 then Some 10    (* n: line feed *)
  else if e =? 114 then Some 13    (* r: carriage return *)
  else if e =? 116 then Some 9     (* t: tab *)
  else None.

Definition push (c : N) (r : option (jsstring * jsstring))
  : option (jsstring * jsstring) :=
  match r with
  | Some (body, rest) => Some (c :: body, rest)
  | None => None
  end.

(** The characters of a string literal after its opening quote, up to and
    including the closing quote: the decoded contents and what follows. *)
Fixpoint string_chars (s : jsstring) : option (jsstring * jsstring) :=
  match s with
  | [] => None
  | c :: s1 =>
    if c =? 34 then Some ([], s1)
    else if c =? 92 then
      match s1 with
      | [] => None
      | e :: s2 =>
        if e =? 117 then
          match s2 with
          | h1 :: h2 :: h3 :: h4 :: s3 =>
            match hex4 h1 h2 h3 h4 with
            | Some u => push u (string_chars s3)
            | None => None
            end
          | _ => None
          end
        else
          match escape e with
          | Some u => push u (string_chars s2)
          | None => None
          end
      end
    else if c <? 32 then None
    else push c (string_chars s1)
  end.

(** Longest run of decimal digits, as digit values, and the remainder. *)
Fixpoint digits (s : jsstring) : list N * jsstring :=
  match s with
  | c :: s' =>
    if isDigit c then let '(ds, r) := digits s' in ((c - 48) :: ds, r)
    else ([], s)
  | [] => ([], [])
  end.

Definition decimal (ds : list N) : Z :=
  fold_left (fun acc d => (10 * acc + Z.of_N d)%Z) ds 0%Z.

(** int: [0] alone, or a non-zero digit followed by digits. *)
Definition int_part (s : jsstring) : option (Z * jsstring) :=
  match s with
  | [] => None
  | c :: s' =>
    if c =? 48 then Some (0%Z, s')
    else if isDigit c then let '(ds, r) := digits s in Some (decimal ds, r)
    else None
  end.

(** frac: nothing, or [.] and at least one digit. *)
Definition frac_part (s : jsstring) : option (Q * jsstring) :=
  match s with
  | c :: s' =>
    if c =? 46 then
      match digits s' with
      | ([], _) => None
      | (ds, r) => Some (Qmake (decimal ds) (Pos.pow 10 (Pos.of_nat (length ds))), r)
      end
    else Some (0%Q, s)
  | [] => Some (0%Q, s)
  end.

(** exp: nothing, or [e]/[E], an optional sign and at least one digit. *)
Definition exp_part (s : jsstring) : option (Z * jsstring) :=
  match s with
  | c :: s' =>
    if (c =? 101) || (c =? 69) then
      let '(neg, s'') :=
        match s' with
        | g :: t => if g =? 45 then (true, t)
                    else if g =? 43 then (false, t) else (false, s')
        | [] => (false, s')
        end in
      match digits s'' with
      | ([], _) => None
      | (ds, r) => Some (if neg then (- decimal ds)%Z else decimal ds, r)
      end
    else Some (0%Z, s)
  | [] => Some (0%Z, s)
  end.

(** The digits of a number after its sign. *)
Definition unsigned (neg : bool) (s : jsstring) : option (Q * jsstring) :=
  match int_part s with
  | None => None
  | Some (i, s1) =>
    match frac_part s1 with
    | None => None
    | Some (f, s2) =>
      match exp_part s2 with
      | None => None
      | Some (e, s3) =>
        let m := ((inject_Z i + f) * Qpower 10 e)%Q in
        Some (if neg then Qopp m else m, s3)
      end
    end
  end.

Definition number (s : jsstring) : option (Q * jsstring) :=
  match s with
  | c :: s' => if c =? 45 then unsigned true s' else unsigned false s
  | [] => None
  end.

Definition expect (c : N) (s : jsstring) : option jsstring :=
  match s with
  | x :: s' => if x =? c then Some s' else None
  | [] => None
  end.

Fixpoint value (fuel : nat) (s : jsstring) : outcome JValue :=
  match fuel with
  | O => OutOfFuel
  | S fuel' =>
    match skip_ws s with
    | [] => SyntaxError
    | c :: s1 =>
      if c =? 123 then                                  (* { *)
        match expect 125 (skip_ws s1) with
        | Some s2 => Parsed (JObject []) s2
        | None =>
          match members fuel' s1 with
          | Parsed ms r => Parsed (JObject ms) r
          | SyntaxError => SyntaxError
          | OutOfFuel => OutOfFuel
          end
        end
      else if c =? 91 then                              (* [ *)
        match expect 93 (skip_ws s1) with
        | Some s2 => Parsed (JArray []) s2
        | None =>
          match elements fuel' s1 with
          | Parsed vs r => Parsed (JArray vs) r
          | SyntaxError => SyntaxError
          | OutOfFuel => OutOfFuel
          end
        end
      else if c =? 34 then
        match string_chars s1 with
        | Some (body, r) => Parsed (JString body) r
        | None => SyntaxError
        end
      else if (c =? 45) || isDigit c then
        match number (c :: s1) with
        | Some (q, r) => Parsed (JNumber q) r
        | None => SyntaxError
        end
      else
        match strip_prefix (str "true") (c :: s1) with
        | Some r => Parsed (JBool true) r
        | None =>
          match strip_prefix (str "false") (c :: s1) with
          | Some r => Parsed (JBool false) r
          | None =>
            match strip_prefix (str "null") (c :: s1) with
            | Some r => Parsed JNull r
            | None => SyntaxError
            end
          end
        end
    end
  end

(** One or more [string : value] members separated by commas, then [}]. *)
with members (fuel : nat) (s : jsstring) : outcome (list (jsstring * JValue)) :=
  match fuel with
  | O => OutOfFuel
  | S fuel' =>
    match expect 34 (skip_ws s) with
    | None => SyntaxError
    | Some s1 =>
      match string_chars s1 with
      | None => SyntaxError
      | Some (k, s2) =>
        match expect 58 (skip_ws s2) with
        | None => SyntaxError
        | Some s3 =>
          match value fuel' s3 with
          | SyntaxError => SyntaxError
          | OutOfFuel => OutOfFuel
          | Parsed v s4 =>
            match skip_ws s4 with
            | [] => SyntaxError
            | d :: s5 =>
              if d =? 125 then Parsed [(k, v)] s5
              else if d =? 44 then
                match members fuel' s5 with
                | Parsed ms r => Parsed ((k, v) :: ms) r
                | SyntaxError => SyntaxError
                | OutOfFuel => OutOfFuel
                end
              else SyntaxError
            end
          end
        end
      end
    end
  end

(** One or more values separated by commas, then [\]]. *)
with elements (fuel : nat) (s : jsstring) : outcome (list JValue) :=
  match fuel with
  | O => OutOfFuel
  | S fuel' =>
    match value fuel' s with
    | SyntaxError => SyntaxError
    | OutOfFuel => OutOfFuel
    | Parsed v s4 =>
      match skip_ws s4 with
      | [] => SyntaxError
      | d :: s5 =>
        if d =? 93 then Parsed [v] s5
        else if d =? 44 then
          match elements fuel' s5 with
          | Parsed vs r => Parsed (v :: vs) r
          | SyntaxError => SyntaxError
          | OutOfFuel => OutOfFuel
          end
        else SyntaxError
      end
    end
  end.

(** Enough fuel for any text: every nested call consumes a character at
    least every second step (see [value_total]). *)
Definition fuel_for (s : jsstring) : nat := (2 * length s + 1)%nat.

(** [JSON.parse(s)]: the value, or [None] when a [SyntaxError] is thrown. *)
Definition JSON_parse (s : jsstring) : option JValue :=
  match value (fuel_for s) s with
  | Parsed v r => match skip_ws r with [] => Some v | _ :: _ => None end
  | SyntaxError => None
  | OutOfFuel => None
  end.

(** Property lookup [obj\[key\]] on a parsed object: a later duplicate of a
    key overrides an earlier one. *)
Fixpoint lookup_member (k : jsstring) (ms : list (jsstring * JValue))
  : option JValue :=
  match ms with
  | [] => None
  | (k', v) :: ms' =>
    match lookup_member k ms' with
    | Some v' => Some v'
    | None => if decide (k' = k) then Some v else None
    end
  end.

(** The least magnitude a decimal literal must exceed not to round to zero
    as an IEEE-754 double (half the least subnormal, ties go to zero). *)
Definition underflow : Q := Qpower 2 (-1075).

(** ECMAScript ToBoolean on a parsed value. *)
Definition truthy (v : JValue) : bool :=
  match v with
  | JNull => false
  | JBool b => b
  | JNumber q => if Qlt_le_dec underflow (Qabs q) then true else false
  | JString s => match s with [] => false | _ :: _ => true end
  | JArray _ => true
  | JObject _ => true
  end.

End JSON.

(** ** Command protocol parser ([SocraticChat]) *)

Module Parser.
Import JS JSON.

(** *** The regular expression [/\[BOARD:(\{.*?\})\]/g] *)

(** [.*?\}\]]: the lazy quantifier tries the continuation first and consumes
    one more code unit (never a line terminator) only when that fails. The
    result is the text consumed by [.*?] and the remainder after [}\]]. *)
Fixpoint lazy_body (s : jsstring) : option (jsstring * jsstring) :=
  match strip_prefix (str "}]") s with
  | Some rest => Some ([], rest)
  | None =>
    match s with
    | [] => None
    | c :: s' =>
      if isLineTerminator c then None
      else match lazy_body s' with
           | Some (body, rest) => Some (c :: body, rest)
           | None => None
           end
    end
  end.

(** A match anchored at the head of [s]: capture group 1 and the remainder. *)
Definition match_here (s : jsstring) : option (jsstring * jsstring) :=
  match strip_prefix (str "[BOARD:{") s with
  | None => None
  | Some s1 =>
    match lazy_body s1 with
    | Some (body, rest) => Some (str "{" ++ body ++ str "}", rest)
    | None => None
    end
  end.

(** Leftmost match in [s]. *)
Fixpoint search (s : jsstring) : option (jsstring * jsstring) :=
  match match_here s with
  | Some m => Some m
  | None =>
    match s with
    | [] => None
    | _ :: s' => search s'
    end
  end.

(** [regex.exec(text)] for a global regex whose [lastIndex] is [lastIndex]:
    the capture and the new [lastIndex]; on failure [lastIndex] is reset. *)
Definition RegExp_exec (text : jsstring) (lastIndex : nat)
  : option jsstring * nat :=
  if decide (length text < lastIndex)%nat then (None, 0%nat)
  else
    match search (drop lastIndex text) with
    | Some (capture, rest) => (Some capture, (length text - length rest)%nat)
    | None => (None, 0%nat)
    end.

(** *** parseWhiteboardCommands *)

(** The locals of [parseWhiteboardCommands] and the console. *)
Record ParseState := mkParseState {
  lastIndex : nat;
  commands : list JValue;
  warnings : list jsstring
}.

(** What [cmd.action] evaluates to after [JSON.parse]: a property read on
    [null] throws, on any other non-object it yields [undefined]. *)
Definition action_of (cmd : JValue) : option (option JValue) :=
  match cmd with
  | JNull => None
  | JObject ms => Some (lookup_member (str "action") ms)
  | _ => Some None
  end.

(** The body of the [while] loop: the [try]/[catch] around [JSON.parse]. *)
Definition loop_body (capture : jsstring) (st : ParseState) : ParseState :=
  let warn := mkParseState (lastIndex st) (commands st)
                           (warnings st ++ [capture]) in
  match JSON_parse capture with
  | None => warn
  | Some cmd =>
    match action_of cmd with
    | None => warn
    | Some (Some a) =>
      if truthy a
      then mkParseState (lastIndex st) (commands st ++ [cmd]) (warnings st)
      else st
    | Some None => st
    end
  end.

Fixpoint while_loop (fuel : nat) (text : jsstring) (st : ParseState)
  : option ParseState :=
  match fuel with
  | O => None
  | S fuel' =>
    match RegExp_exec text (lastIndex st) with
    | (None, i) => Some (mkParseState i (commands st) (warnings st))
    | (Some capture, i) =>
      while_loop fuel' text
        (loop_body capture (mkParseState i (commands st) (warnings st)))
    end
  end.

(** The run of [parseWhiteboardCommands(text)]: every iteration moves
    [lastIndex] forward, so [length text + 1] iterations are enough
    (see [while_loop_terminates]). *)
Definition run (text : jsstring) : option ParseState :=
  while_loop (S (length text)) text (mkParseState 0 [] []).

Definition parseWhiteboardCommands (text : jsstring) : list JValue :=
  match run text with
  | Some st => commands st
  | None => []
  end.

Definition console_warnings (text : jsstring) : list jsstring :=
  match run text with
  | Some st => warnings st
  | None => []
  end.

(** *** Chunks made of complete markers *)

(** Does the literal [p] occur in [s]. *)
Fixpoint occurs (p s : jsstring) : bool :=
  match strip_prefix p s with
  | Some _ => true
  | None =>
    match s with
    | [] => false
    | _ :: s' => occurs p s'
    end
  end.

(** Text between markers: the opening of a marker occurs nowhere in it. *)
Definition marker_free (junk : jsstring) : bool :=
  negb (occurs (str "[BOARD:{") junk).

(** What a marker holds between its braces: no line terminator, and the
    closing [}\]] is the first one. *)
Definition closed_body (body : jsstring) : bool :=
  forallb (fun c => negb (isLineTerminator c)) body
  && negb (occurs (str "}]") (body ++ str "}")).

Definition payload (body : jsstring) : jsstring :=
  str "{" ++ body ++ str "}".

Definition marker (body : jsstring) : jsstring :=
  str "[BOARD:" ++ payload body ++ str "]".

(** A chunk: each marker with the text before it, then the text after the
    last marker. *)
Fixpoint assemble (ms : list (jsstring * jsstring)) (tail : jsstring)
  : jsstring :=
  match ms with
  | [] => tail
  | (junk, body) :: ms' => junk ++ marker body ++ assemble ms' tail
  end.

Definition payloads (ms : list (jsstring * jsstring)) : list jsstring :=
  List.map (fun m => payload (snd m)) ms.

Definition well_formed_chunk (ms : list (jsstring * jsstring))
  (tail : jsstring) : bool :=
  forallb (fun m => marker_free (fst m) && closed_body (snd m)) ms
  && marker_free tail.

(** The command a payload decodes to: the parsed object, when it has a
    truthy [action]. *)
Definition command_of (p : jsstring) : option JValue :=
  match JSON_parse p with
  | Some cmd =>
    match action_of cmd with
    | Some (Some a) => if truthy a then Some cmd else None
    | _ => None
    end
  | None => None
  end.

(** A payload that fails to decode: [JSON.parse] throws, or the read of
    [action] does. *)
Definition undecodable (p : jsstring) : bool :=
  match JSON_parse p with
  | Some cmd => match action_of cmd with None => true | Some _ => false end
  | None => true
  end.

End Parser.


(** ** Canvas surface manager ([TutorWhiteboard]) *)

Module Whiteboard.
Import JS.
Local Open Scope Q_scope.

(** *** Whiteboard commands, as the TypeScript interfaces declare them *)

Record WriteCommand := mkWrite {
  w_text : jsstring;
  w_x : option Q;
  w_y : option Q;
  w_size : option Q;
  w_color : option jsstring
}.

Inductive Shape := arrow | circle | rect | line.

Record DrawCommand := mkDraw {
  d_shape : Shape;
  d_from : option (Q * Q);
  d_to : option (Q * Q);
  d_center : option (Q * Q);
  d_radius : option Q;
  d_width : option Q;
  d_height : option Q;
  d_color : option jsstring
}.

Record HighlightCommand := mkHighlight {
  h_x : Q;
  h_y : Q;
  h_width : Q;
  h_height : Q;
  h_color : option jsstring
}.

Record ImageCommand := mkImage {
  i_imageData : jsstring;
  i_x : option Q;
  i_y : option Q;
  i_width : option Q;
  i_height : option Q
}.

Inductive WhiteboardCommand :=
| Write (c : WriteCommand)
| Draw (c : DrawCommand)
| Highlight (c : HighlightCommand)
| Clear
| Image (c : ImageCommand).

(** *** The 2D canvas of the host *)

Record Pixel := mkPixel { red : Z; green : Z; blue : Z; alpha : Z }.

Definition transparent : Pixel := mkPixel 0 0 0 0.

(** A raster gives the pixel of column [x] and row [y]. *)
Abbreviation Raster := (Z -> Z -> Pixel).

(** A decoded image: its natural size and its pixels. *)
Record Bitmap := mkBitmap {
  bm_width : Z;
  bm_height : Z;
  bm_px : Raster
}.

Inductive Font := DefaultFont | BoldGoogleSans (px : Q).

(** The drawing state of a [CanvasRenderingContext2D] that the component
    touches. *)
Record Context2D := mkContext {
  font : Font;
  fillStyle : jsstring;
  strokeStyle : jsstring;
  lineWidth : Q;
  lineCap : jsstring;
  lineJoin : jsstring;
  lineDash : list Q;
  shadowColor : jsstring;
  shadowBlur : Q;
  shadowOffsetX : Q;
  shadowOffsetY : Q
}.

(** The state of a fresh context, also the state after the bitmap is
    resized. *)
Definition default_context : Context2D :=
  mkContext DefaultFont (str "#000000") (str "#000000") 1 (str "butt")
            (str "miter") [] (str "rgba(0, 0, 0, 0)") 0 0 0.

(** One drawing call, with the context state it was issued under. *)
Inductive DrawOp :=
| FillRect (ctx : Context2D) (x y w h : Q)
| FillText (ctx : Context2D) (text : jsstring) (x y : Q)
| StrokeLine (ctx : Context2D) (x1 y1 x2 y2 : Q)
| StrokeArrowHead (ctx : Context2D) (x1 y1 x2 y2 : Q)
| StrokeCircle (ctx : Context2D) (cx cy r : Q)
| StrokeRect (ctx : Context2D) (x y w h : Q)
| DrawImage (ctx : Context2D) (img : Bitmap) (dx dy : Q) (size : option (Q * Q)).

(** What the component takes from its host: the string case mapping, the
    CSS colour parser, the image decoder and the rasteriser. A drawing call
    is rendered to a layer of its own, which is then composited onto the
    bitmap pixel by pixel with the source-over operator. *)
Class Host := {
  toLowerCase : jsstring -> jsstring;
  validStyle : jsstring -> bool;
  decodeImage : jsstring -> option Bitmap;
  loadsBack : Bitmap -> bool;
  over : Pixel -> Pixel -> Pixel;
  layer : DrawOp -> Raster
}.

(** The pixels of the bitmap under the integer-aligned rectangle. *)
Definition inside (w h x y : Z) : Prop := (0 <= x < w)%Z /\ (0 <= y < h)%Z.

Definition shadows_off (ctx : Context2D) : Prop :=
  shadowBlur ctx == 0 /\ shadowOffsetX ctx == 0 /\ shadowOffsetY ctx == 0.

(** The pixels whose unit square meets the stroke of the horizontal segment
    from [(x1, y)] to [(x2, y)] drawn with line width [w]. *)
Definition hline_footprint (x1 x2 y w : Q) (px py : Z) : Prop :=
  Qmin x1 x2 - w / 2 < inject_Z px + 1 /\ inject_Z px < Qmax x1 x2 + w / 2 /\
  y - w / 2 < inject_Z py + 1 /\ inject_Z py < y + w / 2.

Definition BACKGROUND : jsstring := str "#1a1a2e".

(** What the proofs about pixels rely on. *)
Class HostLaws (H : Host) := {
  (** source-over: an opaque source replaces the destination, *)
  over_opaque : forall s d, alpha s = 255%Z -> over s d = s;
  (** a fully transparent source leaves it, *)
  over_transparent : forall s d, alpha s = 0%Z -> over s d = d;
  (** and an opaque destination stays opaque. *)
  over_on_opaque : forall s d, alpha d = 255%Z -> alpha (over s d) = 255%Z;
  (** The background colour is a valid, opaque colour: filling an
      integer-aligned rectangle with it covers every pixel inside. *)
  background_valid : validStyle BACKGROUND = true;
  fill_background : forall ctx (w h x y : Z),
    fillStyle ctx = BACKGROUND -> shadows_off ctx -> inside w h x y ->
    alpha (layer (FillRect ctx 0 0 (inject_Z w) (inject_Z h)) x y) = 255%Z;
  (** An image drawn unscaled at the origin lands pixel on pixel. *)
  image_at_origin : forall ctx img x y,
    shadows_off ctx -> inside (bm_width img) (bm_height img) x y ->
    layer (DrawImage ctx img 0 0 None) x y = bm_px img x y;
  (** A horizontal stroke without shadow stays within its footprint. *)
  hline_local : forall ctx x1 x2 y px py,
    shadows_off ctx ->
    ~ hline_footprint x1 x2 y (lineWidth ctx) px py ->
    alpha (layer (StrokeLine ctx x1 y x2 y) px py) = 0%Z
}.

(** The [<canvas>] element: its bitmap and the state of its context.
    [has2d] tells whether [getContext('2d')] yields a context. *)
Record Canvas := mkCanvas {
  width : Z;
  height : Z;
  context : Context2D;
  raster : Raster;
  has2d : bool
}.

(** The calls the component makes on the canvas, in program order. *)
Inductive CanvasCall :=
| Expand (newHeight : Q)
| ToDataURL
| SetHeight (h : Z)
| Paint (op : DrawOp).

(** *** The component: its refs *)

Definition CANVAS_WIDTH : Z := 800.
Definition MIN_CANVAS_HEIGHT : Z := 800.
Definition CONTENT_PADDING : Q := 30.

Record Board := mkBoard {
  canvas : option Canvas;               (* canvasRef.current *)
  currentY : Q;                         (* currentYRef *)
  canvasHeight : Q;                     (* canvasHeightRef *)
  renderedHashes : gset jsstring;       (* renderedHashesRef *)
  itemCount : nat;                      (* itemCountRef *)
  isExpanding : bool;                   (* isExpandingRef *)
  calls : list CanvasCall               (* record of the canvas calls *)
}.

Definition with_canvas (c : Canvas) (b : Board) : Board :=
  mkBoard (Some c) (currentY b) (canvasHeight b) (renderedHashes b)
          (itemCount b) (isExpanding b) (calls b).
Definition with_currentY (y : Q) (b : Board) : Board :=
  mkBoard (canvas b) y (canvasHeight b) (renderedHashes b)
          (itemCount b) (isExpanding b) (calls b).
Definition with_canvasHeight (h : Q) (b : Board) : Board :=
  mkBoard (canvas b) (currentY b) h (renderedHashes b)
          (itemCount b) (isExpanding b) (calls b).
Definition with_renderedHashes (s : gset jsstring) (b : Board) : Board :=
  mkBoard (canvas b) (currentY b) (canvasHeight b) s
          (itemCount b) (isExpanding b) (calls b).
Definition with_itemCount (n : nat) (b : Board) : Board :=
  mkBoard (canvas b) (currentY b) (canvasHeight b) (renderedHashes b)
          n (isExpanding b) (calls b).
Definition with_isExpanding (e : bool) (b : Board) : Board :=
  mkBoard (canvas b) (currentY b) (canvasHeight b) (renderedHashes b)
          (itemCount b) e (calls b).
Definition called (c : CanvasCall) (b : Board) : Board :=
  mkBoard (canvas b) (currentY b) (canvasHeight b) (renderedHashes b)
          (itemCount b) (isExpanding b) (calls b ++ [c]).

Definition with_context (ctx : Context2D) (c : Canvas) : Canvas :=
  mkCanvas (width c) (height c) ctx (raster c) (has2d c).
Definition with_raster (r : Raster) (c : Canvas) : Canvas :=
  mkCanvas (width c) (height c) (context c) r (has2d c).

Definition set_font (f : Font) (ctx : Context2D) : Context2D :=
  mkContext f (fillStyle ctx) (strokeStyle ctx) (lineWidth ctx) (lineCap ctx)
    (lineJoin ctx) (lineDash ctx) (shadowColor ctx) (shadowBlur ctx)
    (shadowOffsetX ctx) (shadowOffsetY ctx).
Definition set_lineWidth (w : Q) (ctx : Context2D) : Context2D :=
  mkContext (font ctx) (fillStyle ctx) (strokeStyle ctx) w (lineCap ctx)
    (lineJoin ctx) (lineDash ctx) (shadowColor ctx) (shadowBlur ctx)
    (shadowOffsetX ctx) (shadowOffsetY ctx).
Definition set_lineCap (s : jsstring) (ctx : Context2D) : Context2D :=
  mkContext (font ctx) (fillStyle ctx) (strokeStyle ctx) (lineWidth ctx) s
    (lineJoin ctx) (lineDash ctx) (shadowColor ctx) (shadowBlur ctx)
    (shadowOffsetX ctx) (shadowOffsetY ctx).
Definition set_lineJoin (s : jsstring) (ctx : Context2D) : Context2D :=
  mkContext (font ctx) (fillStyle ctx) (strokeStyle ctx) (lineWidth ctx)
    (lineCap ctx) s (lineDash ctx) (shadowColor ctx) (shadowBlur ctx)
    (shadowOffsetX ctx) (shadowOffsetY ctx).
Definition setLineDash (d : list Q) (ctx : Context2D) : Context2D :=
  mkContext (font ctx) (fillStyle ctx) (strokeStyle ctx) (lineWidth ctx)
    (lineCap ctx) (lineJoin ctx) d (shadowColor ctx) (shadowBlur ctx)
    (shadowOffsetX ctx) (shadowOffsetY ctx).
Definition set_shadowBlur (v : Q) (ctx : Context2D) : Context2D :=
  mkContext (font ctx) (fillStyle ctx) (strokeStyle ctx) (lineWidth ctx)
    (lineCap ctx) (lineJoin ctx) (lineDash ctx) (shadowColor ctx) v
    (shadowOffsetX ctx) (shadowOffsetY ctx).
Definition set_shadowOffsetX (v : Q) (ctx : Context2D) : Context2D :=
  mkContext (font ctx) (fillStyle ctx) (strokeStyle ctx) (lineWidth ctx)
    (lineCap ctx) (lineJoin ctx) (lineDash ctx) (shadowColor ctx)
    (shadowBlur ctx) v (shadowOffsetY ctx).
Definition set_shadowOffsetY (v : Q) (ctx : Context2D) : Context2D :=
  mkContext (font ctx) (fillStyle ctx) (strokeStyle ctx) (lineWidth ctx)
    (lineCap ctx) (lineJoin ctx) (lineDash ctx) (shadowColor ctx)
    (shadowBlur ctx) (shadowOffsetX ctx) v.

(** [a || d] on an optional number: [undefined] and [0] give [d]. *)
Definition or_number (a : option Q) (d : Q) : Q :=
  match a with
  | Some v => if Qeq_bool v 0 then d else v
  | None => d
  end.

(** [a || d] on an optional string: [undefined] and the empty string give
    [d]. *)
Definition or_string (a : option jsstring) (d : jsstring) : jsstring :=
  match a with
  | Some (c :: s) => c :: s
  | _ => d
  end.

(** Is an optional number truthy. *)
Definition nonzero (a : option Q) : bool :=
  match a with
  | Some v => negb (Qeq_bool v 0)
  | None => false
  end.

Section WithHost.
Context {host : Host}.

(** Assignments of a colour: the host ignores a string that is no colour. *)
Definition set_fillStyle (s : jsstring) (ctx : Context2D) : Context2D :=
  if validStyle s then
    mkContext (font ctx) s (strokeStyle ctx) (lineWidth ctx) (lineCap ctx)
      (lineJoin ctx) (lineDash ctx) (shadowColor ctx) (shadowBlur ctx)
      (shadowOffsetX ctx) (shadowOffsetY ctx)
  else ctx.
Definition set_strokeStyle (s : jsstring) (ctx : Context2D) : Context2D :=
  if validStyle s then
    mkContext (font ctx) (fillStyle ctx) s (lineWidth ctx) (lineCap ctx)
      (lineJoin ctx) (lineDash ctx) (shadowColor ctx) (shadowBlur ctx)
      (shadowOffsetX ctx) (shadowOffsetY ctx)
  else ctx.
Definition set_shadowColor (s : jsstring) (ctx : Context2D) : Context2D :=
  if validStyle s then
    mkContext (font ctx) (fillStyle ctx) (strokeStyle ctx) (lineWidth ctx)
      (lineCap ctx) (lineJoin ctx) (lineDash ctx) s (shadowBlur ctx)
      (shadowOffsetX ctx) (shadowOffsetY ctx)
  else ctx.

(** Compositing of one drawing call onto a raster. *)
Definition composite (op : DrawOp) (r : Raster) : Raster :=
  fun x y => over (layer op x y) (r x y).

(** The context of the mounted canvas assigns a property, *)
Definition configure (f : Context2D -> Context2D) (b : Board) : Board :=
  match canvas b with
  | Some c => with_canvas (with_context (f (context c)) c) b
  | None => b
  end.

(** and issues a drawing call under its current state. *)
Definition draw (mk : Context2D -> DrawOp) (b : Board) : Board :=
  match canvas b with
  | Some c =>
    let op := mk (context c) in
    called (Paint op) (with_canvas (with_raster (composite op (raster c)) c) b)
  | None => b
  end.

(** The values of [for (v = 0; v < limit; v += 40)]. *)
Definition steps (limit : Z) : list Z :=
  List.map (fun k => (40 * Z.of_nat k)%Z)
           (seq 0 (Z.to_nat ((limit + 39) / 40))).

Definition GRID : jsstring := str "rgba(255,255,255,0.03)".

Definition drawBackground (w h : Z) (b : Board) : Board :=
  let b := configure (set_fillStyle BACKGROUND) b in
  let b := draw (fun ctx => FillRect ctx 0 0 (inject_Z w) (inject_Z h)) b in
  let b := configure (set_strokeStyle GRID) b in
  let b := configure (set_lineWidth 1) b in
  let b := fold_left
             (fun b x => draw (fun ctx =>
                StrokeLine ctx (inject_Z x) 0 (inject_Z x) (inject_Z h)) b)
             (steps w) b in
  fold_left
    (fun b y => draw (fun ctx =>
       StrokeLine ctx 0 (inject_Z y) (inject_Z w) (inject_Z y)) b)
    (steps h) b.

(** Assigning [canvas.height]: the attribute keeps the integer part, the
    bitmap is cleared to transparent black and the context state is reset. *)
Definition resize (h : Q) (c : Canvas) : Canvas :=
  mkCanvas (width c) (Qfloor h) default_context (fun _ _ => transparent)
           (has2d c).

(** The refs of a component that has not rendered yet. *)
Definition initial (c : option Canvas) : Board :=
  mkBoard c 80 (inject_Z MIN_CANVAS_HEIGHT) ∅ 0%nat false [].

(** The element the JSX creates. *)
Definition element (ctx2d : bool) : Canvas :=
  mkCanvas CANVAS_WIDTH MIN_CANVAS_HEIGHT default_context
           (fun _ _ => transparent) ctx2d.

(** The initialising effect. *)
Definition mount (b : Board) : Board :=
  match canvas b with
  | None => b
  | Some c =>
    let c := mkCanvas CANVAS_WIDTH (height c) default_context
                      (fun _ _ => transparent) (has2d c) in
    let c := resize (canvasHeight b) c in
    let b := with_canvas c b in
    if has2d c then drawBackground (width c) (height c) b else b
  end.

(** [expandCanvas(newHeight)], run until its promise resolves. *)
Definition expandCanvas (newHeight : Q) (b : Board) : Board :=
  let b := called (Expand newHeight) b in
  match canvas b with
  | None => b
  | Some c =>
    if Qle_bool newHeight (canvasHeight b) then b
    else
      let b := with_isExpanding true b in
      let imageData := mkBitmap (width c) (height c) (raster c) in
      let b := called ToDataURL b in
      let b := with_canvasHeight newHeight b in
      let c := resize newHeight c in
      let b := called (SetHeight (height c)) (with_canvas c b) in
      if negb (has2d c) then with_isExpanding false b
      else
        let b := drawBackground (width c) (height c) b in
        if loadsBack imageData
        then with_isExpanding false
               (draw (fun ctx => DrawImage ctx imageData 0 0 None) b)
        else with_isExpanding false b
  end.

Definition getNextY (heightNeeded : Q) (b : Board) : Q * Board :=
  let y := currentY b in
  (y, with_currentY (currentY b + (heightNeeded + CONTENT_PADDING)) b).

Definition drawShape (cmd : DrawCommand) (b : Board) : Board :=
  let b := configure (set_strokeStyle (or_string (d_color cmd) (str "#60a5fa"))) b in
  let b := configure (set_lineWidth 3) b in
  let b := configure (set_lineCap (str "round")) b in
  let b := configure (set_lineJoin (str "round")) b in
  match d_shape cmd, d_from cmd, d_to cmd, d_center cmd with
  | arrow, Some (x1, y1), Some (x2, y2), _ =>
    let b := draw (fun ctx => StrokeLine ctx x1 y1 x2 y2) b in
    draw (fun ctx => StrokeArrowHead ctx x1 y1 x2 y2) b
  | circle, _, _, Some (cx, cy) =>
    if nonzero (d_radius cmd)
    then draw (fun ctx => StrokeCircle ctx cx cy (or_number (d_radius cmd) 0)) b
    else b
  | rect, Some (x1, y1), _, _ =>
    if nonzero (d_width cmd) && nonzero (d_height cmd)
    then draw (fun ctx => StrokeRect ctx x1 y1 (or_number (d_width cmd) 0)
                                     (or_number (d_height cmd) 0)) b
    else b
  | line, Some (x1, y1), Some (x2, y2), _ =>
    draw (fun ctx => StrokeLine ctx x1 y1 x2 y2) b
  | _, _, _, _ => b
  end.

(** Assigning [ctx.font]: a negative size is no font size, and the host
    ignores the assignment. *)
Definition set_font_px (size : Q) (ctx : Context2D) : Context2D :=
  if Qle_bool 0 size then set_font (BoldGoogleSans size) ctx else ctx.

Definition drawImageWithBorder (img : Bitmap) (x y w h : Q) (b : Board)
  : Board :=
  match canvas b with
  | None => b
  | Some c =>
    let saved := context c in                                   (* save *)
    let b := configure (set_shadowColor (str "rgba(0, 0, 0, 0.6)")) b in
    let b := configure (set_shadowBlur 20) b in
    let b := configure (set_shadowOffsetX 4) b in
    let b := configure (set_shadowOffsetY 4) b in
    let b := draw (fun ctx => DrawImage ctx img x y (Some (w, h))) b in
    let b := configure (fun _ => saved) b in                    (* restore *)
    let b := configure (set_strokeStyle (str "rgba(74, 222, 128, 0.5)")) b in
    let b := configure (set_lineWidth 3) b in
    draw (fun ctx => StrokeRect ctx x y w h) b
  end.

(** The geometry [renderImage] computes for a decoded image. *)
Definition imgWidth (w : option Q) : Q :=
  or_number w (Qmin 550 (inject_Z CANVAS_WIDTH - 80)).

Definition imgHeight (img : Bitmap) (w h : option Q) : Q :=
  or_number h (inject_Z (bm_height img)
               * (imgWidth w / inject_Z (bm_width img))).

Definition imgX (x w : option Q) : Q :=
  match x with
  | Some v => v
  | None => (inject_Z CANVAS_WIDTH - imgWidth w) / 2
  end.

Definition imgY (img : Bitmap) (y w h : option Q) (b : Board) : Q * Board :=
  match y with
  | Some v => (v, b)
  | None => getNextY (imgHeight img w h + 40) b
  end.

(** [renderImage(base64Data, x, y, width, height)], run until it returns. *)
Definition renderImage (base64Data : jsstring) (x y w h : option Q)
  (b : Board) : Board :=
  match canvas b with
  | None => b
  | Some c =>
    if negb (has2d c) then b
    else
      match decodeImage base64Data with
      | None => b
      | Some img =>
        let '(top, b) := imgY img y w h b in
        let neededHeight := top + imgHeight img w h + 100 in
        let b := if Qle_bool neededHeight (canvasHeight b) then b
                 else expandCanvas (neededHeight + 300) b in
        let b := drawImageWithBorder img (imgX x w) top (imgWidth w)
                                     (imgHeight img w h) b in
        with_itemCount (S (itemCount b)) b
      end
  end.

(** The key under which a written text is remembered. *)
Definition text_hash (text : jsstring) : jsstring :=
  str "text-" ++ substring0 30 (toLowerCase (trim text)).

Definition executeCommand (cmd : WhiteboardCommand) (b : Board) : Board :=
  match canvas b with
  | None => b
  | Some c =>
    if negb (has2d c) then b
    else
      match cmd with
      | Write cmd =>
        let fontSize := or_number (w_size cmd) 24 in
        let b := configure (set_font_px fontSize) b in
        let textHeight := fontSize * 1.4 in
        let x := 40 in
        let '(y, b) := getNextY textHeight b in
        let hash := text_hash (w_text cmd) in
        if decide (hash ∈ renderedHashes b) then b
        else
          let b := with_renderedHashes ({[hash]} ∪ renderedHashes b) b in
          let b := configure (set_shadowColor (str "rgba(74, 222, 128, 0.3)")) b in
          let b := configure (set_shadowBlur 8) b in
          let b := configure (set_fillStyle (or_string (w_color cmd) (str "#4ade80"))) b in
          let b := draw (fun ctx => FillText ctx (w_text cmd) x y) b in
          let b := configure (set_shadowBlur 0) b in
          with_itemCount (S (itemCount b)) b
      | Draw cmd =>
        let b := drawShape cmd b in
        with_itemCount (S (itemCount b)) b
      | Highlight cmd =>
        let b := configure (set_fillStyle
                   (or_string (h_color cmd) (str "rgba(250, 204, 21, 0.3)"))) b in
        draw (fun ctx => FillRect ctx (h_x cmd) (h_y cmd) (h_width cmd)
                                  (h_height cmd)) b
      | Clear =>
        let '(dividerY, b) := getNextY 50 b in
        let b := configure (set_strokeStyle (str "rgba(255, 255, 255, 0.1)")) b in
        let b := configure (set_lineWidth 1) b in
        let b := configure (setLineDash [10; 10]) b in
        let b := draw (fun ctx => StrokeLine ctx 40 dividerY
                         (inject_Z CANVAS_WIDTH - 40) dividerY) b in
        configure (setLineDash []) b
      | Image cmd =>
        match i_imageData cmd with
        | [] => b
        | _ :: _ =>
          renderImage (i_imageData cmd) (i_x cmd) (i_y cmd) (i_width cmd)
                      (i_height cmd) b
        end
      end
  end.

(** *** The operations, step by step

    Closed forms of the operations above, against which they are proved
    (in [WhiteboardFacts]) and in which the properties are stated. *)

(** The refs other than the canvas and the record of calls. *)
Definition refs (b : Board) : Q * Q * gset jsstring * nat * bool :=
  (currentY b, canvasHeight b, renderedHashes b, itemCount b, isExpanding b).

Definition paint_all (ops : list DrawOp) (r : Raster) : Raster :=
  fold_left (fun r op => composite op r) ops r.

Definition called_all (l : list CanvasCall) (b : Board) : Board :=
  mkBoard (canvas b) (currentY b) (canvasHeight b) (renderedHashes b)
          (itemCount b) (isExpanding b) (calls b ++ l).

(** The context after [drawBackground], *)
Definition background_context (ctx : Context2D) : Context2D :=
  set_lineWidth 1 (set_strokeStyle GRID (set_fillStyle BACKGROUND ctx)).

(** and the drawing calls it makes: the fill, then the grid lines. *)
Definition background_ops (ctx : Context2D) (w h : Z) : list DrawOp :=
  FillRect (set_fillStyle BACKGROUND ctx) 0 0 (inject_Z w) (inject_Z h)
  :: List.map (fun x => StrokeLine (background_context ctx)
                          (inject_Z x) 0 (inject_Z x) (inject_Z h)) (steps w)
  ++ List.map (fun y => StrokeLine (background_context ctx)
                          0 (inject_Z y) (inject_Z w) (inject_Z y)) (steps h).

(** [canvas.toDataURL()] and the image it loads back to. *)
Definition snapshot (c : Canvas) : Bitmap :=
  mkBitmap (width c) (height c) (raster c).

Definition restore_ops (c : Canvas) : list DrawOp :=
  if loadsBack (snapshot c)
  then [DrawImage (background_context default_context) (snapshot c) 0 0 None]
  else [].

(** The canvas after a growth to [h]. *)
Definition grown_canvas (h : Q) (c : Canvas) : Canvas :=
  mkCanvas (width c) (Qfloor h) (background_context default_context)
    (paint_all (background_ops default_context (width c) (Qfloor h)
                ++ restore_ops c)
               (fun _ _ => transparent))
    (has2d c).

Definition growth_calls (h : Q) (c : Canvas) : list CanvasCall :=
  [Expand h; ToDataURL; SetHeight (Qfloor h)]
  ++ List.map Paint (background_ops default_context (width c) (Qfloor h)
                     ++ restore_ops c).

(** The context [drawImageWithBorder] draws the image under, and the one
    it leaves. *)
Definition shadowed (ctx : Context2D) : Context2D :=
  set_shadowOffsetY 4 (set_shadowOffsetX 4 (set_shadowBlur 20
    (set_shadowColor (str "rgba(0, 0, 0, 0.6)") ctx))).

Definition bordered (ctx : Context2D) : Context2D :=
  set_lineWidth 3 (set_strokeStyle (str "rgba(74, 222, 128, 0.5)") ctx).

Definition framed_ops (ctx : Context2D) (img : Bitmap) (x y w h : Q)
  : list DrawOp :=
  [DrawImage (shadowed ctx) img x y (Some (w, h));
   StrokeRect (bordered ctx) x y w h].

(** The size a Write command is drawn at, and how far it moves the
    cursor. *)
Definition fontSize (cmd : WriteCommand) : Q := or_number (w_size cmd) 24.

Definition advance (cmd : WriteCommand) : Q :=
  fontSize cmd * 1.4 + CONTENT_PADDING.

(** The cursor moves before the text is looked up. *)
Definition moved (cmd : WriteCommand) (b : Board) : Board :=
  with_currentY (currentY b + advance cmd)
                (configure (set_font_px (fontSize cmd)) b).

(** The context a new text is drawn under. *)
Definition ink_context (cmd : WriteCommand) (ctx : Context2D) : Context2D :=
  set_fillStyle (or_string (w_color cmd) (str "#4ade80"))
    (set_shadowBlur 8
       (set_shadowColor (str "rgba(74, 222, 128, 0.3)")
          (set_font_px (fontSize cmd) ctx))).

(** The context and the strokes of [drawShape]. *)
Definition shape_context (cmd : DrawCommand) (ctx : Context2D) : Context2D :=
  set_lineJoin (str "round") (set_lineCap (str "round") (set_lineWidth 3
    (set_strokeStyle (or_string (d_color cmd) (str "#60a5fa")) ctx))).

Definition shape_ops (cmd : DrawCommand) (ctx : Context2D) : list DrawOp :=
  match d_shape cmd, d_from cmd, d_to cmd, d_center cmd with
  | arrow, Some (x1, y1), Some (x2, y2), _ =>
    [StrokeLine ctx x1 y1 x2 y2; StrokeArrowHead ctx x1 y1 x2 y2]
  | circle, _, _, Some (cx, cy) =>
    if nonzero (d_radius cmd)
    then [StrokeCircle ctx cx cy (or_number (d_radius cmd) 0)] else []
  | rect, Some (x1, y1), _, _ =>
    if nonzero (d_width cmd) && nonzero (d_height cmd)
    then [StrokeRect ctx x1 y1 (or_number (d_width cmd) 0)
                     (or_number (d_height cmd) 0)]
    else []
  | line, Some (x1, y1), Some (x2, y2), _ => [StrokeLine ctx x1 y1 x2 y2]
  | _, _, _, _ => []
  end.

Definition highlight_context (cmd : HighlightCommand) (ctx : Context2D)
  : Context2D :=
  set_fillStyle (or_string (h_color cmd) (str "rgba(250, 204, 21, 0.3)")) ctx.

(** The context the divider of a Clear command is stroked under. *)
Definition clear_context (ctx : Context2D) : Context2D :=
  setLineDash [10; 10] (set_lineWidth 1
    (set_strokeStyle (str "rgba(255, 255, 255, 0.1)") ctx)).

(** The drawing of a text that is new, at height [y]. *)
Definition inked (cmd : WriteCommand) (y : Q) (b : Board) : Board :=
  let b := with_renderedHashes
             ({[text_hash (w_text cmd)]} ∪ renderedHashes b) b in
  let b := configure (set_shadowColor (str "rgba(74, 222, 128, 0.3)")) b in
  let b := configure (set_shadowBlur 8) b in
  let b := configure (set_fillStyle (or_string (w_color cmd) (str "#4ade80"))) b in
  let b := draw (fun ctx => FillText ctx (w_text cmd) 40 y) b in
  let b := configure (set_shadowBlur 0) b in
  with_itemCount (S (itemCount b)) b.

(** *** Sessions *)

(** A board whose canvas is mounted and has a 2D context; without one every
    operation returns at once. *)
Definition ready (b : Board) : Prop :=
  exists c, canvas b = Some c /\ has2d c = true.

(** The board of a session that has just started. *)
Definition fresh : Board := mount (initial (Some (element true))).

(** Commands executed one after the other. *)
Definition execute_all (cmds : list WhiteboardCommand) (b : Board) : Board :=
  fold_left (fun b cmd => executeCommand cmd b) cmds b.

(** Growth requests served one after the other. *)
Definition expand_all (hs : list Q) (b : Board) : Board :=
  fold_left (fun b h => expandCanvas h b) hs b.

(** The boards of a session: what the handle of the component lets a
    caller do, each call run to completion before the next. *)
Inductive reachable : Board -> Prop :=
| reach_fresh : reachable fresh
| reach_executeCommand b cmd :
    reachable b -> reachable (executeCommand cmd b)
| reach_renderImage b data x y w h :
    reachable b -> reachable (renderImage data x y w h b)
| reach_expandCanvas b h :
    reachable b -> reachable (expandCanvas h b).

(** What holds of the canvas throughout a session. *)
Record sound (b : Board) (c : Canvas) : Prop := {
  sound_canvas : canvas b = Some c;
  sound_context : has2d c = true;
  sound_width : width c = CANVAS_WIDTH;
  sound_height : height c = Qfloor (canvasHeight b);
  sound_shadows : shadows_off (context c);
  sound_opaque : forall x y,
    inside (width c) (height c) x y -> alpha (raster c x y) = 255%Z
}.

(** The keys of the texts a list of commands writes. *)
Definition written (cmds : list WhiteboardCommand) : list jsstring :=
  omap (fun cmd => match cmd with
                   | Write w => Some (text_hash (w_text w))
                   | _ => None
                   end) cmds.

Definition shadow_fields (ctx : Context2D) : Q * Q * Q :=
  (shadowBlur ctx, shadowOffsetX ctx, shadowOffsetY ctx).

(** The divider a Clear command draws at height [y]. *)
Definition divider (ctx : Context2D) (y : Q) : DrawOp :=
  StrokeLine ctx 40 y (inject_Z CANVAS_WIDTH - 40) y.

(** The pixels a divider at height [y] can touch. *)
Definition divider_region (y : Q) (px py : Z) : Prop :=
  hline_footprint 40 (inject_Z CANVAS_WIDTH - 40) y 1 px py.


Definition expansion (call : CanvasCall) : option Q :=
  match call with
  | Expand h => Some h
  | _ => None
  end.

End WithHost.

(** *** A host to run the component on

    Strokes and text are rendered as flat boxes, images are copied pixel
    by pixel, and case mapping covers the ASCII letters. *)

Definition lower (c : N) : N :=
  if ((65 <=? c) && (c <=? 90))%N then (c + 32)%N else c.

Definition ink : Pixel := mkPixel 74 222 128 255.
Definition paper : Pixel := mkPixel 26 26 46 255.
Definition veil : Pixel := mkPixel 255 255 255 8.

Definition covers (x y w h : Q) (px py : Z) : bool :=
  Qle_bool x (inject_Z px) && Qle_bool (inject_Z px + 1) (x + w)
  && Qle_bool y (inject_Z py) && Qle_bool (inject_Z py + 1) (y + h).

Definition touches (x1 x2 y w : Q) (px py : Z) : bool :=
  negb (Qle_bool (inject_Z px + 1) (Qmin x1 x2 - w / 2))
  && negb (Qle_bool (Qmax x1 x2 + w / 2) (inject_Z px))
  && negb (Qle_bool (inject_Z py + 1) (y - w / 2))
  && negb (Qle_bool (y + w / 2) (inject_Z py)).

Definition box_layer (op : DrawOp) : Raster :=
  fun px py =>
    match op with
    | FillRect ctx x y w h =>
      if covers x y w h px py then paper else transparent
    | StrokeLine ctx x1 y1 x2 y2 =>
      if Qeq_bool y1 y2 && touches x1 x2 y1 (lineWidth ctx) px py
      then veil else transparent
    | DrawImage ctx img dx dy None =>
      let x := (px - Qfloor dx)%Z in
      let y := (py - Qfloor dy)%Z in
      if ((0 <=? x) && (x <? bm_width img) && (0 <=? y)
          && (y <? bm_height img))%Z
      then bm_px img x y else transparent
    | FillText ctx text x y =>
      if covers x (y - 10) 100 10 px py then ink else transparent
    | _ => transparent
    end.

Definition box_over (s d : Pixel) : Pixel :=
  if (alpha s =? 0)%Z then d
  else if (alpha s =? 255)%Z then s
  else mkPixel (red s) (green s) (blue s) (alpha d).

(** The image every payload decodes to on this host: 550 by 700. *)
Definition poster : Bitmap := mkBitmap 550 700 (fun _ _ => ink).

Definition box_host : Host := {|
  toLowerCase := List.map lower;
  validStyle := fun _ => true;
  decodeImage := fun _ => Some poster;
  loadsBack := fun _ => true;
  over := box_over;
  layer := box_layer
|}.

End Whiteboard.

(** ** Audio transport bridge ([SocraticChat]) *)

Module Audio.
Import JS.

(** *** Base64 *)

Local Open Scope N_scope.

(** The Base64 alphabet. *)
Definition b64char (n : N) : N :=
  if n <? 26 then 65 + n
  else if n <? 52 then 97 + (n - 26)
  else if n <? 62 then 48 + (n - 52)
  else if n =? 62 then 43
  else 47.

Definition b64val (c : N) : option N :=
  if (65 <=? c) && (c <=? 90) then Some (c - 65)
  else if (97 <=? c) && (c <=? 122) then Some (c - 97 + 26)
  else if (48 <=? c) && (c <=? 57) then Some (c - 48 + 52)
  else if c =? 43 then Some 62
  else if c =? 47 then Some 63
  else None.

Definition pad : N := 61.

Fixpoint btoa_groups (s : list N) : list N :=
  match s with
  | [] => []
  | [a] => [b64char (a / 4); b64char (a mod 4 * 16); pad; pad]
  | [a; b] =>
    [b64char (a / 4); b64char (a mod 4 * 16 + b / 16);
     b64char (b mod 16 * 4); pad]
  | a :: b :: c :: rest =>
    b64char (a / 4) :: b64char (a mod 4 * 16 + b / 16)
    :: b64char (b mod 16 * 4 + c / 64) :: b64char (c mod 64)
    :: btoa_groups rest
  end.

(** [btoa(binary)]: throws (here [None]) when a code unit exceeds 255. *)
Definition btoa (binary : jsstring) : option jsstring :=
  if forallb (fun c => c <=? 255) binary then Some (btoa_groups binary)
  else None.

(** A [Uint8Array] is the list of its elements, each below 256. *)
Abbreviation Uint8Array := (list N).

(** [encode(bytes)]: one code unit per byte, then [btoa]. *)
Definition encode (bytes : Uint8Array) : option jsstring :=
  let binary := fold_left (fun acc b => acc ++ [b]) bytes [] in
  btoa binary.

Definition isAsciiWhitespace (c : N) : bool :=
  (c =? 9) || (c =? 10) || (c =? 12) || (c =? 13) || (c =? 32).

(** Sextets to bytes, four at a time; a tail of three or two sextets gives
    two bytes or one, the spare bits being dropped. *)
Fixpoint atob_groups (v : list N) : list N :=
  match v with
  | a :: b :: c :: d :: rest =>
    (a * 4 + b / 16) :: (b mod 16 * 16 + c / 4) :: (c mod 4 * 64 + d)
    :: atob_groups rest
  | [a; b; c] => [a * 4 + b / 16; b mod 16 * 16 + c / 4]
  | [a; b] => [a * 4 + b / 16]
  | _ => []
  end.

Definition strip_padding (s : jsstring) : jsstring :=
  if (length s mod 4 =? 0)%nat then
    match rev s with
    | p1 :: p2 :: r =>
      if p1 =? pad then if p2 =? pad then rev r else rev (p2 :: r) else s
    | _ => s
    end
  else s.

Fixpoint sextets (s : jsstring) : option (list N) :=
  match s with
  | [] => Some []
  | c :: s' =>
    match b64val c, sextets s' with
    | Some v, Some vs => Some (v :: vs)
    | _, _ => None
    end
  end.

(** [atob(data)], the forgiving Base64 decoding of the host; [None] when it
    throws. *)
Definition atob (data : jsstring) : option jsstring :=
  let s := strip_padding (filter (fun c => isAsciiWhitespace c = false) data) in
  if (length s mod 4 =? 1)%nat then None
  else match sextets s with
       | Some v => Some (atob_groups v)
       | None => None
       end.

(** [decode(base64)]: the bytes of the binary string [atob] returns. *)
Definition decode (base64 : jsstring) : option Uint8Array :=
  match atob base64 with
  | Some binaryString => Some (List.map (fun c => c mod 256) binaryString)
  | None => None
  end.

(** The six-bit groups of a byte sequence, and the padding that brings the
    encoding to a multiple of four characters. *)
Fixpoint sextets_of (s : list N) : list N :=
  match s with
  | [] => []
  | [a] => [a / 4; a mod 4 * 16]
  | [a; b] => [a / 4; a mod 4 * 16 + b / 16; b mod 16 * 4]
  | a :: b :: c :: rest =>
    a / 4 :: a mod 4 * 16 + b / 16 :: b mod 16 * 4 + c / 64 :: c mod 64
    :: sextets_of rest
  end.

Fixpoint padding_of (s : list N) : list N :=
  match s with
  | [] => []
  | [_] => [pad; pad]
  | [_; _] => [pad]
  | _ :: _ :: _ :: rest => padding_of rest
  end.

Local Close Scope N_scope.
Local Open Scope Z_scope.

(** *** Capture *)

(** A sample of a [Float32Array]. *)
Inductive Sample := Finite (v : Q) | NotFinite.

(** The product [sample * 32768]. *)
Definition scale (s : Sample) : Sample :=
  match s with
  | Finite v => Finite (v * 32768)%Q
  | NotFinite => NotFinite
  end.

(** Truncation toward zero. *)
Definition truncate (v : Q) : Z := Z.quot (Qnum v) (Zpos (Qden v)).

(** ECMAScript ToInt16, applied when a number is stored in an
    [Int16Array]. *)
Definition ToInt16 (s : Sample) : Z :=
  match s with
  | NotFinite => 0
  | Finite v =>
    let m := truncate v mod 65536 in
    if 32768 <=? m then m - 65536 else m
  end.

(** The two bytes of an [Int16Array] element, low byte first. *)
Definition int16_bytes (z : Z) : list N :=
  [Z.to_N (z mod 256); Z.to_N ((z / 256) mod 256)].

(** [new Uint8Array(int16.buffer)]. *)
Definition buffer_bytes (int16 : list Z) : Uint8Array :=
  concat (List.map int16_bytes int16).

Record Blob := mkBlob { data : jsstring; mimeType : jsstring }.

Definition PCM_16K : jsstring := str "audio/pcm;rate=16000".

(** The live session of the inference endpoint: whether
    [sendRealtimeInput] goes through or throws. *)
Record Session := mkSession { accepts : bool }.

Record Capture := mkCapture {
  isActive : bool;                       (* isActiveRef *)
  session : option Session;              (* sessionRef *)
  outbound : list Blob;                  (* what the transport was handed *)
  warned : nat                           (* console warnings *)
}.

(** The [onaudioprocess] handler of the script processor. *)
Definition onaudioprocess (inputData : list Sample) (st : Capture) : Capture :=
  match isActive st, session st with
  | true, Some live =>
    let int16 := List.map (fun x => ToInt16 (scale x)) inputData in
    match encode (buffer_bytes int16) with
    | None => st
    | Some payload =>
      let pcmBlob := mkBlob payload PCM_16K in
      if accepts live
      then mkCapture (isActive st) (session st) (outbound st ++ [pcmBlob])
                     (warned st)
      else mkCapture (isActive st) (session st) (outbound st) (S (warned st))
    end
  | _, _ => st
  end.

(** *** Playback *)

Local Close Scope Z_scope.
Local Open Scope Q_scope.

(** [new Int16Array(data.buffer)]: a [RangeError] (here [None]) when the
    byte length is odd. *)
Fixpoint Int16Array_of (bytes : Uint8Array) : option (list Z) :=
  match bytes with
  | [] => Some []
  | [_] => None
  | lo :: hi :: rest =>
    match Int16Array_of rest with
    | Some l =>
      let u := (Z.of_N lo + 256 * Z.of_N hi)%Z in
      Some ((if (32768 <=? u)%Z then u - 65536 else u)%Z :: l)
    | None => None
    end
  end.

Record AudioBuffer := mkAudioBuffer {
  channelData : list Q;
  sampleRate : Q
}.

Definition duration (b : AudioBuffer) : Q :=
  inject_Z (Z.of_nat (length (channelData b))) / sampleRate b.

(** [decodeAudioData(data, ctx, sampleRate, 1)]: one channel. *)
Definition decodeAudioData (bytes : Uint8Array) (rate : Q)
  : option AudioBuffer :=
  match Int16Array_of bytes with
  | Some dataInt16 =>
    Some (mkAudioBuffer (List.map (fun v => inject_Z v / 32768) dataInt16) rate)
  | None => None
  end.

(** A buffer source node that was started; [node] is its identity. *)
Record Source := mkSource {
  node : nat;
  buffer : AudioBuffer;
  startedAt : Q
}.

Record Player := mkPlayer {
  nextStartTime : Q;                 (* nextStartTimeRef *)
  sources : list Source;             (* sourcesRef, in insertion order *)
  scheduled : list Source;           (* nodes started and neither ended nor
                                        stopped, as the audio context has
                                        them *)
  created : nat;                     (* nodes created so far *)
  outputTranscript : jsstring        (* outputTranscriptRef *)
}.

Definition other_than (s : Source) (l : list Source) : list Source :=
  List.filter (fun s' => negb (node s' =? node s)%nat) l.

(** How a handler ends: it returns, or an exception leaves it half way. *)
Inductive Completion := Returns (st : Player) | Throws (st : Player).

(** The audio branch of [onmessage], for a message that carries the
    Base64 chunk [base64Audio] when the clock of the output context reads
    [currentTime]. *)
Definition play (currentTime : Q) (base64Audio : jsstring) (st : Player)
  : Completion :=
  match base64Audio with
  | [] => Returns st
  | _ :: _ =>
    let st := mkPlayer (Qmax (nextStartTime st) currentTime) (sources st)
                       (scheduled st) (created st) (outputTranscript st) in
    match decode base64Audio with
    | None => Throws st
    | Some bytes =>
      match decodeAudioData bytes 24000 with
      | None => Throws st
      | Some audioBuffer =>
        let source := mkSource (created st) audioBuffer (nextStartTime st) in
        Returns
          (mkPlayer (nextStartTime st + duration audioBuffer)
                    (sources st ++ [source])
                    (scheduled st ++ [source])
                    (S (created st))
                    (outputTranscript st))
      end
    end
  end.

(** The [ended] event of a node that played to its end: the audio context
    is done with it and the listener removes it from the set. *)
Definition ended (s : Source) (st : Player) : Player :=
  mkPlayer (nextStartTime st) (other_than s (sources st))
           (other_than s (scheduled st)) (created st) (outputTranscript st).

(** [l.forEach(s => s.stop())]: a stopped node is scheduled no more. *)
Definition stop_each (l : list Source) (scheduled : list Source)
  : list Source :=
  fold_left (fun sch s => other_than s sch) l scheduled.

(** The [interrupted] branch of [onmessage]. *)
Definition interrupted (st : Player) : Player :=
  mkPlayer 0 [] (stop_each (sources st) (scheduled st)) (created st) [].

(** One server message, as far as playback goes: the chunk of its first
    part (empty when there is none) and the interruption flag. The audio
    branch runs before the interruption branch. *)
Record Message := mkMessage {
  inlineData : jsstring;
  interruptedFlag : bool
}.

Definition onmessage (currentTime : Q) (m : Message) (st : Player) : Player :=
  match play currentTime (inlineData m) st with
  | Throws st => st
  | Returns st => if interruptedFlag m then interrupted st else st
  end.

(** *** Sessions of the player *)

(** The refs when the session starts. *)
Definition silent : Player := mkPlayer 0 [] [] 0 [].

(** The duration of the buffer a chunk decodes to, for a chunk the audio
    branch plays: a non-empty string of valid Base64 with an even number
    of bytes. *)
Definition chunk_duration (base64Audio : jsstring) : option Q :=
  match base64Audio with
  | [] => None
  | _ :: _ =>
    match decode base64Audio with
    | Some bytes =>
      match decodeAudioData bytes 24000 with
      | Some audioBuffer => Some (duration audioBuffer)
      | None => None
      end
    | None => None
    end
  end.

(** Audio messages, each with the clock reading it arrives at, handled one
    after the other without interruption. *)
Definition playback (arrivals : list (Q * jsstring)) (st : Player) : Player :=
  fold_left (fun st a => onmessage (fst a) (mkMessage (snd a) false) st)
            arrivals st.

(** The start times [playback] gives the chunks of durations [ds] arriving
    at clock readings [ts], from a pending start time [next]. *)
Fixpoint starts (next : Q) (ts ds : list Q) : list Q :=
  match ts, ds with
  | t :: ts', d :: ds' => Qmax next t :: starts (Qmax next t + d) ts' ds'
  | _, _ => []
  end.

Definition total (ds : list Q) : Q := fold_right Qplus 0 ds.

(** The players of a session: messages arrive with a clock that is never
    negative, and nodes end. *)
Inductive reachable : Player -> Prop :=
| reach_silent : reachable silent
| reach_onmessage st t m :
    reachable st -> 0 <= t -> reachable (onmessage t m st)
| reach_ended st s :
    reachable st -> reachable (ended s st).


(** Six zero bytes: three silent samples, an eighth of a millisecond. *)
Definition hush : jsstring := str "AAAAAAAA".

End Audio.


(** ** A parsed object read at its declared type

    [cmd as WhiteboardCommand] checks nothing at run time. The typed
    commands the canvas manager is specified on are the objects whose fields
    have the types the interfaces declare. *)

Module Protocol.
Import JS JSON Whiteboard.

Definition field (k : string) (ms : list (jsstring * JValue)) : option JValue :=
  lookup_member (str k) ms.








End Protocol.

(** ** Concrete inputs *)

Module Examples.
Import JS JSON Parser Whiteboard.

(** A string literal between quotation marks. *)
Definition quoted (s : string) : jsstring := [quote] ++ str s ++ [quote].

(** The body of the marker of the end-to-end scenario:
    the members [action: write] and [text: F = ma]. *)
Definition f_ma_body : jsstring :=
  quoted "action" ++ str ":" ++ quoted "write" ++ str ","
  ++ quoted "text" ++ str ":" ++ quoted "F = ma".


Definition f_ma_object : JValue :=
  JObject [(str "action", JString (str "write"));
           (str "text", JString (str "F = ma"))].

Definition f_ma : WriteCommand :=
  mkWrite (str "F = ma") None None None None.


(** The same text shouted, with a position of its own. *)
Definition f_ma_again : WriteCommand :=
  mkWrite (str "  F = MA ") (Some 300%Q) (Some 10%Q) (Some 30%Q) None.



(** A short session: the text, a divider, the text again. *)
Definition twice : list WhiteboardCommand :=
  [Write f_ma; Clear; Write f_ma_again].


End Examples.

(** ** The life of a session ([SocraticChat]) *)

Module Lifecycle.
Import JS Audio.
Local Open Scope Q_scope.

(** When the buffer of a node has played to its end. *)
Definition endsAt (s : Source) : Q := startedAt s + duration (buffer s).

(** A node created before another one, and done before the other starts. *)
Definition before (a b : Source) : Prop :=
  (node a < node b)%nat /\ endsAt a <= startedAt b.

Fixpoint apart (l : list Source) : Prop :=
  match l with
  | [] => True
  | a :: l' => Forall (before a) l' /\ apart l'
  end.

(** What the scheduling keeps of the playback refs. *)
Record orderly (st : Player) : Prop := {
  orderly_set : sources st = scheduled st;
  orderly_clock : 0 <= nextStartTime st;
  orderly_nodes : forall s, In s (sources st) ->
    (node s < created st)%nat /\ 0 <= startedAt s
    /\ endsAt s <= nextStartTime st;
  orderly_apart : apart (sources st)
}.

(** The refs that capture and playback go by, side by side. *)
Record Chat := mkChat {
  capture : Capture;
  player : Player
}.

(** [onopen]: the socket is open; [sessionRef] is assigned later, when the
    promise of [ai.live.connect] resolves. *)
Definition onopen (ch : Chat) : Chat :=
  mkChat (mkCapture true (session (capture ch)) (outbound (capture ch))
                    (warned (capture ch)))
         (player ch).

(** [sessionRef.current = await sessionPromise]. *)
Definition connected (live : Session) (ch : Chat) : Chat :=
  mkChat (mkCapture (isActive (capture ch)) (Some live)
                    (outbound (capture ch)) (warned (capture ch)))
         (player ch).

(** [onclose] and [onerror]: both leave [isActiveRef] false and
    [sessionRef] as it is. *)
Definition onclose (ch : Chat) : Chat :=
  if isActive (capture ch)
  then mkChat (mkCapture false (session (capture ch)) (outbound (capture ch))
                         (warned (capture ch)))
              (player ch)
  else ch.

Definition onerror (ch : Chat) : Chat :=
  mkChat (mkCapture false (session (capture ch)) (outbound (capture ch))
                    (warned (capture ch)))
         (player ch).

(** [stopSession()]. [closeThrows] tells whether [session.close()] throws,
    which is caught and reported by a warning. Every node of the set is
    stopped and the set is emptied; [nextStartTimeRef] is not assigned. *)
Definition stopSession (closeThrows : bool) (ch : Chat) : Chat :=
  let cap := capture ch in
  let p := player ch in
  mkChat
    (mkCapture false None (outbound cap)
       (match session cap with
        | Some _ => if closeThrows then S (warned cap) else warned cap
        | None => warned cap
        end))
    (mkPlayer (nextStartTime p) [] (stop_each (sources p) (scheduled p))
              (created p) (outputTranscript p)).

(** Frames of the microphone, handled one after the other. *)
Definition frames (fs : list (list Sample)) (ch : Chat) : Chat :=
  mkChat (fold_left (fun st f => onaudioprocess f st) fs (capture ch))
         (player ch).

(** A server message, as the playback refs see it. *)
Definition message (t : Q) (m : Message) (ch : Chat) : Chat :=
  mkChat (capture ch) (onmessage t m (player ch)).

(** The refs when the component is mounted. *)
Definition idle : Chat := mkChat (mkCapture false None [] 0) silent.

(** What can happen to the refs, by any interleaving of the handlers. *)
Inductive reachable : Chat -> Prop :=
| reach_idle : reachable idle
| reach_onopen ch : reachable ch -> reachable (onopen ch)
| reach_connected live ch : reachable ch -> reachable (connected live ch)
| reach_onclose ch : reachable ch -> reachable (onclose ch)
| reach_onerror ch : reachable ch -> reachable (onerror ch)
| reach_stopSession e ch : reachable ch -> reachable (stopSession e ch)
| reach_frames fs ch : reachable ch -> reachable (frames fs ch)
| reach_message t m ch :
    reachable ch -> 0 <= t -> reachable (message t m ch)
| reach_ended s ch :
    reachable ch -> reachable (mkChat (capture ch) (ended s (player ch))).

End Lifecycle.

(** ** Image directives and the transcript ([SocraticChat]) *)

Module Transcript.
Import JS JSON Parser.

(** *** Leftmost matches *)

Section Scan.

(** A regular expression, as its match anchored at the head of a string:
    what it captures and the remainder after the match. *)
Variable here : jsstring -> option (jsstring * jsstring).

(** The leftmost match in [s]: the text before it, the capture and the
    remainder. *)
Fixpoint locate (s : jsstring) : option (jsstring * jsstring * jsstring) :=
  match here s with
  | Some (capture, rest) => Some ([], capture, rest)
  | None =>
    match s with
    | [] => None
    | c :: s' =>
      match locate s' with
      | Some (pre, capture, rest) => Some (c :: pre, capture, rest)
      | None => None
      end
    end
  end.

(** [regex.exec(text)] for the global regex, from [lastIndex]. *)
Definition exec (text : jsstring) (lastIndex : nat) : option jsstring * nat :=
  if decide (length text < lastIndex)%nat then (None, 0%nat)
  else
    match locate (drop lastIndex text) with
    | Some (_, capture, rest) =>
      (Some capture, (length text - length rest)%nat)
    | None => (None, 0%nat)
    end.

(** [s.replace(regex, '')] for the global regex: the matches are found from
    left to right, each search starting where the match before ended, and
    what lies between them is kept. No match of the expressions used here
    is empty, so [length s] rounds are enough (see [remove_enough]). *)
Fixpoint remove (fuel : nat) (s : jsstring) : jsstring :=
  match fuel with
  | O => s
  | S fuel' =>
    match locate s with
    | Some (pre, _, rest) => pre ++ remove fuel' rest
    | None => s
    end
  end.

Definition replace_all (s : jsstring) : jsstring := remove (length s) s.

End Scan.

(** *** The regular expression [/\[IMAGE:(\[^\\\]\]+)\]/g] *)

Definition bracket : N := 93.

(** [\[^\\\]\]+]: the greedy class takes every code unit up to the first
    closing bracket, or to the end of the string. Giving some of them back
    cannot help the bracket that must follow, so the match is decided by
    this longest run: it must not be empty and a bracket must follow. *)
Fixpoint prompt_run (s : jsstring) : jsstring * jsstring :=
  match s with
  | [] => ([], [])
  | c :: s' =>
    if (c =? bracket)%N then ([], s)
    else let '(p, r) := prompt_run s' in (c :: p, r)
  end.

Definition image_here (s : jsstring) : option (jsstring * jsstring) :=
  match strip_prefix (str "[IMAGE:") s with
  | None => None
  | Some s1 =>
    match prompt_run s1 with
    | (c :: p, _ :: rest) => Some (c :: p, rest)
    | _ => None
    end
  end.

(** *** parseImageCommands *)

Fixpoint image_loop (fuel : nat) (text : jsstring) (lastIndex : nat)
  (prompts : list jsstring) : option (list jsstring) :=
  match fuel with
  | O => None
  | S fuel' =>
    match exec image_here text lastIndex with
    | (None, _) => Some prompts
    | (Some capture, i) => image_loop fuel' text i (prompts ++ [trim capture])
    end
  end.

(** Every iteration moves [lastIndex] forward, so [length text + 1]
    iterations are enough (see [image_loop_terminates]). *)
Definition parseImageCommands (text : jsstring) : list jsstring :=
  match image_loop (S (length text)) text 0 [] with
  | Some prompts => prompts
  | None => []
  end.

(** *** The transcript of a turn *)

Inductive Role := user | model.

Record Entry := mkEntry { role : Role; text : jsstring }.

(** [fullOut.replace(/\[BOARD:\{.*?\}\]/g, '').replace(/\[IMAGE:\[^\\\]\]+\]/g, '')] *)
Definition without_markers (fullOut : jsstring) : jsstring :=
  replace_all image_here (replace_all match_here fullOut).

(** [t.text.trim() !== ''] *)
Definition spoken (t : Entry) : bool :=
  match trim (text t) with
  | [] => false
  | _ :: _ => true
  end.

(** The updater [turnComplete] passes to [setTranscriptions]. *)
Definition turnComplete (fullIn fullOut : jsstring) (prev : list Entry)
  : list Entry :=
  List.filter spoken
    (prev ++ [mkEntry user fullIn; mkEntry model (without_markers fullOut)]).

(** *** Chunks made of complete image directives *)

Definition image_free (junk : jsstring) : bool :=
  negb (occurs (str "[IMAGE:") junk).

(** What a directive holds: at least one code unit, and no closing
    bracket. *)
Definition prompt_body (p : jsstring) : bool :=
  match p with
  | [] => false
  | _ :: _ => forallb (fun c => negb (c =? bracket)%N) p
  end.

Definition directive (p : jsstring) : jsstring :=
  str "[IMAGE:" ++ p ++ [bracket].

Fixpoint assemble_images (ms : list (jsstring * jsstring)) (tail : jsstring)
  : jsstring :=
  match ms with
  | [] => tail
  | (junk, p) :: ms' => junk ++ directive p ++ assemble_images ms' tail
  end.

Definition well_formed_images (ms : list (jsstring * jsstring))
  (tail : jsstring) : bool :=
  forallb (fun m => image_free (fst m) && prompt_body (snd m)) ms
  && image_free tail.

(** The text of a chunk of whiteboard markers without its markers. *)
Definition between (ms : list (jsstring * jsstring)) (tail : jsstring)
  : jsstring :=
  concat (List.map fst ms) ++ tail.

End Transcript.

(** ** The surface over a session ([TutorWhiteboard]) *)

Module Surface.
Import JS Whiteboard.
Local Open Scope Q_scope.

(** A Draw command that lacks what [drawShape] asks of its shape: none of
    the four branches is taken. *)
Definition incomplete (cmd : DrawCommand) : bool :=
  match d_shape cmd with
  | arrow | line =>
    match d_from cmd, d_to cmd with
    | Some _, Some _ => false
    | _, _ => true
    end
  | circle =>
    match d_center cmd with
    | Some _ => negb (nonzero (d_radius cmd))
    | None => true
    end
  | rect =>
    match d_from cmd with
    | Some _ => negb (nonzero (d_width cmd) && nonzero (d_height cmd))
    | None => true
    end
  end.

(** Commands that neither load an image nor make the canvas throw
    ([arc] refuses a negative radius). *)
Definition plain (cmd : WhiteboardCommand) : bool :=
  match cmd with
  | Image _ => false
  | Draw d =>
    match d_shape d, d_center d, d_radius d with
    | circle, Some _, Some r => Qle_bool 0 r
    | _, _, _ => true
    end
  | _ => true
  end.

(** How far a command moves the cursor. *)
Definition step (cmd : WhiteboardCommand) : Q :=
  match cmd with
  | Write w => advance w
  | Clear => 50 + CONTENT_PADDING
  | _ => 0
  end.

Definition travelled (cmds : list WhiteboardCommand) : Q :=
  fold_right Qplus 0 (List.map step cmds).

(** One board comes after another: nothing was taken back. *)
Record extends (b b' : Board) : Prop := {
  extends_height : canvasHeight b <= canvasHeight b';
  extends_count : (itemCount b <= itemCount b')%nat;
  extends_hashes : renderedHashes b ⊆ renderedHashes b';
  extends_calls : exists more, calls b' = calls b ++ more;
  extends_settled : isExpanding b = false -> isExpanding b' = false
}.

Section WithHost.
Context {host : Host}.

(** One call through the handle of the component, run to completion. *)
Inductive moves (b : Board) : Board -> Prop :=
| move_executeCommand cmd : moves b (executeCommand cmd b)
| move_renderImage data x y w h : moves b (renderImage data x y w h b)
| move_expandCanvas h : moves b (expandCanvas h b).

End WithHost.

(** A host on which the snapshot of the canvas never loads back. *)
Definition lossy_host : Host := {|
  toLowerCase := @toLowerCase box_host;
  validStyle := @validStyle box_host;
  decodeImage := @decodeImage box_host;
  loadsBack := fun _ => false;
  over := @over box_host;
  layer := @layer box_host
|}.

(** The canvas of a fresh board on that host. *)
Definition lossy_canvas : Canvas :=
  mkCanvas CANVAS_WIDTH MIN_CANVAS_HEIGHT
    (@background_context lossy_host default_context)
    (@paint_all lossy_host
       (@background_ops lossy_host default_context CANVAS_WIDTH
                        MIN_CANVAS_HEIGHT)
       (fun _ _ => transparent))
    true.

(** Two long lines that part after their thirtieth character. *)
Definition kinetic : WriteCommand :=
  mkWrite (str "The kinetic energy of a body is one half m v squared")
          None None None None.

Definition kinetic_too : WriteCommand :=
  mkWrite (str "the kinetic energy of a body is zero at rest")
          None None None None.

(** A circle without a radius. *)
Definition pointless : DrawCommand :=
  mkDraw circle None None (Some (100, 100)) None None None None.

End Surface.

(** * Proofs *)

(** ** JSON.parse is total *)

Module JSONFacts.
Import JS JSON.

Lemma skip_ws_le s : (length (skip_ws s) <= length s)%nat.
Proof. induction s as [|c s IH]; simpl; [lia|]. destruct (isWs c); simpl; lia. Qed.

Lemma expect_len c s r : expect c s = Some r -> length s = S (length r).
Proof.
  destruct s as [|x s]; simpl; [done|].
  destruct (x =? c)%N; [|done]. by intros [= ->].
Qed.

Lemma push_len c o b r :
  push c o = Some (b, r) -> exists b', o = Some (b', r).
Proof. destruct o as [[b' r']|]; simpl; [|done]. intros [= <- <-]. eauto. Qed.

Lemma string_chars_len s b r :
  string_chars s = Some (b, r) -> (length r < length s)%nat.
Proof.
  remember (length s) as n eqn:Hn. assert (length s <= n)%nat as Hle by lia.
  rewrite Hn. clear Hn. revert s b Hle.
  induction n as [|n IH]; intros s b Hle; (destruct s as [|c s1]; [done|]);
    simpl in Hle; [lia|]. simpl.
  destruct (c =? 34)%N.
  { intros [= <- <-]. lia. }
  destruct (c =? 92)%N.
  - destruct s1 as [|e s2]; [done|].
    destruct (e =? 117)%N.
    + destruct s2 as [|h1 [|h2 [|h3 [|h4 s3]]]]; try done.
      destruct (hex4 _ _ _ _); [|done].
      intros [b' E]%push_len. apply IH in E; simpl in *; lia.
    + destruct (escape e); [|done].
      intros [b' E]%push_len. apply IH in E; simpl in *; lia.
  - destruct (c <? 32)%N; [done|].
    intros [b' E]%push_len. apply IH in E; simpl in *; lia.
Qed.

Lemma digits_len s ds r : digits s = (ds, r) -> (length r <= length s)%nat.
Proof.
  revert ds r; induction s as [|c s IH]; intros ds r; simpl.
  - intros [= <- <-]. simpl. lia.
  - destruct (isDigit c).
    + destruct (digits s) as [ds' r'] eqn:E. intros [= <- <-].
      specialize (IH _ _ eq_refl). lia.
    + intros [= <- <-]. simpl. lia.
Qed.

Lemma int_part_len s i r : int_part s = Some (i, r) -> (length r < length s)%nat.
Proof.
  destruct s as [|c s]; simpl; [done|].
  destruct (c =? 48)%N; [intros [= <- <-]; lia|].
  destruct (isDigit c) eqn:D; [|done].
  destruct (digits s) as [ds r'] eqn:E. intros [= <- <-].
  apply digits_len in E. lia.
Qed.

Lemma frac_part_len s f r : frac_part s = Some (f, r) -> (length r <= length s)%nat.
Proof.
  destruct s as [|c s]; simpl; [intros [= <- <-]; simpl; lia|].
  destruct (c =? 46)%N; [|intros [= <- <-]; simpl; lia].
  destruct (digits s) as [[|d ds] r'] eqn:E; [done|].
  intros [= <- <-]. apply digits_len in E. lia.
Qed.

Lemma exp_part_len s e r : exp_part s = Some (e, r) -> (length r <= length s)%nat.
Proof.
  destruct s as [|c s]; simpl; [intros [= <- <-]; simpl; lia|].
  destruct (_ || _); [|intros [= <- <-]; simpl; lia].
  destruct s as [|g t].
  - simpl. done.
  - destruct (g =? 45)%N; [|destruct (g =? 43)%N].
    + destruct (digits t) as [[|d ds] r'] eqn:E; [done|].
      intros [= <- <-]. apply digits_len in E. simpl. lia.
    + destruct (digits t) as [[|d ds] r'] eqn:E; [done|].
      intros [= <- <-]. apply digits_len in E. simpl. lia.
    + destruct (digits (g :: t)) as [[|d ds] r'] eqn:E; [done|].
      intros [= <- <-]. apply digits_len in E. simpl in *. lia.
Qed.

Lemma unsigned_len neg s v r :
  unsigned neg s = Some (v, r) -> (length r < length s)%nat.
Proof.
  unfold unsigned.
  destruct (int_part s) as [[i s1]|] eqn:E1; [|done].
  destruct (frac_part s1) as [[f s2]|] eqn:E2; [|done].
  destruct (exp_part s2) as [[e s3]|] eqn:E3; [|done].
  intros [= <- <-].
  apply int_part_len in E1. apply frac_part_len in E2.
  apply exp_part_len in E3. lia.
Qed.

Lemma number_len s v r : number s = Some (v, r) -> (length r < length s)%nat.
Proof.
  destruct s as [|c s']; [done|]. unfold number.
  destruct (c =? 45)%N; intros E%unsigned_len; simpl in *; lia.
Qed.

Lemma strip_prefix_len p s r :
  strip_prefix p s = Some r -> length s = (length p + length r)%nat.
Proof.
  revert s; induction p as [|a p IH]; intros [|b s]; simpl; try done.
  - by intros [= <-].
  - by intros [= <-].
  - destruct (a =? b)%N; [|done]. intros E%IH. lia.
Qed.

(** Collect what the case analysis of a parsing step says about lengths. *)
Ltac lengths :=
  repeat match goal with
  | H : skip_ws ?s = _ |- _ =>
    let L := fresh "L" in
    pose proof (skip_ws_le s) as L; rewrite H in L; simpl in L;
    revert H
  | H : expect _ _ = Some _ |- _ => apply expect_len in H
  | H : string_chars _ = Some _ |- _ => apply string_chars_len in H
  | H : number _ = Some _ |- _ => apply number_len in H
  | H : strip_prefix _ _ = Some _ |- _ => apply strip_prefix_len in H
  end;
  intros;
  repeat match goal with
  | H : context [length (skip_ws ?x)] |- _ =>
    lazymatch goal with
    | _ : (length (skip_ws x) <= length x)%nat |- _ => fail
    | _ => pose proof (skip_ws_le x)
    end
  end;
  simpl length in *.

Lemma value_eq fuel s :
  value (S fuel) s =
  match skip_ws s with
  | [] => SyntaxError
  | c :: s1 =>
    if (c =? 123)%N then
      match expect 125 (skip_ws s1) with
      | Some s2 => Parsed (JObject []) s2
      | None =>
        match members fuel s1 with
        | Parsed ms r => Parsed (JObject ms) r
        | SyntaxError => SyntaxError
        | OutOfFuel => OutOfFuel
        end
      end
    else if (c =? 91)%N then
      match expect 93 (skip_ws s1) with
      | Some s2 => Parsed (JArray []) s2
      | None =>
        match elements fuel s1 with
        | Parsed vs r => Parsed (JArray vs) r
        | SyntaxError => SyntaxError
        | OutOfFuel => OutOfFuel
        end
      end
    else if (c =? 34)%N then
      match string_chars s1 with
      | Some (body, r) => Parsed (JString body) r
      | None => SyntaxError
      end
    else if (c =? 45)%N || isDigit c then
      match number (c :: s1) with
      | Some (q, r) => Parsed (JNumber q) r
      | None => SyntaxError
      end
    else
      match strip_prefix (str "true") (c :: s1) with
      | Some r => Parsed (JBool true) r
      | None =>
        match strip_prefix (str "false") (c :: s1) with
        | Some r => Parsed (JBool false) r
        | None =>
          match strip_prefix (str "null") (c :: s1) with
          | Some r => Parsed JNull r
          | None => SyntaxError
          end
        end
      end
  end.
Proof. reflexivity. Qed.

Lemma members_eq fuel s :
  members (S fuel) s =
  match expect 34 (skip_ws s) with
  | None => SyntaxError
  | Some s1 =>
    match string_chars s1 with
    | None => SyntaxError
    | Some (k, s2) =>
      match expect 58 (skip_ws s2) with
      | None => SyntaxError
      | Some s3 =>
        match value fuel s3 with
        | SyntaxError => SyntaxError
        | OutOfFuel => OutOfFuel
        | Parsed v s4 =>
          match skip_ws s4 with
          | [] => SyntaxError
          | d :: s5 =>
            if (d =? 125)%N then Parsed [(k, v)] s5
            else if (d =? 44)%N then
              match members fuel s5 with
              | Parsed ms r => Parsed ((k, v) :: ms) r
              | SyntaxError => SyntaxError
              | OutOfFuel => OutOfFuel
              end
            else SyntaxError
          end
        end
      end
    end
  end.
Proof. reflexivity. Qed.

Lemma elements_eq fuel s :
  elements (S fuel) s =
  match value fuel s with
  | SyntaxError => SyntaxError
  | OutOfFuel => OutOfFuel
  | Parsed v s4 =>
    match skip_ws s4 with
    | [] => SyntaxError
    | d :: s5 =>
      if (d =? 93)%N then Parsed [v] s5
      else if (d =? 44)%N then
        match elements fuel s5 with
        | Parsed vs r => Parsed (v :: vs) r
        | SyntaxError => SyntaxError
        | OutOfFuel => OutOfFuel
        end
      else SyntaxError
    end
  end.
Proof. reflexivity. Qed.

(** Every successful parse consumes input. *)
Lemma parse_progress fuel :
  (forall s v r, value fuel s = Parsed v r -> (length r < length s)%nat) /\
  (forall s ms r, members fuel s = Parsed ms r -> (length r < length s)%nat) /\
  (forall s vs r, elements fuel s = Parsed vs r -> (length r < length s)%nat).
Proof.
  induction fuel as [|fuel (IHv & IHm & IHe)]; [by repeat split|].
  repeat split; intros s ? r.
  - rewrite value_eq. intros E. repeat case_match; simplify_eq;
      repeat match goal with
      | H : members fuel _ = Parsed _ _ |- _ => apply IHm in H
      | H : elements fuel _ = Parsed _ _ |- _ => apply IHe in H
      end; lengths; lia.
  - rewrite members_eq. intros E. repeat case_match; simplify_eq;
      repeat match goal with
      | H : value fuel _ = Parsed _ _ |- _ => apply IHv in H
      | H : members fuel _ = Parsed _ _ |- _ => apply IHm in H
      end; lengths; lia.
  - rewrite elements_eq. intros E. repeat case_match; simplify_eq;
      repeat match goal with
      | H : value fuel _ = Parsed _ _ |- _ => apply IHv in H
      | H : elements fuel _ = Parsed _ _ |- _ => apply IHe in H
      end; lengths; lia.
Qed.

(** With the fuel [JSON_parse] gives it, the parser never runs dry. *)
Lemma parse_total fuel :
  (forall s, (2 * length s + 1 <= fuel)%nat -> value fuel s <> OutOfFuel) /\
  (forall s, (2 * length s + 1 <= fuel)%nat -> members fuel s <> OutOfFuel) /\
  (forall s, (2 * length s + 2 <= fuel)%nat -> elements fuel s <> OutOfFuel).
Proof.
  induction fuel as [|fuel (IHv & IHm & IHe)]; [repeat split; intros; lia|].
  destruct (parse_progress fuel) as (Pv & Pm & Pe).
  repeat split; intros s Hf.
  - rewrite value_eq. intros E. repeat case_match; simplify_eq;
      repeat match goal with
      | H : members fuel ?x = OutOfFuel |- _ => apply (IHm x); [|done]
      | H : elements fuel ?x = OutOfFuel |- _ => apply (IHe x); [|done]
      end; lengths; lia.
  - rewrite members_eq. intros E. repeat case_match; simplify_eq;
      repeat match goal with
      | H : value fuel _ = Parsed _ _ |- _ => apply Pv in H
      | H : value fuel ?x = OutOfFuel |- _ => apply (IHv x); [|done]
      | H : members fuel ?x = OutOfFuel |- _ => apply (IHm x); [|done]
      end; lengths; lia.
  - rewrite elements_eq. intros E. repeat case_match; simplify_eq;
      repeat match goal with
      | H : value fuel _ = Parsed _ _ |- _ => apply Pv in H
      | H : value fuel ?x = OutOfFuel |- _ => apply (IHv x); [|done]
      | H : elements fuel ?x = OutOfFuel |- _ => apply (IHe x); [|done]
      end; lengths; lia.
Qed.

Lemma JSON_parse_terminates s : value (fuel_for s) s <> OutOfFuel.
Proof. apply parse_total. unfold fuel_for. lia. Qed.

End JSONFacts.

(** ** The command protocol parser *)

Module ParserFacts.
Import JS JSON Parser.

Lemma strip_prefix_Some p s r : strip_prefix p s = Some r <-> s = p ++ r.
Proof.
  revert s; induction p as [|a p IH]; intros s; simpl.
  - split; congruence.
  - destruct s as [|b s]; [split; discriminate|].
    destruct (N.eqb_spec a b) as [->|Hne].
    + rewrite IH. split; [intros ->; reflexivity | intros [= ->]; reflexivity].
    + split; [discriminate | intros [= ? ?]; congruence].
Qed.

Lemma strip_prefix_app p r : strip_prefix p (p ++ r) = Some r.
Proof. by apply strip_prefix_Some. Qed.

Lemma occurs_spec p s :
  occurs p s = true <-> exists pre post, s = pre ++ p ++ post.
Proof.
  induction s as [|c s IH]; simpl.
  - destruct (strip_prefix p []) as [r|] eqn:E.
    + apply strip_prefix_Some in E. split; [|done]. intros _. by exists [], r.
    + split; [done|]. intros (pre & post & Hs).
      destruct pre; [|done]. simpl in Hs.
      assert (strip_prefix p [] = Some post) by by apply strip_prefix_Some.
      congruence.
  - destruct (strip_prefix p (c :: s)) as [r|] eqn:E.
    + apply strip_prefix_Some in E. split; [|done]. intros _. by exists [], r.
    + rewrite IH. split.
      * intros (pre & post & ->). by exists (c :: pre), post.
      * intros (pre & post & Hs). destruct pre as [|c' pre].
        -- simpl in Hs.
           assert (strip_prefix p (c :: s) = Some post)
             by by apply strip_prefix_Some.
           congruence.
        -- injection Hs as -> ->. by exists pre, post.
Qed.

Lemma occurs_tail p c s : occurs p (c :: s) = false -> occurs p s = false.
Proof. simpl. destruct (strip_prefix p (c :: s)); [done|]. by destruct s. Qed.

Lemma occurs_head p s : occurs p s = false -> strip_prefix p s = None.
Proof. destruct s; simpl; by destruct (strip_prefix p _). Qed.

Lemma lazy_body_eq s :
  lazy_body s =
  match strip_prefix (str "}]") s with
  | Some rest => Some ([], rest)
  | None =>
    match s with
    | [] => None
    | c :: s' =>
      if isLineTerminator c then None
      else match lazy_body s' with
           | Some (body, rest) => Some (c :: body, rest)
           | None => None
           end
    end
  end.
Proof. by destruct s. Qed.

(** What [lazy_body] consumes. *)
Lemma lazy_body_split s b r :
  lazy_body s = Some (b, r) -> s = b ++ str "}]" ++ r.
Proof.
  revert b; induction s as [|c s IH]; intros b; rewrite lazy_body_eq.
  - destruct (strip_prefix _ []) as [r'|] eqn:E; [|done].
    intros [= <- <-]. by apply strip_prefix_Some in E.
  - destruct (strip_prefix _ (c :: s)) as [r'|] eqn:E.
    + intros [= <- <-]. by apply strip_prefix_Some in E.
    + destruct (isLineTerminator c); [discriminate|].
      destruct (lazy_body s) as [[b' r']|]; [|discriminate].
      intros [= <- <-]. by rewrite (IH b' eq_refl).
Qed.

(** A closed body is consumed whole, whatever follows the marker. *)
Lemma lazy_body_closed b rest :
  closed_body b = true -> lazy_body (b ++ str "}]" ++ rest) = Some (b, rest).
Proof.
  unfold closed_body. rewrite andb_true_iff, negb_true_iff.
  induction b as [|c b IH]; intros [Hlt Hocc].
  - by rewrite lazy_body_eq, app_nil_l, strip_prefix_app.
  - change ((c :: b) ++ str "}]" ++ rest) with (c :: (b ++ str "}]" ++ rest)).
    rewrite lazy_body_eq.
    change (c :: (b ++ str "}]" ++ rest)) with ((c :: b) ++ str "}]" ++ rest)
      at 1.
    simpl in Hlt. apply andb_true_iff in Hlt as [Hc Hlt].
    apply negb_true_iff in Hc.
    assert (strip_prefix (str "}]") ((c :: b) ++ str "}]" ++ rest) = None)
      as ->.
    { apply occurs_head in Hocc.
      destruct (strip_prefix _ ((c :: b) ++ _ ++ rest)) as [r|] eqn:E; [|done].
      exfalso. apply strip_prefix_Some in E.
      destruct b as [|d b]; cbv in E.
      - congruence.
      - injection E as -> -> E.
        change (strip_prefix (str "}]") (str "}]" ++ (b ++ str "}")) = None)
          in Hocc.
        by rewrite strip_prefix_app in Hocc. }
    rewrite Hc, IH; [done|].
    split; [done|]. by apply occurs_tail in Hocc.
Qed.

Lemma match_here_split s cap rest :
  match_here s = Some (cap, rest) ->
  exists body, cap = payload body /\ s = marker body ++ rest.
Proof.
  unfold match_here.
  destruct (strip_prefix _ s) as [s1|] eqn:E; [|done].
  destruct (lazy_body s1) as [[body r]|] eqn:L; [|done].
  intros [= <- <-]. exists body. split; [done|].
  apply strip_prefix_Some in E. apply lazy_body_split in L.
  subst. unfold marker, payload. by rewrite <- !app_assoc.
Qed.

Lemma match_here_marker body rest :
  closed_body body = true ->
  match_here (marker body ++ rest) = Some (payload body, rest).
Proof.
  intros Hb. unfold match_here.
  replace (marker body ++ rest)
    with (str "[BOARD:{" ++ body ++ str "}]" ++ rest)
    by (unfold marker, payload; by rewrite <- !app_assoc).
  by rewrite strip_prefix_app, lazy_body_closed.
Qed.

Lemma search_eq s :
  search s =
  match match_here s with
  | Some m => Some m
  | None => match s with [] => None | _ :: s' => search s' end
  end.
Proof. by destruct s. Qed.

(** The remainder of a match is a proper suffix of the text searched. *)
Lemma search_split s cap rest :
  search s = Some (cap, rest) ->
  exists pre body, cap = payload body /\ s = pre ++ marker body ++ rest.
Proof.
  induction s as [|c s IH]; rewrite search_eq.
  - destruct (match_here []) as [[cap' r]|] eqn:E; [|done].
    intros [= -> ->]. apply match_here_split in E as (body & -> & E).
    by exists [], body.
  - destruct (match_here (c :: s)) as [[cap' r]|] eqn:E.
    + intros [= -> ->]. apply match_here_split in E as (body & -> & E).
      by exists [], body.
    + intros (pre & body & -> & ->)%IH. by exists (c :: pre), body.
Qed.

Lemma marker_length body : (10 <= length (marker body))%nat.
Proof. unfold marker, payload. rewrite !length_app. simpl. lia. Qed.

Lemma search_shorter s cap rest :
  search s = Some (cap, rest) -> (length rest < length s)%nat.
Proof.
  intros (pre & body & _ & ->)%search_split.
  rewrite !length_app. pose proof (marker_length body). lia.
Qed.

(** No match starts in marker-free text. *)
Lemma search_marker_free tail :
  marker_free tail = true -> search tail = None.
Proof.
  unfold marker_free. rewrite negb_true_iff.
  induction tail as [|c s IH]; intros Hocc; rewrite search_eq;
    unfold match_here; rewrite (occurs_head _ _ Hocc); [done|].
  apply IH. by apply occurs_tail in Hocc.
Qed.

(** The opening of a marker starts with the only bracket it holds, so no
    match can start in marker-free text and run into the marker behind. *)
Lemma opening_straddle junk x r :
  junk <> [] ->
  strip_prefix (str "[BOARD:{") (junk ++ str "[BOARD:{" ++ x) = Some r ->
  exists r', strip_prefix (str "[BOARD:{") junk = Some r'.
Proof.
  intros Hne E.
  do 8 (destruct junk as [|? junk];
        [ first [ done | by (vm_compute in E; repeat case_match) ] |]).
  cbn in E |- *.
  repeat (case_match; [|done]). eauto.
Qed.

Lemma search_skip_junk junk body rest :
  marker_free junk = true -> closed_body body = true ->
  search (junk ++ marker body ++ rest) = Some (payload body, rest).
Proof.
  unfold marker_free. rewrite negb_true_iff. intros Hj Hb.
  induction junk as [|c junk IH]; rewrite search_eq.
  - by rewrite app_nil_l, match_here_marker.
  - assert (match_here ((c :: junk) ++ marker body ++ rest) = None) as ->.
    { unfold match_here.
      destruct (strip_prefix _ _) as [r|] eqn:E; [|done]. exfalso.
      replace (marker body ++ rest)
        with (str "[BOARD:{" ++ body ++ str "}]" ++ rest) in E
        by (unfold marker, payload; by rewrite <- !app_assoc).
      apply opening_straddle in E as [r' E]; [|done].
      by rewrite (occurs_head _ _ Hj) in E. }
    apply IH. by apply occurs_tail in Hj.
Qed.

Lemma drop_to_suffix (text pre rest : jsstring) :
  text = pre ++ rest -> drop (length text - length rest) text = rest.
Proof.
  intros ->. rewrite length_app.
  replace (length pre + length rest - length rest)%nat with (length pre)
    by lia.
  apply drop_app_length.
Qed.

Lemma exec_no_match text i :
  (i <= length text)%nat -> search (drop i text) = None ->
  RegExp_exec text i = (None, 0%nat).
Proof.
  intros Hi Hs. unfold RegExp_exec.
  destruct (decide _); [lia|]. by rewrite Hs.
Qed.

Lemma exec_match text i cap rest :
  (i <= length text)%nat -> search (drop i text) = Some (cap, rest) ->
  RegExp_exec text i = (Some cap, (length text - length rest)%nat) /\
  (i < length text - length rest <= length text)%nat /\
  drop (length text - length rest) text = rest.
Proof.
  intros Hi Hs. unfold RegExp_exec.
  destruct (decide _); [lia|]. rewrite Hs. split; [done|].
  pose proof (search_shorter _ _ _ Hs) as Hlt. rewrite length_drop in Hlt.
  split; [lia|].
  apply search_split in Hs as (pre & body & _ & Hs).
  apply (drop_to_suffix _ (take i text ++ pre ++ marker body)).
  rewrite <- (take_drop i text) at 1. rewrite Hs.
  by rewrite <- !app_assoc.
Qed.

Lemma loop_body_spec cap st :
  loop_body cap st =
  mkParseState (lastIndex st)
    (commands st ++ option_list (command_of cap))
    (warnings st ++ (if undecodable cap then [cap] else [])).
Proof.
  unfold loop_body, command_of, undecodable. destruct st as [i cs ws]; simpl.
  destruct (JSON_parse cap) as [cmd|]; simpl; [|by rewrite app_nil_r].
  destruct (action_of cmd) as [[a|]|]; simpl; rewrite ?app_nil_r; try done.
  destruct (truthy a); simpl; by rewrite ?app_nil_r.
Qed.



Lemma omap_cons {A B} (f : A -> option B) x l :
  omap f (x :: l) = option_list (f x) ++ omap f l.
Proof. simpl. by destruct (f x). Qed.

(** The loop on a chunk of complete markers, from any [lastIndex] that
    leaves such a chunk to scan. *)
Lemma while_loop_chunk ms tail :
  well_formed_chunk ms tail = true ->
  forall fuel text st,
  (length ms < fuel)%nat ->
  (lastIndex st <= length text)%nat ->
  drop (lastIndex st) text = assemble ms tail ->
  while_loop fuel text st =
  Some (mkParseState 0
          (commands st ++ omap command_of (payloads ms))
          (warnings st ++ List.filter undecodable (payloads ms))).
Proof.
  unfold well_formed_chunk. rewrite andb_true_iff. intros [Hms Ht].
  induction ms as [|[junk body] ms IH]; intros fuel text st Hf Hi Hd;
    (destruct fuel as [|fuel]; [simpl in Hf; lia|]); cbn [while_loop].
  - change (assemble [] tail) with tail in Hd.
    rewrite exec_no_match; [|done|by rewrite Hd; apply search_marker_free].
    simpl. by rewrite !app_nil_r.
  - change (assemble ((junk, body) :: ms) tail)
      with (junk ++ marker body ++ assemble ms tail) in Hd.
    cbn [forallb fst snd] in Hms. apply andb_true_iff in Hms as [Hm Hms].
    apply andb_true_iff in Hm as [Hj Hb].
    pose proof (search_skip_junk junk body (assemble ms tail) Hj Hb) as Hs.
    rewrite <- Hd in Hs.
    destruct (exec_match _ _ _ _ Hi Hs) as (-> & Hlt & Hdrop).
    rewrite loop_body_spec; cbn [lastIndex commands warnings].
    rewrite (IH Hms); cbn [lastIndex commands warnings];
      [|simpl in Hf; lia|lia|done].
    cbn [payloads List.map omap List.filter snd]. fold (payloads ms).
    rewrite omap_cons, <- !app_assoc.
    by destruct (undecodable (payload body)).
Qed.



End ParserFacts.

(** ** The canvas surface manager *)

Module WhiteboardFacts.
Import JS Whiteboard.
Local Open Scope Q_scope.

(** Unfold the record updates of a board written out in full, and nothing
    else. *)
Ltac board :=
  cbv beta iota zeta delta [called_all called with_canvas with_raster
    with_context with_isExpanding with_canvasHeight with_currentY
    with_renderedHashes with_itemCount configure draw
    canvas currentY canvasHeight renderedHashes itemCount isExpanding calls
    width height context raster has2d].

(** The cases of [drawShape]. *)
Ltac shape_cases cmd :=
  unfold drawShape;
  destruct (d_shape cmd), (d_from cmd) as [[? ?]|], (d_to cmd) as [[? ?]|],
    (d_center cmd) as [[? ?]|];
  repeat match goal with
  | |- context [if ?t then _ else _] => destruct t
  end.

(** Write a ready board out in full. *)
Ltac open_board b c Hc H2 :=
  destruct b as [? ? ? ? ? ? ?]; cbn [canvas] in Hc; subst;
  destruct c as [? ? ? ? ?]; cbn [has2d] in H2; subst.

Local Opaque steps.

Section WithHost.
Context {host : Host}.

(** *** What the primitive steps leave alone *)

Lemma configure_refs f b : refs (configure f b) = refs b.
Proof. unfold configure. by destruct (canvas b). Qed.

Lemma configure_calls f b : calls (configure f b) = calls b.
Proof. unfold configure. by destruct (canvas b). Qed.

Lemma configure_canvas f b :
  canvas (configure f b)
  = (fun c => with_context (f (context c)) c) <$> canvas b.
Proof. unfold configure. by destruct (canvas b) eqn:E. Qed.

Lemma draw_refs mk b : refs (draw mk b) = refs b.
Proof. unfold draw. by destruct (canvas b). Qed.

Lemma draw_calls mk b c :
  canvas b = Some c -> calls (draw mk b) = calls b ++ [Paint (mk (context c))].
Proof. unfold draw. by intros ->. Qed.

Lemma draw_canvas mk b :
  canvas (draw mk b)
  = (fun c => with_raster (composite (mk (context c)) (raster c)) c)
    <$> canvas b.
Proof. unfold draw. by destruct (canvas b) eqn:E. Qed.

Lemma refs_currentY b b' : refs b' = refs b -> currentY b' = currentY b.
Proof. by intros [=]. Qed.
Lemma refs_canvasHeight b b' : refs b' = refs b -> canvasHeight b' = canvasHeight b.
Proof. by intros [=]. Qed.
Lemma refs_renderedHashes b b' :
  refs b' = refs b -> renderedHashes b' = renderedHashes b.
Proof. by intros [=]. Qed.
Lemma refs_itemCount b b' : refs b' = refs b -> itemCount b' = itemCount b.
Proof. by intros [=]. Qed.

(** *** Write *)

Lemma write_duplicate b cmd :
  ready b -> text_hash (w_text cmd) ∈ renderedHashes b ->
  executeCommand (Write cmd) b = moved cmd b.
Proof.
  intros (c & Hc & H2) Hin. unfold executeCommand, moved, advance, fontSize.
  rewrite Hc, H2. cbn [negb getNextY].
  assert (renderedHashes
           (with_currentY
              (currentY (configure (set_font_px (or_number (w_size cmd) 24)) b)
               + (or_number (w_size cmd) 24 * 1.4 + CONTENT_PADDING))
              (configure (set_font_px (or_number (w_size cmd) 24)) b))
          = renderedHashes b) as Hrh.
  { unfold configure. by rewrite Hc. }
  rewrite Hrh. destruct (decide _); [|done].
  f_equal. unfold configure. by rewrite Hc.
Qed.

Lemma write_first b cmd :
  ready b -> text_hash (w_text cmd) ∉ renderedHashes b ->
  executeCommand (Write cmd) b = inked cmd (currentY b) (moved cmd b).
Proof.
  intros (c & Hc & H2) Hin. unfold executeCommand, inked, moved, advance, fontSize.
  rewrite Hc, H2. cbn [negb getNextY].
  assert (renderedHashes
           (with_currentY
              (currentY (configure (set_font_px (or_number (w_size cmd) 24)) b)
               + (or_number (w_size cmd) 24 * 1.4 + CONTENT_PADDING))
              (configure (set_font_px (or_number (w_size cmd) 24)) b))
          = renderedHashes b) as Hrh.
  { unfold configure. by rewrite Hc. }
  rewrite Hrh. destruct (decide _); [done|].
  unfold configure. by rewrite Hc.
Qed.

(** *** Background and growth *)

Lemma board_eta b c :
  canvas b = Some c ->
  b = mkBoard (Some c) (currentY b) (canvasHeight b) (renderedHashes b)
              (itemCount b) (isExpanding b) (calls b).
Proof. destruct b; simpl. by intros ->. Qed.

Lemma configure_Some f b c :
  canvas b = Some c ->
  configure f b = with_canvas (with_context (f (context c)) c) b.
Proof. unfold configure. by intros ->. Qed.

Lemma draw_Some mk b c :
  canvas b = Some c ->
  draw mk b =
  called (Paint (mk (context c)))
    (with_canvas (with_raster (composite (mk (context c)) (raster c)) c) b).
Proof. unfold draw. by intros ->. Qed.

(** A run of drawing calls under one context. *)
Lemma fold_draw {A} (mk : A -> Context2D -> DrawOp) l : forall b c,
  canvas b = Some c ->
  fold_left (fun b x => draw (mk x) b) l b =
  called_all (List.map (fun x => Paint (mk x (context c))) l)
    (with_canvas
       (with_raster
          (paint_all (List.map (fun x => mk x (context c)) l) (raster c)) c)
       b).
Proof.
  induction l as [|x l IH]; intros b c Hc.
  - rewrite (board_eta b c Hc) at 1. destruct c. simpl.
    unfold called_all, with_canvas; simpl. by rewrite app_nil_r.
  - cbn [fold_left]. rewrite (draw_Some _ _ _ Hc).
    erewrite IH by reflexivity.
    unfold called_all, called, with_canvas, with_raster; simpl.
    by rewrite <- app_assoc.
Qed.

Lemma drawBackground_spec w h b c :
  canvas b = Some c ->
  drawBackground w h b =
  called_all (List.map Paint (background_ops (context c) w h))
    (with_canvas
       (mkCanvas (width c) (height c) (background_context (context c))
          (paint_all (background_ops (context c) w h) (raster c)) (has2d c))
       b).
Proof.
  intros Hc. unfold drawBackground.
  rewrite (configure_Some _ _ _ Hc).
  erewrite draw_Some by reflexivity.
  erewrite configure_Some by reflexivity.
  erewrite configure_Some by reflexivity.
  erewrite (fold_draw _ (steps w)) by reflexivity.
  erewrite (fold_draw _ (steps h)) by reflexivity.
  destruct b as [cv y ch rh n e cl], c as [cw chh ctx r has].
  cbv beta iota delta [called_all called with_canvas with_raster with_context
    canvas currentY canvasHeight renderedHashes itemCount isExpanding calls
    width height context raster has2d background_ops background_context
    paint_all].
  f_equal.
  - do 2 f_equal. cbn [fold_left]. by rewrite fold_left_app.
  - cbn [List.map]. rewrite List.map_app, !List.map_map, <- !app_assoc.
    reflexivity.
Qed.

Lemma expandCanvas_noop h b :
  (forall c, canvas b = Some c -> h <= canvasHeight b) ->
  expandCanvas h b = called (Expand h) b.
Proof.
  intros Hle. unfold expandCanvas. cbn [called canvas canvasHeight].
  destruct (canvas b) as [c|] eqn:Hc; [|done].
  specialize (Hle c eq_refl). apply Qle_bool_iff in Hle. by rewrite Hle.
Qed.

Lemma expandCanvas_grow h b c :
  canvas b = Some c -> has2d c = true -> canvasHeight b < h ->
  expandCanvas h b =
  mkBoard (Some (grown_canvas h c)) (currentY b) h (renderedHashes b)
          (itemCount b) false (calls b ++ growth_calls h c).
Proof.
  intros Hc H2 Hlt. unfold expandCanvas. cbn [called canvas canvasHeight].
  rewrite Hc.
  assert (Qle_bool h (canvasHeight b) = false) as ->.
  { apply not_true_is_false. rewrite Qle_bool_iff. by apply Qlt_not_le. }
  cbn [resize has2d]. rewrite H2. cbn [negb].
  erewrite drawBackground_spec by reflexivity.
  unfold growth_calls, grown_canvas, restore_ops, snapshot.
  destruct (loadsBack _).
  - erewrite draw_Some by reflexivity.
    destruct b as [cv y ch rh n e cl], c as [cw chh ctx r has].
    cbv beta iota delta [called_all called with_canvas with_raster
      with_context with_isExpanding with_canvasHeight
      canvas currentY canvasHeight renderedHashes itemCount isExpanding calls
      width height context raster has2d paint_all] in H2 |- *.
    rewrite H2. f_equal.
    + do 2 f_equal. by rewrite fold_left_app.
    + rewrite List.map_app, <- !app_assoc. reflexivity.
  - destruct b as [cv y ch rh n e cl], c as [cw chh ctx r has].
    cbv beta iota delta [called_all called with_canvas with_raster
      with_context with_isExpanding with_canvasHeight
      canvas currentY canvasHeight renderedHashes itemCount isExpanding calls
      width height context raster has2d paint_all] in H2 |- *.
    rewrite H2, !app_nil_r. f_equal. by rewrite <- !app_assoc.
Qed.

(** The board of a session that has just started. *)
Lemma fresh_spec :
  fresh =
  mkBoard
    (Some (mkCanvas CANVAS_WIDTH MIN_CANVAS_HEIGHT
             (background_context default_context)
             (paint_all (background_ops default_context CANVAS_WIDTH
                                        MIN_CANVAS_HEIGHT)
                        (fun _ _ => transparent))
             true))
    80 (inject_Z MIN_CANVAS_HEIGHT) ∅ 0%nat false
    (List.map Paint (background_ops default_context CANVAS_WIDTH
                                    MIN_CANVAS_HEIGHT)).
Proof.
  unfold fresh, mount, initial, element. cbn [canvas has2d resize canvasHeight].
  erewrite drawBackground_spec by reflexivity. reflexivity.
Qed.

Lemma drawImageWithBorder_spec img x y w h b c :
  canvas b = Some c ->
  drawImageWithBorder img x y w h b =
  called_all (List.map Paint (framed_ops (context c) img x y w h))
    (with_canvas
       (mkCanvas (width c) (height c) (bordered (context c))
          (paint_all (framed_ops (context c) img x y w h) (raster c))
          (has2d c))
       b).
Proof.
  intros Hc. rewrite (board_eta b c Hc). destruct c.
  unfold drawImageWithBorder, framed_ops, paint_all, shadowed, bordered.
  board. cbn [fold_left List.map]. by rewrite <- app_assoc.
Qed.

(** *** A mounted canvas stays mounted *)

Lemma ready_expandCanvas h b : ready b -> ready (expandCanvas h b).
Proof.
  intros (c & Hc & H2).
  destruct (Qlt_le_dec (canvasHeight b) h) as [Hlt|Hle].
  - rewrite (expandCanvas_grow h b c Hc H2 Hlt). by exists (grown_canvas h c).
  - rewrite expandCanvas_noop by done. by exists c.
Qed.

Lemma ready_drawImageWithBorder img x y w h b :
  ready b -> ready (drawImageWithBorder img x y w h b).
Proof.
  intros (c & Hc & H2). rewrite (drawImageWithBorder_spec _ _ _ _ _ _ _ Hc).
  eexists. split; [reflexivity|done].
Qed.

Lemma ready_refs b b' : canvas b' = canvas b -> ready b -> ready b'.
Proof. intros Hc (c & ? & ?). exists c. by rewrite Hc. Qed.

Lemma ready_renderImage data x y w h b :
  ready b -> ready (renderImage data x y w h b).
Proof.
  intros Hr. pose proof Hr as (c & Hc & H2). unfold renderImage.
  rewrite Hc, H2. cbn [negb].
  destruct (decodeImage data) as [img|]; [|done].
  destruct (imgY img y w h b) as [top b1] eqn:Hy.
  assert (ready b1) as Hr1.
  { unfold imgY, getNextY in Hy. destruct y; injection Hy as <- <-; [done|].
    by eapply ready_refs; [|exact Hr]. }
  eapply ready_refs; [reflexivity|]. cbn [with_itemCount canvas].
  apply ready_drawImageWithBorder.
  destruct (Qle_bool _ _); [done|]. by apply ready_expandCanvas.
Qed.

Lemma ready_executeCommand cmd b : ready b -> ready (executeCommand cmd b).
Proof.
  intros Hr. pose proof Hr as (c & Hc & H2).
  destruct cmd as [cmd|cmd|cmd| |cmd].
  - destruct (decide (text_hash (w_text cmd) ∈ renderedHashes b)).
    + rewrite write_duplicate by done. clear Hr. open_board b c Hc H2.
      unfold moved. board. by eexists.
    + rewrite write_first by done. clear Hr. open_board b c Hc H2.
      unfold inked, moved. board. by eexists.
  - unfold executeCommand. rewrite Hc, H2. cbn [negb].
    clear Hr. open_board b c Hc H2. shape_cases cmd; board; by eexists.
  - unfold executeCommand. rewrite Hc, H2. cbn [negb].
    clear Hr. open_board b c Hc H2. board. by eexists.
  - unfold executeCommand. rewrite Hc, H2. cbn [negb].
    clear Hr. open_board b c Hc H2. unfold getNextY. board. by eexists.
  - unfold executeCommand. rewrite Hc, H2. cbn [negb].
    destruct (i_imageData cmd); [done|]. by apply ready_renderImage.
Qed.

Lemma ready_fresh : ready fresh.
Proof. rewrite fresh_spec. by eexists. Qed.

Lemma ready_execute_all cmds b : ready b -> ready (execute_all cmds b).
Proof.
  revert b; induction cmds as [|cmd cmds IH]; intros b Hr; [done|].
  apply IH. by apply ready_executeCommand.
Qed.

(** *** The texts already written *)

Lemma renderedHashes_expandCanvas h b :
  renderedHashes (expandCanvas h b) = renderedHashes b.
Proof.
  unfold expandCanvas. cbn [called canvas canvasHeight].
  destruct (canvas b) as [c|] eqn:Hc; [|done].
  destruct (Qle_bool h (canvasHeight b)); [done|].
  cbn [resize has2d]. destruct (has2d c); cbn [negb]; [|done].
  erewrite drawBackground_spec by reflexivity.
  destruct (loadsBack _); [|done].
  by erewrite draw_Some by reflexivity.
Qed.

Lemma renderedHashes_renderImage data x y w h b :
  renderedHashes (renderImage data x y w h b) = renderedHashes b.
Proof.
  unfold renderImage. destruct (canvas b) as [c|] eqn:Hc; [|done].
  destruct (has2d c) eqn:H2; cbn [negb]; [|done].
  destruct (decodeImage data) as [img|]; [|done].
  destruct (imgY img y w h b) as [top b1] eqn:Hy.
  assert (renderedHashes b1 = renderedHashes b /\ ready b1) as [<- Hr1].
  { unfold imgY, getNextY in Hy.
    destruct y; injection Hy as <- <-; (split; [done|]); by exists c. }
  cbn [with_itemCount renderedHashes].
  set (b2 := if Qle_bool _ _ then _ else _).
  assert (renderedHashes b2 = renderedHashes b1 /\ ready b2) as [<- (c2 & Hc2 & _)].
  { unfold b2. destruct (Qle_bool _ _); [done|].
    split; [apply renderedHashes_expandCanvas|by apply ready_expandCanvas]. }
  by rewrite (drawImageWithBorder_spec _ _ _ _ _ _ _ Hc2).
Qed.

Lemma renderedHashes_executeCommand cmd b :
  ready b ->
  renderedHashes (executeCommand cmd b)
  = list_to_set (written [cmd]) ∪ renderedHashes b.
Proof.
  intros Hr. pose proof Hr as (c & Hc & H2).
  destruct cmd as [cmd|cmd|cmd| |cmd].
  - change (written [Write cmd]) with [text_hash (w_text cmd)].
    destruct (decide (text_hash (w_text cmd) ∈ renderedHashes b)).
    + rewrite write_duplicate by done. unfold moved.
      cbn [with_currentY renderedHashes].
      rewrite (refs_renderedHashes _ _ (configure_refs _ _)). set_solver.
    + rewrite write_first by done. clear Hr. open_board b c Hc H2.
      unfold inked, moved. board. set_solver.
  - change (written [Draw cmd]) with (@nil jsstring).
    unfold executeCommand. rewrite Hc, H2. cbn [negb].
    clear Hr. open_board b c Hc H2. shape_cases cmd; board; set_solver.
  - change (written [Highlight cmd]) with (@nil jsstring).
    unfold executeCommand. rewrite Hc, H2. cbn [negb].
    clear Hr. open_board b c Hc H2. board. set_solver.
  - change (written [Clear]) with (@nil jsstring).
    unfold executeCommand. rewrite Hc, H2. cbn [negb].
    clear Hr. open_board b c Hc H2. unfold getNextY. board. set_solver.
  - change (written [Image cmd]) with (@nil jsstring).
    unfold executeCommand. rewrite Hc, H2. cbn [negb].
    destruct (i_imageData cmd); [set_solver|].
    rewrite renderedHashes_renderImage. set_solver.
Qed.

Lemma written_app l1 l2 : written (l1 ++ l2) = written l1 ++ written l2.
Proof. apply omap_app. Qed.

Lemma renderedHashes_execute_all cmds b :
  ready b ->
  renderedHashes (execute_all cmds b)
  = list_to_set (written cmds) ∪ renderedHashes b.
Proof.
  revert b; induction cmds as [|cmd cmds IH]; intros b Hr.
  - simpl. set_solver.
  - change (execute_all (cmd :: cmds) b)
      with (execute_all cmds (executeCommand cmd b)).
    rewrite IH by by apply ready_executeCommand.
    rewrite renderedHashes_executeCommand by done.
    change (cmd :: cmds) with ([cmd] ++ cmds).
    rewrite written_app, list_to_set_app_L. set_solver.
Qed.



(** *** Writes *)

Lemma moved_spec cmd b c :
  canvas b = Some c ->
  moved cmd b =
  mkBoard (Some (with_context (set_font_px (fontSize cmd) (context c)) c))
          (currentY b + advance cmd) (canvasHeight b) (renderedHashes b)
          (itemCount b) (isExpanding b) (calls b).
Proof.
  intros Hc. rewrite (board_eta b c Hc) at 1. by destruct c.
Qed.

Lemma inked_spec cmd b c :
  canvas b = Some c ->
  inked cmd (currentY b) (moved cmd b) =
  mkBoard (Some (mkCanvas (width c) (height c)
                   (set_shadowBlur 0 (ink_context cmd (context c)))
                   (paint_all [FillText (ink_context cmd (context c))
                                        (w_text cmd) 40 (currentY b)]
                              (raster c))
                   (has2d c)))
          (currentY b + advance cmd) (canvasHeight b)
          ({[text_hash (w_text cmd)]} ∪ renderedHashes b)
          (S (itemCount b)) (isExpanding b)
          (calls b ++ [Paint (FillText (ink_context cmd (context c))
                                       (w_text cmd) 40 (currentY b))]).
Proof.
  intros Hc. rewrite (moved_spec _ _ _ Hc). destruct c.
  unfold inked. board. reflexivity.
Qed.

(** *** The other commands, in closed form *)

Lemma executeCommand_Draw cmd b c :
  canvas b = Some c -> has2d c = true ->
  executeCommand (Draw cmd) b =
  mkBoard (Some (mkCanvas (width c) (height c) (shape_context cmd (context c))
                   (paint_all (shape_ops cmd (shape_context cmd (context c)))
                              (raster c))
                   (has2d c)))
          (currentY b) (canvasHeight b) (renderedHashes b)
          (S (itemCount b)) (isExpanding b)
          (calls b ++ List.map Paint
                        (shape_ops cmd (shape_context cmd (context c)))).
Proof.
  intros Hc H2. unfold executeCommand. rewrite Hc, H2. cbn [negb].
  open_board b c Hc H2. unfold shape_ops, shape_context, paint_all.
  shape_cases cmd; board; cbn [fold_left List.map];
    rewrite <- ?app_assoc, ?app_nil_r; reflexivity.
Qed.

Lemma executeCommand_Highlight cmd b c :
  canvas b = Some c -> has2d c = true ->
  executeCommand (Highlight cmd) b =
  mkBoard (Some (mkCanvas (width c) (height c)
                   (highlight_context cmd (context c))
                   (paint_all [FillRect (highlight_context cmd (context c))
                                 (h_x cmd) (h_y cmd) (h_width cmd)
                                 (h_height cmd)]
                              (raster c))
                   (has2d c)))
          (currentY b) (canvasHeight b) (renderedHashes b)
          (itemCount b) (isExpanding b)
          (calls b ++ [Paint (FillRect (highlight_context cmd (context c))
                                (h_x cmd) (h_y cmd) (h_width cmd)
                                (h_height cmd))]).
Proof.
  intros Hc H2. unfold executeCommand. rewrite Hc, H2. cbn [negb].
  open_board b c Hc H2. board. reflexivity.
Qed.

Lemma executeCommand_Clear b c :
  canvas b = Some c -> has2d c = true ->
  executeCommand Clear b =
  mkBoard (Some (mkCanvas (width c) (height c)
                   (setLineDash [] (clear_context (context c)))
                   (paint_all [divider (clear_context (context c)) (currentY b)]
                              (raster c))
                   (has2d c)))
          (currentY b + (50 + CONTENT_PADDING)) (canvasHeight b)
          (renderedHashes b) (itemCount b) (isExpanding b)
          (calls b ++ [Paint (divider (clear_context (context c))
                                      (currentY b))]).
Proof.
  intros Hc H2. unfold executeCommand. rewrite Hc, H2. cbn [negb].
  open_board b c Hc H2. unfold getNextY. board. reflexivity.
Qed.





(** C10. A Write command whose normalized text an earlier Write command of
    the session already had leaves the pixels of the canvas, the record of
    drawing calls, the set of rendered texts and the item counter as they
    were, and still moves the cursor down by fontSize * 1.4 + 30: the
    skipped duplicate leaves a blank band on the surface. *)
Theorem duplicate_write_leaves_gap
  (cmds : list WhiteboardCommand) (first cmd : WriteCommand) :
  Write first ∈ cmds ->
  text_hash (w_text first) = text_hash (w_text cmd) ->
  let before := execute_all cmds fresh in
  let after := executeCommand (Write cmd) before in
  raster <$> canvas after = raster <$> canvas before
  /\ height <$> canvas after = height <$> canvas before
  /\ calls after = calls before
  /\ itemCount after = itemCount before
  /\ renderedHashes after = renderedHashes before
  /\ currentY after
     = currentY before + (or_number (w_size cmd) 24 * 1.4 + CONTENT_PADDING).
Proof.
  intros Hin Hsame before after.
  assert (ready before) as Hr by apply ready_execute_all, ready_fresh.
  pose proof Hr as (c & Hc & H2).
  assert (text_hash (w_text cmd) ∈ renderedHashes before) as Hseen.
  { unfold before. rewrite renderedHashes_execute_all by apply ready_fresh.
    apply elem_of_union_l, elem_of_list_to_set. unfold written.
    apply list_elem_of_omap. exists (Write first). split; [done|].
    by rewrite Hsame. }
  unfold after. rewrite write_duplicate by done.
  rewrite (moved_spec _ _ _ Hc), Hc. by repeat split.
Qed.

(** *** Images *)

Lemma expansion_Paint ops : omap expansion (List.map Paint ops) = [].
Proof. by induction ops. Qed.


(** *** What holds throughout a session *)

Context {laws : HostLaws host}.

Lemma paint_all_opaque ops r x y :
  alpha (r x y) = 255%Z -> alpha (paint_all ops r x y) = 255%Z.
Proof.
  revert r; induction ops as [|op ops IH]; intros r Hr; [done|].
  simpl. apply IH. unfold composite. by apply over_on_opaque.
Qed.

(** The setters other than those of the shadow leave the shadow alone. *)
Lemma shadows_off_fields ctx ctx' :
  shadow_fields ctx' = shadow_fields ctx -> shadows_off ctx -> shadows_off ctx'.
Proof. unfold shadows_off. by intros [= -> -> ->]. Qed.

Lemma background_context_shadow ctx :
  shadow_fields (background_context ctx) = shadow_fields ctx.
Proof.
  unfold background_context, set_strokeStyle, set_fillStyle.
  by repeat case_match.
Qed.

Lemma bordered_shadow ctx : shadow_fields (bordered ctx) = shadow_fields ctx.
Proof. unfold bordered, set_strokeStyle. by repeat case_match. Qed.

Lemma default_shadows_off : shadows_off default_context.
Proof. by repeat split. Qed.

(** After [drawBackground] every pixel of the bitmap is opaque. *)
Lemma background_opaque ctx (w h : Z) r x y :
  shadows_off ctx -> inside w h x y ->
  alpha (paint_all (background_ops ctx w h) r x y) = 255%Z.
Proof.
  intros Hs Hin. unfold background_ops. simpl. apply paint_all_opaque.
  unfold composite. rewrite over_opaque; apply fill_background; try done.
  all: try (unfold set_fillStyle; by rewrite background_valid).
  all: eapply shadows_off_fields; [|exact Hs];
    unfold set_fillStyle; by case_match.
Qed.

(** Growth keeps the board sound, keeps the pixels it had when the
    snapshot loads back, and never lowers the bitmap. *)
Lemma sound_expandCanvas h b c :
  sound b c ->
  exists c', sound (expandCanvas h b) c'
    /\ (height c <= height c')%Z
    /\ (h <= canvasHeight b -> c' = c)
    /\ (loadsBack (snapshot c) = true ->
        forall x y, inside (width c) (height c) x y ->
                    raster c' x y = raster c x y).
Proof.
  intros [Hc H2 Hw Hh Hs Ho].
  destruct (Qlt_le_dec (canvasHeight b) h) as [Hlt|Hle].
  - rewrite (expandCanvas_grow h b c Hc H2 Hlt).
    assert (height c <= Qfloor h)%Z as Hfl.
    { rewrite Hh. apply Qfloor_resp_le. by apply Qlt_le_weak. }
    assert (shadows_off (background_context default_context)) as Hbg.
    { eapply shadows_off_fields; [apply background_context_shadow|].
      apply default_shadows_off. }
    assert (forall x y, inside (width c) (height c) x y ->
              loadsBack (snapshot c) = true ->
              raster (grown_canvas h c) x y = raster c x y) as Hkeep.
    { intros x y Hin Hload. unfold grown_canvas, restore_ops. rewrite Hload.
      cbn [raster]. unfold paint_all. rewrite fold_left_app. cbn [fold_left].
      unfold composite at 1. rewrite image_at_origin by done.
      cbn [snapshot bm_px]. apply over_opaque. by apply Ho. }
    exists (grown_canvas h c). split; [|split; [done|split]].
    + split; cbn [canvas canvasHeight grown_canvas has2d width height context
                  raster]; try done.
      intros x y Hin. unfold paint_all. rewrite fold_left_app.
        apply (paint_all_opaque (restore_ops c)).
        apply background_opaque; [apply default_shadows_off|done].
    + intros Hle. exfalso. by apply (Qlt_not_le _ _ Hlt).
    + intros Hload x y Hin. by apply Hkeep.
  - rewrite expandCanvas_noop by done. exists c. split; [|done].
    by split.
Qed.

(** Drawing on a sound board, under a context whose shadow is off in the
    end, leaves it sound. *)
Lemma sound_step b c b' ctx' ops :
  sound b c ->
  canvas b' = Some (mkCanvas (width c) (height c) ctx'
                      (paint_all ops (raster c)) (has2d c)) ->
  canvasHeight b' = canvasHeight b ->
  shadows_off ctx' ->
  sound b' (mkCanvas (width c) (height c) ctx' (paint_all ops (raster c))
              (has2d c)).
Proof.
  intros [Hc H2 Hw Hh Hs Ho] Hc' Hh' Hs'.
  split; cbn [width height context raster has2d]; try done.
  - by rewrite Hh'.
  - intros x y Hin. apply paint_all_opaque. by apply Ho.
Qed.

Ltac shadow_kept :=
  match goal with
  | Hs : shadows_off ?ctx |- shadows_off _ =>
    eapply shadows_off_fields; [|exact Hs];
    unfold shadow_fields, bordered, background_context, set_font_px,
      set_fillStyle, set_strokeStyle, set_shadowColor, set_font,
      set_lineWidth, set_lineCap, set_lineJoin, setLineDash;
    repeat match goal with
    | |- context [if ?t then _ else _] => destruct t
    end;
    reflexivity
  end.

Lemma sound_fresh : exists c, sound fresh c.
Proof.
  rewrite fresh_spec. eexists. split; cbn; try done.
  - eapply shadows_off_fields; [apply background_context_shadow|].
    apply default_shadows_off.
  - intros x y Hin. apply background_opaque; [apply default_shadows_off|done].
Qed.

Lemma sound_renderImage data x y w h b c :
  sound b c -> exists c', sound (renderImage data x y w h b) c'.
Proof.
  intros Hs. pose proof Hs as [Hc H2 _ _ _ _]. unfold renderImage.
  rewrite Hc, H2. cbn [negb].
  destruct (decodeImage data) as [img|]; [|by exists c].
  destruct (imgY img y w h b) as [top b1] eqn:Hy.
  assert (sound b1 c) as Hs1.
  { unfold imgY, getNextY in Hy. destruct y; injection Hy as <- <-; [done|].
    by destruct Hs. }
  set (b2 := if Qle_bool _ _ then _ else _).
  assert (exists c2, sound b2 c2) as [c2 Hs2].
  { unfold b2. destruct (Qle_bool _ _); [by exists c|].
    destruct (sound_expandCanvas (top + imgHeight img w h + 100 + 300) b1 c Hs1)
      as (c2 & ? & _). by exists c2. }
  pose proof Hs2 as [Hc2 ? ? ? Hsh ?].
  rewrite (drawImageWithBorder_spec _ _ _ _ _ _ _ Hc2).
  eexists. eapply (sound_step _ _ _ _ _ Hs2); [reflexivity|done|shadow_kept].
Qed.

Lemma sound_executeCommand cmd b c :
  sound b c -> exists c', sound (executeCommand cmd b) c'.
Proof.
  intros Hs. pose proof Hs as [Hc H2 Hw Hh Hsh Ho].
  assert (ready b) as Hr by by exists c.
  destruct cmd as [cmd|cmd|cmd| |cmd].
  - destruct (decide (text_hash (w_text cmd) ∈ renderedHashes b)).
    + rewrite write_duplicate by done. rewrite (moved_spec _ _ _ Hc).
      eexists. eapply (sound_step _ _ _ _ [] Hs);
        [reflexivity|reflexivity|shadow_kept].
    + rewrite write_first by done. rewrite (inked_spec cmd b c Hc).
      eexists. eapply (sound_step _ _ _ _ _ Hs); [reflexivity|reflexivity|].
      destruct Hsh as (? & ? & ?).
      unfold shadows_off, ink_context, set_fillStyle, set_shadowColor,
        set_font_px.
      repeat match goal with
      | |- context [if ?t then _ else _] => destruct t
      end; by repeat split.
  - rewrite (executeCommand_Draw _ _ _ Hc H2).
    eexists. eapply (sound_step _ _ _ _ _ Hs); [reflexivity|reflexivity|].
    unfold shape_context. shadow_kept.
  - rewrite (executeCommand_Highlight _ _ _ Hc H2).
    eexists. eapply (sound_step _ _ _ _ _ Hs); [reflexivity|reflexivity|].
    unfold highlight_context. shadow_kept.
  - rewrite (executeCommand_Clear _ _ Hc H2).
    eexists. eapply (sound_step _ _ _ _ _ Hs); [reflexivity|reflexivity|].
    unfold clear_context. shadow_kept.
  - unfold executeCommand. rewrite Hc, H2. cbn [negb].
    destruct (i_imageData cmd); [by exists c|]. by eapply sound_renderImage.
Qed.

Lemma reachable_sound b : reachable b -> exists c, sound b c.
Proof.
  induction 1 as [|b cmd _ [c Hs]|b data x y w h _ [c Hs]|b h _ [c Hs]].
  - apply sound_fresh.
  - by eapply sound_executeCommand.
  - by eapply sound_renderImage.
  - destruct (sound_expandCanvas h b c Hs) as (c' & ? & _). by exists c'.
Qed.

(** C9. A Clear command erases nothing: on every board of a session it
    keeps the size of the bitmap and every pixel outside the region of the
    divider; what it does is stroke one dashed horizontal line from x = 40
    to x = 760 at the cursor, and move the cursor down by 50 + 30. *)
Theorem clear_keeps_content (b : Board) :
  reachable b ->
  let after := executeCommand Clear b in
  exists c c' ctx,
    canvas b = Some c /\ canvas after = Some c'
    /\ width c' = width c /\ height c' = height c
    /\ (forall x y, ~ divider_region (currentY b) x y ->
                    raster c' x y = raster c x y)
    /\ calls after = calls b ++ [Paint (divider ctx (currentY b))]
    /\ lineDash ctx = [10; 10] /\ lineWidth ctx = 1
    /\ currentY after = currentY b + (50 + CONTENT_PADDING)
    /\ itemCount after = itemCount b.
Proof.
  intros [c Hs]%reachable_sound after. pose proof Hs as [Hc H2 Hw Hh Hsh Ho].
  unfold after. rewrite (executeCommand_Clear _ _ Hc H2).
  exists c. eexists _, (clear_context (context c)).
  split; [done|]. split; [reflexivity|]. split; [done|]. split; [done|].
  split; [|by repeat split].
  intros x y Hout. cbn [raster paint_all fold_left]. unfold composite.
  apply over_transparent. apply hline_local; [|exact Hout].
  unfold clear_context. shadow_kept.
Qed.

(** *** Growth *)

Lemma Qmax_keep x y : y <= x -> Qmax x y = x.
Proof.
  intros Hle. unfold Qmax, GenericMinMax.gmax.
  destruct (Qcompare x y) eqn:E; try done.
  apply Qlt_alt in E. lra.
Qed.

Lemma Qmax_take x y : x < y -> Qmax x y = y.
Proof.
  intros Hlt. unfold Qmax, GenericMinMax.gmax.
  destruct (Qcompare x y) eqn:E; try done.
  - apply Qeq_alt in E. lra.
  - apply Qgt_alt in E. lra.
Qed.

Lemma canvasHeight_expandCanvas h b :
  ready b -> canvasHeight (expandCanvas h b) = Qmax (canvasHeight b) h.
Proof.
  intros (c & Hc & H2).
  destruct (Qlt_le_dec (canvasHeight b) h) as [Hlt|Hle].
  - rewrite (expandCanvas_grow h b c Hc H2 Hlt). by rewrite Qmax_take.
  - rewrite expandCanvas_noop by done. by rewrite Qmax_keep.
Qed.

Lemma expand_all_sound hs : forall b c,
  sound b c -> (forall img, loadsBack img = true) ->
  exists c', sound (expand_all hs b) c'
    /\ (height c <= height c')%Z
    /\ (forall x y, inside (width c) (height c) x y ->
                    raster c' x y = raster c x y)
    /\ canvasHeight (expand_all hs b) = fold_left Qmax hs (canvasHeight b).
Proof.
  induction hs as [|h hs IH]; intros b c Hs Hload.
  - exists c. split; [exact Hs|]. split; [lia|]. split; [done|reflexivity].
  - destruct (sound_expandCanvas h b c Hs) as (c1 & Hs1 & Hle1 & _ & Hkeep1).
    destruct (IH _ _ Hs1 Hload) as (c' & Hs' & Hle' & Hkeep' & Hmax).
    exists c'. split; [done|]. split; [lia|]. split.
    + intros x y Hin. rewrite Hkeep', Hkeep1; try done.
      destruct Hs, Hs1, Hin. split; [congruence|lia].
    + change (expand_all (h :: hs) b) with (expand_all hs (expandCanvas h b)).
      rewrite Hmax, canvasHeight_expandCanvas; [done|].
      destruct Hs. by eexists.
Qed.

(** C4, as the code has it. A growth request that does not exceed the
    current height changes nothing but the record of the request; a larger
    one takes a snapshot, resizes the bitmap, repaints the background and
    draws the snapshot back at the origin. After any sequence of requests,
    served one after the other with each snapshot loading back, the height
    is the largest of the height before and the heights requested, and
    every pixel the bitmap had before is where it was. *)
Theorem growth_keeps_content (b : Board) (hs : list Q) :
  reachable b -> (forall img, loadsBack img = true) ->
  let after := expand_all hs b in
  canvasHeight after = fold_left Qmax hs (canvasHeight b)
  /\ (exists c c',
        canvas b = Some c /\ canvas after = Some c'
        /\ width c' = width c
        /\ height c' = Qfloor (canvasHeight after)
        /\ (height c <= height c')%Z
        /\ forall x y, inside (width c) (height c) x y ->
                       raster c' x y = raster c x y)
  /\ (forall h, h <= canvasHeight b -> expandCanvas h b = called (Expand h) b)
  /\ (forall h c, canvas b = Some c -> canvasHeight b < h ->
        expandCanvas h b
        = mkBoard (Some (grown_canvas h c)) (currentY b) h (renderedHashes b)
                  (itemCount b) false (calls b ++ growth_calls h c)).
Proof.
  intros [c Hs]%reachable_sound Hload after.
  destruct (expand_all_sound hs b c Hs Hload) as (c' & Hs' & Hle & Hkeep & Hmax).
  split; [done|]. split; [|split].
  - exists c, c'. destruct Hs, Hs'. repeat split; try done; congruence.
  - intros h Hle'. by apply expandCanvas_noop.
  - intros h c0 Hc0 Hlt. apply expandCanvas_grow; try done.
    destruct Hs. congruence.
Qed.

End WithHost.

(** *** The box host keeps the laws *)

Lemma box_host_laws : HostLaws box_host.
Proof.
  split.
  - intros s d Hs. cbn. unfold box_over. by rewrite Hs.
  - intros s d Hs. cbn. unfold box_over. by rewrite Hs.
  - intros s d Hd. cbn. unfold box_over.
    destruct (alpha s =? 0)%Z eqn:E0; [done|].
    destruct (alpha s =? 255)%Z eqn:E1; [by apply Z.eqb_eq in E1|done].
  - reflexivity.
  - intros ctx w h x y _ _ [[Hx0 Hx1] [Hy0 Hy1]]. cbn. unfold covers.
    assert (Qle_bool 0 (inject_Z x) = true) as ->
      by (apply Qle_bool_iff; unfold Qle; simpl; lia).
    assert (Qle_bool (inject_Z x + 1) (0 + inject_Z w) = true) as ->
      by (apply Qle_bool_iff; unfold Qle; simpl; lia).
    assert (Qle_bool 0 (inject_Z y) = true) as ->
      by (apply Qle_bool_iff; unfold Qle; simpl; lia).
    assert (Qle_bool (inject_Z y + 1) (0 + inject_Z h) = true) as ->
      by (apply Qle_bool_iff; unfold Qle; simpl; lia).
    reflexivity.
  - intros ctx img x y _ [[Hx0 Hx1] [Hy0 Hy1]]. cbn.
    change (Qfloor 0) with 0%Z. rewrite !Z.sub_0_r.
    assert ((0 <=? x)%Z = true) as -> by lia.
    assert ((x <? bm_width img)%Z = true) as -> by lia.
    assert ((0 <=? y)%Z = true) as -> by lia.
    assert ((y <? bm_height img)%Z = true) as -> by lia.
    reflexivity.
  - intros ctx x1 x2 y px py _ Hout. cbn.
    destruct (touches x1 x2 y (lineWidth ctx) px py) eqn:Ht;
      [|by rewrite andb_false_r].
    exfalso. apply Hout. unfold touches in Ht.
    repeat (apply andb_true_iff in Ht as [Ht ?]).
    repeat match goal with
    | H : negb (Qle_bool _ _) = true |- _ =>
      apply negb_true_iff, not_true_iff_false in H;
      rewrite Qle_bool_iff in H; apply Qnot_le_lt in H
    end.
    by repeat split.
Qed.

(** *** The properties on the box host *)



Lemma duplicate_write_leaves_gap_witness :
  Write Examples.f_ma ∈ [Write Examples.f_ma; Clear]
  /\ @text_hash box_host (w_text Examples.f_ma)
     = @text_hash box_host (w_text Examples.f_ma_again)
  /\ itemCount (@execute_all box_host Examples.twice (@fresh box_host)) = 1%nat
  /\ currentY (@execute_all box_host Examples.twice (@fresh box_host))
     == 80 + 63.6 + 80 + 72.
Proof.
  assert (Write Examples.f_ma ∈ [Write Examples.f_ma; Clear]) as Hin
    by apply list_elem_of_here.
  assert (@text_hash box_host (w_text Examples.f_ma)
          = @text_hash box_host (w_text Examples.f_ma_again)) as Hsame
    by by vm_compute.
  split; [done|]. split; [done|].
  destruct (@duplicate_write_leaves_gap box_host [Write Examples.f_ma; Clear]
              Examples.f_ma Examples.f_ma_again Hin Hsame)
    as (_ & _ & _ & Hn & _ & Hy).
  change (@execute_all box_host Examples.twice (@fresh box_host))
    with (@executeCommand box_host (Write Examples.f_ma_again)
            (@execute_all box_host [Write Examples.f_ma; Clear]
                          (@fresh box_host))).
  rewrite Hn, Hy. clear. split; vm_compute; reflexivity.
Defined.

Lemma clear_keeps_content_witness :
  @reachable box_host (@fresh box_host)
  /\ currentY (@executeCommand box_host Clear (@fresh box_host)) == 160
  /\ exists c c',
       canvas (@fresh box_host) = Some c
       /\ canvas (@executeCommand box_host Clear (@fresh box_host)) = Some c'
       /\ raster c' 100%Z 300%Z = raster c 100%Z 300%Z.
Proof.
  split; [apply reach_fresh|].
  destruct (@clear_keeps_content box_host box_host_laws (@fresh box_host)
              (@reach_fresh box_host))
    as (c & c' & ctx & Hc & Hc' & _ & _ & Hkeep & _ & _ & _ & Hy & _).
  split; [rewrite Hy; by vm_compute|].
  exists c, c'. split; [done|]. split; [done|]. apply Hkeep.
  intros (_ & _ & _ & Hbelow). vm_compute in Hbelow. discriminate.
Defined.

Lemma growth_keeps_content_witness :
  @reachable box_host (@fresh box_host)
  /\ (forall img, @loadsBack box_host img = true)
  /\ canvasHeight (@expand_all box_host [500; 1200; 1000] (@fresh box_host))
     == 1200
  /\ exists c c',
       canvas (@fresh box_host) = Some c
       /\ canvas (@expand_all box_host [500; 1200; 1000] (@fresh box_host))
          = Some c'
       /\ height c' = 1200%Z
       /\ raster c' 10%Z 10%Z = raster c 10%Z 10%Z.
Proof.
  split; [apply reach_fresh|]. split; [done|].
  destruct (@growth_keeps_content box_host box_host_laws (@fresh box_host)
              [500; 1200; 1000] (@reach_fresh box_host) (fun _ => eq_refl))
    as (Hmax & (c & c' & Hc & Hc' & _ & Hh & _ & Hkeep) & _).
  split; [rewrite Hmax; by vm_compute|].
  exists c, c'. split; [done|]. split; [done|]. split.
  - rewrite Hh, Hmax. by vm_compute.
  - apply Hkeep. rewrite fresh_spec in Hc. injection Hc as <-.
    cbn [width height]. unfold inside, CANVAS_WIDTH, MIN_CANVAS_HEIGHT. lia.
Defined.

(** C4, the claim as it stands: a single request of 500 on the surface of
    a fresh board leaves its height at 800, not at the height requested. *)
Lemma growth_below_initial_height :
  canvasHeight (@expand_all box_host [500] (@fresh box_host)) == 800
  /\ ~ canvasHeight (@expand_all box_host [500] (@fresh box_host)) == 500.
Proof. split; by vm_compute. Qed.



End WhiteboardFacts.

(** ** The audio transport bridge *)

Module AudioFacts.
Import JS Audio.
Local Open Scope Q_scope.

(** *** Playback *)

Lemma max_keep x y : y <= x -> Qmax x y = x.
Proof.
  intros Hle. unfold Qmax, GenericMinMax.gmax.
  destruct (Qcompare x y) eqn:E; try done.
  apply Qlt_alt in E. lra.
Qed.

Lemma max_bounds x y : x <= Qmax x y /\ y <= Qmax x y.
Proof.
  unfold Qmax, GenericMinMax.gmax.
  destruct (Qcompare x y) eqn:E.
  - apply Qeq_alt in E. lra.
  - apply Qlt_alt in E. lra.
  - apply Qgt_alt in E. lra.
Qed.

(** A chunk that decodes is scheduled at the later of the pending start
    time and the clock, and moves the pending start time to its end. *)
Lemma play_chunk t c d st :
  chunk_duration c = Some d ->
  exists audioBuffer,
    duration audioBuffer = d /\
    play t c st =
    Returns (mkPlayer (Qmax (nextStartTime st) t + d)
               (sources st
                ++ [mkSource (created st) audioBuffer
                             (Qmax (nextStartTime st) t)])
               (scheduled st
                ++ [mkSource (created st) audioBuffer
                             (Qmax (nextStartTime st) t)])
               (S (created st)) (outputTranscript st)).
Proof.
  unfold chunk_duration, play. destruct c as [|u c]; [done|].
  destruct (decode (u :: c)) as [bytes|]; [|done].
  destruct (decodeAudioData bytes 24000) as [audioBuffer|]; [|done].
  intros [= <-]. by exists audioBuffer.
Qed.

Lemma playback_cons a arrivals st :
  playback (a :: arrivals) st
  = playback arrivals (onmessage (fst a) (mkMessage (snd a) false) st).
Proof. reflexivity. Qed.

Lemma playback_sources arrivals : forall ds st,
  Forall2 (fun a d => chunk_duration (snd a) = Some d) arrivals ds ->
  exists new,
    sources (playback arrivals st) = sources st ++ new
    /\ scheduled (playback arrivals st) = scheduled st ++ new
    /\ (fun s => duration (buffer s)) <$> new = ds
    /\ startedAt <$> new = starts (nextStartTime st) (fst <$> arrivals) ds
    /\ nextStartTime (playback arrivals st)
       = fold_left (fun next td => Qmax next (fst td) + snd td)
                   (zip (fst <$> arrivals) ds) (nextStartTime st).
Proof.
  induction arrivals as [|[t c] arrivals IH]; intros ds st Hds.
  - apply Forall2_nil_inv_l in Hds as ->. exists [].
    by rewrite !app_nil_r.
  - apply Forall2_cons_inv_l in Hds as (d & ds' & Hd & Hds & ->).
    cbn [snd] in Hd. rewrite playback_cons. cbn [fst snd].
    destruct (play_chunk t c d st Hd) as (buf & Hbuf & Hplay).
    unfold onmessage. cbn [inlineData interruptedFlag]. rewrite Hplay.
    match goal with
    | |- context [playback arrivals ?s] =>
      destruct (IH ds' s Hds) as (new & Hs & Hsch & Hdur & Hst & Hnext)
    end.
    cbn [sources scheduled nextStartTime] in Hs, Hsch, Hst, Hnext.
    eexists (_ :: new). rewrite Hs, Hsch, <- !app_assoc.
    split; [reflexivity|]. split; [reflexivity|].
    cbn [fmap list_fmap buffer startedAt starts zip zip_with fold_left fst snd].
    split; [by rewrite Hbuf, <- Hdur|]. split; [by rewrite <- Hst|done].
Qed.

(** Chunks never overlap: a chunk starts no earlier than the one before it
    ends. *)
Lemma starts_apart ts : forall ds next k s d s',
  starts next ts ds !! k = Some s -> ds !! k = Some d ->
  starts next ts ds !! S k = Some s' -> s + d <= s'.
Proof.
  induction ts as [|t ts IH]; intros [|d0 ds] next k s d s'; try done.
  destruct k as [|k]; cbn [starts].
  - intros [= <-] [= <-]. destruct ts as [|t1 ts], ds as [|d1 ds]; try done.
    cbn [starts]. intros [= <-]. apply max_bounds.
  - intros Hs Hd Hs'. by eapply IH.
Qed.

(** Chunks that each arrive before the one before them has ended play back
    to back: the start of the n-th is the start of the first plus the
    durations in between. *)
Lemma starts_back_to_back ts : forall ds next,
  (forall k t s d, ts !! S k = Some t -> starts next ts ds !! k = Some s ->
                   ds !! k = Some d -> t <= s + d) ->
  forall n s0 s,
  starts next ts ds !! 0%nat = Some s0 -> starts next ts ds !! n = Some s ->
  s == s0 + total (take n ds).
Proof.
  induction ts as [|t ts IH]; intros [|d0 ds] next Hon n s0 s; try done.
  cbn [starts]. intros [= <-]. destruct n as [|n].
  - intros [= <-]. change (total (take 0 (d0 :: ds))) with 0. lra.
  - change ((Qmax next t :: starts (Qmax next t + d0) ts ds) !! S n)
      with (starts (Qmax next t + d0) ts ds !! n).
    intros Hs. destruct ts as [|t1 ts], ds as [|d1 ds]; try done.
    assert (t1 <= Qmax next t + d0) as Ht1 by by apply (Hon 0%nat).
    assert (s == Qmax (Qmax next t + d0) t1 + total (take n (d1 :: ds)))
      as ->.
    { eapply IH; [|reflexivity|exact Hs].
      intros k t' s' d' Ht' Hs' Hd'. by apply (Hon (S k)). }
    rewrite (max_keep _ _ Ht1).
    change (total (take (S n) (d0 :: d1 :: ds)))
      with (d0 + total (take n (d1 :: ds))).
    lra.
Qed.

(** C3, as the code has it. Each chunk is scheduled at the later of the
    pending start time and the clock, and the pending start time then moves
    by exactly the duration of the chunk. Over a run of chunks without
    interruption no chunk starts before the one before it has ended; and
    when every chunk arrives before the one before it has ended, the n-th
    chunk starts at the start of the first plus the durations of the
    chunks before it. *)
Theorem playback_schedule (st : Player) (arrivals : list (Q * jsstring))
  (ds : list Q) :
  Forall2 (fun a d => chunk_duration (snd a) = Some d) arrivals ds ->
  let ts := fst <$> arrivals in
  let after := playback arrivals st in
  (forall t c d st0, chunk_duration c = Some d ->
     let st1 := onmessage t (mkMessage c false) st0 in
     nextStartTime st1 = Qmax (nextStartTime st0) t + d
     /\ exists src, sources st1 = sources st0 ++ [src]
                    /\ startedAt src = Qmax (nextStartTime st0) t
                    /\ duration (buffer src) = d)
  /\ exists new,
       sources after = sources st ++ new
       /\ (fun s => duration (buffer s)) <$> new = ds
       /\ startedAt <$> new = starts (nextStartTime st) ts ds
       /\ (forall k s d s',
             (startedAt <$> new) !! k = Some s -> ds !! k = Some d ->
             (startedAt <$> new) !! S k = Some s' -> s + d <= s')
       /\ ((forall k t s d,
              ts !! S k = Some t -> (startedAt <$> new) !! k = Some s ->
              ds !! k = Some d -> t <= s + d) ->
           forall n s0 s,
             (startedAt <$> new) !! 0%nat = Some s0 ->
             (startedAt <$> new) !! n = Some s ->
             s == s0 + total (take n ds)).
Proof.
  intros Hds ts after. split.
  - intros t c d st0 Hd st1. unfold st1, onmessage.
    cbn [inlineData interruptedFlag].
    destruct (play_chunk t c d st0 Hd) as (buf & Hbuf & ->).
    cbn [nextStartTime sources]. split; [done|]. by eexists.
  - destruct (playback_sources arrivals ds st Hds)
      as (new & Hs & _ & Hdur & Hst & _).
    exists new. split; [done|]. split; [done|]. split; [done|].
    rewrite Hst. split.
    + apply starts_apart.
    + apply starts_back_to_back.
Qed.

(** C3, the claim as it stands: on a player that has played nothing, a
    first chunk that arrives when the clock reads 5 starts at 5, not at the
    sum of the durations before it, which is 0; and a second chunk that
    arrives at 3, long after the first has ended, starts at 3, three
    seconds after the end of the first. *)
Lemma playback_starts_at_the_clock :
  startedAt <$> sources (playback [(5, hush)] silent) = [5]
  /\ ~ 5 == total (take 0 [3 / 24000])
  /\ startedAt <$> sources (playback [(0, hush); (3, hush)] silent) = [0; 3]
  /\ (fun s => duration (buffer s))
       <$> sources (playback [(0, hush); (3, hush)] silent)
     = [3 / 24000; 3 / 24000]
  /\ ~ 3 == total (take 1 [3 / 24000; 3 / 24000]).
Proof. repeat split; by vm_compute. Qed.

Lemma playback_schedule_witness :
  Forall2 (fun a d => chunk_duration (snd a) = Some d)
          [(5, hush); (5, hush)] [3 / 24000; 3 / 24000]
  /\ exists new,
       sources (playback [(5, hush); (5, hush)] silent) = new
       /\ startedAt <$> new = [5; 5 + 3 / 24000].
Proof.
  assert (Forall2 (fun a d => chunk_duration (snd a) = Some d)
            [(5, hush); (5, hush)] [3 / 24000; 3 / 24000]) as Hds
    by (repeat constructor; by vm_compute).
  split; [exact Hds|].
  destruct (playback_schedule silent _ _ Hds)
    as (_ & new & Hs & _ & Hst & _).
  exists new. split; [exact Hs|]. rewrite Hst. by vm_compute.
Defined.

(** *** Interruption *)

Lemma stop_each_all l : forall sch,
  (forall x, In x sch -> exists s, In s l /\ node s = node x) ->
  stop_each l sch = [].
Proof.
  induction l as [|s l IH]; intros sch Hall.
  - destruct sch as [|x sch]; [done|].
    destruct (Hall x) as (? & [] & _). by left.
  - cbn [stop_each fold_left]. apply IH. intros x Hx.
    apply filter_In in Hx as [Hx Hne].
    destruct (Hall x Hx) as (s' & [<-|Hs'] & Hn); [|by exists s'].
    apply negb_true_iff, Nat.eqb_neq in Hne. congruence.
Qed.





(** *** Base64 *)

Ltac Zify.zify_post_hook ::= Z.to_euclidean_division_equations.

Lemma b64val_b64char n : (n < 64)%N -> b64val (b64char n) = Some n.
Proof.
  intros Hn. rewrite <- (N2Nat.id n).
  assert (N.to_nat n < 64)%nat as Hk by lia.
  revert Hk. generalize (N.to_nat n). intros k Hk.
  do 64 (destruct k as [|k]; [by vm_compute|]). lia.
Qed.

(** The characters of the alphabet: none is white space or padding. *)
Lemma b64char_range n :
  let c := b64char n in
  (c = 43 \/ c = 47 \/ 48 <= c <= 57 \/ 65 <= c <= 90 \/ 97 <= c <= 122)%N.
Proof.
  unfold b64char.
  destruct (N.ltb_spec n 26); [lia|].
  destruct (N.ltb_spec n 52); [lia|].
  destruct (N.ltb_spec n 62); [lia|].
  destruct (N.eqb_spec n 62); lia.
Qed.

Lemma b64char_no_space n : isAsciiWhitespace (b64char n) = false.
Proof.
  pose proof (b64char_range n) as Hc. cbv zeta in Hc.
  unfold isAsciiWhitespace. rewrite !orb_false_iff.
  repeat split; apply N.eqb_neq; lia.
Qed.

Lemma b64char_no_pad n : (b64char n =? pad)%N = false.
Proof.
  pose proof (b64char_range n) as Hc. cbv zeta in Hc.
  unfold pad. apply N.eqb_neq. lia.
Qed.

(** Induction three bytes at a time. *)
Lemma triples_ind (P : list N -> Prop) :
  P [] -> (forall a, P [a]) -> (forall a b, P [a; b]) ->
  (forall a b c rest, P rest -> P (a :: b :: c :: rest)) ->
  forall l, P l.
Proof.
  intros H0 H1 H2 H3 l.
  assert (P l /\ (forall a, P (a :: l)) /\ forall a b, P (a :: b :: l))
    as [? _]; [|done].
  induction l as [|c l (IH0 & IH1 & IH2)]; [by repeat split|].
  repeat split; [apply IH1|intros; apply IH2|intros; by apply H3].
Qed.

Lemma btoa_groups_sextets s :
  btoa_groups s = List.map b64char (sextets_of s) ++ padding_of s.
Proof.
  induction s as [|a|a b|a b c rest IH] using triples_ind; try reflexivity.
  cbn [btoa_groups sextets_of padding_of List.map app]. by rewrite IH.
Qed.

Lemma sextets_of_bound s :
  Forall (fun b => (b < 256)%N) s -> Forall (fun v => (v < 64)%N) (sextets_of s).
Proof.
  induction s as [|a|a b|a b c rest IH] using triples_ind;
    cbn [sextets_of]; intros Hs.
  - constructor.
  - apply Forall_cons in Hs as [? _]. repeat constructor; lia.
  - apply Forall_cons in Hs as [? Hs]. apply Forall_cons in Hs as [? _].
    repeat constructor; lia.
  - apply Forall_cons in Hs as [? Hs]. apply Forall_cons in Hs as [? Hs].
    apply Forall_cons in Hs as [? Hs].
    repeat (constructor; [lia|]). by apply IH.
Qed.

Lemma atob_groups_sextets s :
  Forall (fun b => (b < 256)%N) s -> atob_groups (sextets_of s) = s.
Proof.
  induction s as [|a|a b|a b c rest IH] using triples_ind;
    cbn [sextets_of atob_groups]; intros Hs.
  - done.
  - apply Forall_cons in Hs as [? _]. f_equal. lia.
  - apply Forall_cons in Hs as [? Hs]. apply Forall_cons in Hs as [? _].
    f_equal; [lia|]. f_equal. lia.
  - apply Forall_cons in Hs as [? Hs]. apply Forall_cons in Hs as [? Hs].
    apply Forall_cons in Hs as [? Hs].
    rewrite IH by done. f_equal; [lia|]. f_equal; [lia|]. f_equal. lia.
Qed.

Lemma sextets_b64char vs :
  Forall (fun v => (v < 64)%N) vs -> sextets (List.map b64char vs) = Some vs.
Proof.
  induction 1 as [|v vs Hv _ IH]; [done|].
  cbn [List.map sextets]. by rewrite b64val_b64char, IH.
Qed.

Lemma length_btoa s :
  (length (sextets_of s) + length (padding_of s)) mod 4 = 0%nat
  /\ length (sextets_of s) mod 4 <> 1%nat
  /\ (padding_of s = []
      \/ (padding_of s = [pad] \/ padding_of s = [pad; pad])
         /\ sextets_of s <> []).
Proof.
  induction s as [|a|a b|a b c rest (IH1 & IH2 & IH3)] using triples_ind;
    cbn [sextets_of padding_of length].
  - repeat split; auto.
  - repeat split; auto.
  - repeat split; auto.
  - split; [|split].
    + replace (S (S (S (S (length (sextets_of rest)))))
               + length (padding_of rest))%nat
        with (length (sextets_of rest) + length (padding_of rest) + 1 * 4)%nat
        by lia.
      by rewrite Nat.Div0.mod_add.
    + replace (S (S (S (S (length (sextets_of rest))))))
        with (length (sextets_of rest) + 1 * 4)%nat by lia.
      by rewrite Nat.Div0.mod_add.
    + destruct IH3 as [?|[? _]]; [by left|right]. by split.
Qed.

Lemma last_of_rev (X : list N) p r : rev X = p :: r -> In p X.
Proof.
  intros Hr. apply in_rev. rewrite Hr. by left.
Qed.

(** Padding, and nothing else, comes off the end of an encoding. *)
Lemma strip_padding_encoding (X tail : list N) :
  Forall (fun c => (c =? pad)%N = false) X ->
  (length (X ++ tail) mod 4 = 0)%nat ->
  tail = [] \/ (tail = [pad] \/ tail = [pad; pad]) /\ X <> [] ->
  strip_padding (X ++ tail) = X.
Proof.
  intros HX Hlen Htail. unfold strip_padding.
  apply Nat.eqb_eq in Hlen as ->.
  destruct Htail as [->|[[-> | ->] Hne]].
  - rewrite app_nil_r. destruct (rev X) as [|p1 [|p2 r]] eqn:Hr; try done.
    apply last_of_rev in Hr. rewrite List.Forall_forall in HX.
    by rewrite (HX p1 Hr).
  - rewrite rev_app_distr. cbn [rev app].
    destruct (rev X) as [|p2 r] eqn:Hr.
    { destruct X; [done|]. apply (f_equal (@length _)) in Hr.
      rewrite length_rev in Hr. done. }
    change ((pad =? pad)%N) with true. cbv iota.
    pose proof (last_of_rev _ _ _ Hr) as Hin. rewrite List.Forall_forall in HX.
    rewrite (HX p2 Hin). rewrite <- (rev_involutive X), Hr. reflexivity.
  - rewrite rev_app_distr. cbn [rev app].
    change ((pad =? pad)%N) with true. cbv iota.
    by rewrite rev_involutive.
Qed.

Lemma filter_all {A} (P : A -> Prop) `{forall x, Decision (P x)} (l : list A) :
  Forall P l -> filter P l = l.
Proof.
  induction 1 as [|x l Hx _ IH]; [done|].
  by rewrite filter_cons_True, IH.
Qed.

(** [atob] undoes [btoa]. *)
Lemma atob_btoa_groups s :
  Forall (fun b => (b < 256)%N) s -> atob (btoa_groups s) = Some s.
Proof.
  intros Hs. unfold atob. rewrite btoa_groups_sextets.
  destruct (length_btoa s) as (Hlen & Hne1 & Hpad).
  rewrite filter_all.
  2:{ apply Forall_app. split.
      - apply List.Forall_forall. intros c (n & <- & _)%in_map_iff.
        apply b64char_no_space.
      - destruct Hpad as [->|[[-> | ->] _]]; by repeat constructor. }
  rewrite strip_padding_encoding.
  - rewrite length_map.
    destruct (Nat.eqb_spec (length (sextets_of s) mod 4) 1); [done|].
    rewrite sextets_b64char by by apply sextets_of_bound.
    by rewrite atob_groups_sextets.
  - apply List.Forall_forall. intros c (n & <- & _)%in_map_iff.
    apply b64char_no_pad.
  - by rewrite length_app, length_map.
  - destruct Hpad as [?|[? Hne]]; [by left|right]. split; [done|].
    by destruct (sextets_of s).
Qed.

Lemma encode_spec bytes :
  Forall (fun b => (b < 256)%N) bytes -> encode bytes = Some (btoa_groups bytes).
Proof.
  intros Hb. unfold encode.
  assert (forall acc, fold_left (fun acc b => acc ++ [b]) bytes acc
                      = acc ++ bytes) as ->.
  { induction bytes as [|b bytes IH]; intros acc; cbn [fold_left].
    - by rewrite app_nil_r.
    - rewrite IH by by apply Forall_inv_tail in Hb.
      by rewrite <- app_assoc. }
  cbn [app]. unfold btoa.
  assert (forallb (fun c => (c <=? 255)%N) bytes = true) as ->; [|done].
  apply forallb_forall. rewrite List.Forall_forall in Hb.
  intros c Hc. apply N.leb_le. specialize (Hb c Hc). lia.
Qed.

(** [decode] undoes [encode]. *)
Lemma decode_encode bytes payload :
  Forall (fun b => (b < 256)%N) bytes ->
  encode bytes = Some payload -> decode payload = Some bytes.
Proof.
  intros Hb. rewrite encode_spec by done. intros [= <-].
  unfold decode. rewrite atob_btoa_groups by done. f_equal.
  induction Hb as [|b bytes Hlt _ IH]; [done|].
  cbn [List.map]. rewrite IH. f_equal. by apply N.mod_small.
Qed.

(** *** Capture *)

Lemma ToInt16_range s : (-32768 <= ToInt16 s <= 32767)%Z.
Proof.
  destruct s as [v|]; cbn [ToInt16]; [|lia].
  destruct (Z.leb_spec 32768 (truncate v mod 65536)); lia.
Qed.

(** A sample in [-1, 1) is scaled and truncated, without wrap-around. *)
Lemma ToInt16_scale v :
  -1 <= v -> v < 1 -> ToInt16 (scale (Finite v)) = truncate (v * 32768).
Proof.
  intros Hlo Hhi. cbn [scale ToInt16].
  assert (-32768 <= truncate (v * 32768) <= 32767)%Z as Hr.
  { destruct v as [n dd]. unfold Qle, Qlt in Hlo, Hhi.
    cbn [Qnum Qden] in Hlo, Hhi.
    change (truncate ((n # dd) * 32768))
      with (Z.quot (n * 32768) (Z.pos (dd * 1))).
    rewrite Pos.mul_1_r.
    pose proof (Z.quot_rem' (n * 32768) (Z.pos dd)) as Hqr.
    pose proof (Z.rem_bound_pos (n * 32768) (Z.pos dd)) as Hpos.
    pose proof (Z.rem_bound_pos_neg (n * 32768) (Z.pos dd)) as Hneg.
    revert Hqr Hpos Hneg.
    generalize (Z.rem (n * 32768) (Z.pos dd)).
    generalize (Z.quot (n * 32768) (Z.pos dd)). intros t r Hqr Hpos Hneg.
    assert (0 < Z.pos dd)%Z as HD by lia.
    destruct (Z.le_gt_cases 0 n).
    - specialize (Hpos ltac:(lia) HD). clear Hneg. split; nia.
    - specialize (Hneg HD ltac:(lia)). clear Hpos. split; nia. }
  destruct (Z.leb_spec 32768 (truncate (v * 32768) mod 65536)); lia.
Qed.

Lemma buffer_bytes_bound int16 :
  Forall (fun b => (b < 256)%N) (buffer_bytes int16).
Proof.
  unfold buffer_bytes. induction int16 as [|z l IH]; [constructor|].
  cbn [List.map concat int16_bytes app].
  repeat (constructor; [lia|]). exact IH.
Qed.

(** The byte view of an [Int16Array] reads back as the same integers. *)
Lemma Int16Array_of_buffer int16 :
  Forall (fun z => (-32768 <= z <= 32767)%Z) int16 ->
  Int16Array_of (buffer_bytes int16) = Some int16.
Proof.
  unfold buffer_bytes. induction 1 as [|z l Hz _ IH]; [done|].
  cbn [List.map concat int16_bytes app Int16Array_of]. rewrite IH.
  f_equal. f_equal.
  destruct (Z.leb_spec 32768
    (Z.of_N (Z.to_N (z mod 256)) + 256 * Z.of_N (Z.to_N ((z / 256) mod 256))));
    lia.
Qed.

(** C8. On each captured frame every sample is multiplied by 32768 and
    stored as a signed 16-bit integer (for a sample in [-1, 1) the product
    truncated toward zero), the bytes of these integers are Base64-encoded,
    an encoding that decodes back to the same bytes and integers, and the
    result is handed to the transport as one blob, when the session is
    marked active and there is a live session. A frame that arrives
    otherwise leaves everything as it was: it is not sent and not kept. *)
Theorem capture_frame (inputData : list Sample) (st : Capture) :
  let int16 := List.map (fun x => ToInt16 (scale x)) inputData in
  let after := onaudioprocess inputData st in
  Forall (fun z => (-32768 <= z <= 32767)%Z) int16
  /\ (forall i v, inputData !! i = Some (Finite v) -> -1 <= v -> v < 1 ->
                  int16 !! i = Some (truncate (v * 32768)))
  /\ (exists payload,
        encode (buffer_bytes int16) = Some payload
        /\ decode payload = Some (buffer_bytes int16)
        /\ Int16Array_of (buffer_bytes int16) = Some int16
        /\ forall live,
             isActive st = true -> session st = Some live ->
             after
             = if accepts live
               then mkCapture true (Some live)
                      (outbound st ++ [mkBlob payload PCM_16K]) (warned st)
               else mkCapture true (Some live) (outbound st) (S (warned st)))
  /\ (isActive st = false \/ session st = None -> after = st).
Proof.
  intros int16 after.
  assert (Forall (fun z => (-32768 <= z <= 32767)%Z) int16) as Hrange.
  { apply List.Forall_forall. intros z (s & <- & _)%in_map_iff.
    apply ToInt16_range. }
  split; [done|]. split; [|split].
  - intros i v Hi Hlo Hhi. unfold int16.
    change (List.map ?f ?l) with (f <$> l).
    by rewrite list_lookup_fmap, Hi, <- ToInt16_scale.
  - pose proof (encode_spec _ (buffer_bytes_bound int16)) as Henc.
    exists (btoa_groups (buffer_bytes int16)).
    split; [done|]. split; [|split].
    + by apply decode_encode; [apply buffer_bytes_bound|].
    + by apply Int16Array_of_buffer.
    + intros live Ha Hs. unfold after, onaudioprocess.
      rewrite Ha, Hs. fold int16. rewrite Henc.
      by destruct (accepts live).
  - intros Hoff. unfold after, onaudioprocess.
    destruct Hoff as [-> | ->]; [done|]. by destruct (isActive st).
Qed.

Lemma capture_frame_witness :
  let frame := [Finite 0.5; Finite (-0.25); Finite 0; NotFinite] in
  let live := mkCapture true (Some (mkSession true)) [] 0 in
  let stopped := mkCapture false (Some (mkSession true)) [] 0 in
  outbound (onaudioprocess frame live)
  = [mkBlob (str "AEAA4AAAAAA=") PCM_16K]
  /\ onaudioprocess frame stopped = stopped.
Proof.
  intros frame live stopped.
  destruct (capture_frame frame live) as (_ & _ & (payload & He & _ & _ & Hs) & _).
  destruct (capture_frame frame stopped) as (_ & _ & _ & Hoff).
  split.
  - rewrite (Hs (mkSession true) eq_refl eq_refl). cbn [accepts outbound app].
    assert (payload = str "AEAA4AAAAAA=") as ->; [|done].
    apply (inj Some). rewrite <- He. by vm_compute.
  - apply Hoff. by left.
Defined.

End AudioFacts.

(** ** The codec of the audio transport *)

Module CodecFacts.
Import JS Audio AudioFacts.
Local Open Scope Q_scope.

(** *** Base64 *)

Lemma length_btoa_groups s :
  length (btoa_groups s) = (4 * ((length s + 2) / 3))%nat.
Proof.
  induction s as [|a|a b|a b c rest IH] using triples_ind; try reflexivity.
  cbn [btoa_groups length]. rewrite IH.
  replace (S (S (S (length rest))) + 2)%nat
    with ((length rest + 2) + 1 * 3)%nat by lia.
  rewrite Nat.div_add by lia. lia.
Qed.

Lemma padding_of_pads s : Forall (fun c => c = pad) (padding_of s).
Proof.
  induction s as [|a|a b|a b c rest IH] using triples_ind;
    cbn [padding_of]; repeat constructor; done.
Qed.

Lemma btoa_groups_alphabet s :
  Forall (fun b => (b < 256)%N) s ->
  Forall (fun c => c = pad \/ is_Some (b64val c)) (btoa_groups s).
Proof.
  intros Hs. rewrite btoa_groups_sextets. apply Forall_app. split.
  - apply sextets_of_bound in Hs. rewrite List.Forall_forall in Hs.
    apply List.Forall_forall. intros c (v & <- & Hv)%in_map_iff. right.
    rewrite b64val_b64char by auto. by eexists.
  - eapply Forall_impl; [apply padding_of_pads|]. intros c ->. by left.
Qed.

(** X1. Every byte array is encoded, and decoding the text gives the
    bytes back; the text has four characters for every three bytes begun,
    each of the Base64 alphabet or the padding sign. *)
Theorem base64_round_trip (bytes : Uint8Array) :
  Forall (fun b => (b < 256)%N) bytes ->
  exists text,
    encode bytes = Some text
    /\ decode text = Some bytes
    /\ length text = (4 * ((length bytes + 2) / 3))%nat
    /\ Forall (fun c => c = pad \/ is_Some (b64val c)) text.
Proof.
  intros Hb. exists (btoa_groups bytes).
  pose proof (encode_spec bytes Hb) as He.
  split; [done|]. split; [by apply decode_encode|].
  split; [apply length_btoa_groups|by apply btoa_groups_alphabet].
Qed.

Lemma base64_round_trip_witness :
  Forall (fun b => (b < 256)%N) [72; 105; 255; 0]%N
  /\ encode [72; 105; 255; 0]%N = Some (str "SGn/AA==")
  /\ decode (str "SGn/AA==") = Some [72; 105; 255; 0]%N.
Proof.
  assert (Forall (fun b => (b < 256)%N) [72; 105; 255; 0]%N) as Hb
    by (repeat constructor; lia).
  split; [exact Hb|].
  destruct (base64_round_trip _ Hb) as (text & He & Hd & _).
  assert (text = str "SGn/AA==") as ->.
  { apply (inj Some). rewrite <- He. clear. vm_compute. reflexivity. }
  split; [exact He|exact Hd].
Defined.

(** *** What [decode] refuses *)

Lemma in_strip_padding c s : In c s -> c <> pad -> In c (strip_padding s).
Proof.
  intros Hin Hc. unfold strip_padding.
  destruct (length s mod 4 =? 0)%nat; [|done].
  destruct (rev s) as [|p1 [|p2 r]] eqn:Hr; try done.
  assert (s = rev r ++ [p2; p1]) as Hs.
  { rewrite <- (rev_involutive s), Hr. cbn [rev]. by rewrite <- app_assoc. }
  destruct (N.eqb_spec p1 pad) as [->|]; [|done].
  rewrite Hs in Hin. apply in_app_or in Hin as [Hin|Hin].
  - destruct (N.eqb_spec p2 pad) as [->|]; [done|].
    cbn [rev]. apply in_or_app. by left.
  - destruct Hin as [->|[Heq|[]]]; [|by symmetry in Heq].
    destruct (N.eqb_spec c pad) as [|_]; [done|].
    cbn [rev]. apply in_or_app. right. by left.
Qed.

Lemma sextets_invalid c s : In c s -> b64val c = None -> sextets s = None.
Proof.
  induction s as [|c' s IH]; [done|]. intros [->|Hin] Hv; cbn [sextets].
  - by rewrite Hv.
  - rewrite (IH Hin Hv). by destruct (b64val c').
Qed.

Lemma filter_filter_same (P : N -> bool) (s : list N) :
  filter (fun c => P c = false) (filter (fun c => P c = false) s)
  = filter (fun c => P c = false) s.
Proof.
  apply filter_all. apply List.Forall_forall. intros c Hc.
  apply list_elem_of_In, list_elem_of_filter in Hc. tauto.
Qed.

(** X2. [decode] throws on a text that holds a character which is neither
    of the alphabet, nor the padding sign, nor ASCII white space, and on a
    text whose length without white space is 1 modulo 4; white space is
    skipped, and the empty text decodes to no bytes. *)
Theorem decode_strict (base64 : jsstring) :
  (forall c, In c base64 -> isAsciiWhitespace c = false -> c <> pad ->
             b64val c = None -> decode base64 = None)
  /\ (let bare := filter (fun c => isAsciiWhitespace c = false) base64 in
      (length bare mod 4 = 1)%nat -> decode base64 = None)
  /\ decode (filter (fun c => isAsciiWhitespace c = false) base64)
     = decode base64
  /\ decode [] = Some [].
Proof.
  split; [|split; [|split]].
  - intros c Hin Hws Hpad Hv. unfold decode, atob.
    set (bare := filter _ base64).
    assert (In c bare) as Hbare.
    { apply list_elem_of_In, list_elem_of_filter. split; [done|].
      by apply list_elem_of_In. }
    rewrite (sextets_invalid c _ (in_strip_padding _ _ Hbare Hpad) Hv).
    by destruct (_ =? 1)%nat.
  - intros bare Hlen. unfold decode, atob. fold bare.
    assert (strip_padding bare = bare) as ->.
    { unfold strip_padding. rewrite Hlen. reflexivity. }
    by rewrite Hlen.
  - unfold decode, atob. by rewrite filter_filter_same.
  - reflexivity.
Qed.

Lemma decode_strict_witness :
  In 42%N (str "AB*D") /\ isAsciiWhitespace 42 = false /\ 42%N <> pad
  /\ b64val 42 = None /\ decode (str "AB*D") = None
  /\ decode (str "QU JD") = decode (str "QUJD").
Proof.
  assert (In 42%N (str "AB*D")) as Hin by (cbn; tauto).
  split; [exact Hin|]. split; [reflexivity|]. split; [done|].
  split; [reflexivity|].
  destruct (decode_strict (str "AB*D")) as (Hbad & _).
  split; [by apply (Hbad 42%N)|].
  destruct (decode_strict (str "QU JD")) as (_ & _ & Hws & _).
  rewrite <- Hws. reflexivity.
Defined.

(** *** PCM frames *)

Lemma pairs_ind (P : list N -> Prop) :
  P [] -> (forall a, P [a]) -> (forall a b rest, P rest -> P (a :: b :: rest)) ->
  forall l, P l.
Proof.
  intros H0 H1 H2.
  assert (forall l, P l /\ forall a, P (a :: l)) as H; [|intros l; apply H].
  induction l as [|b l [IH1 IH2]]; [by split|].
  split; [apply IH2|]. intros a. by apply H2.
Qed.

Lemma Int16Array_of_spec bytes :
  Forall (fun b => (b < 256)%N) bytes ->
  if Nat.even (length bytes)
  then exists l, Int16Array_of bytes = Some l
                 /\ length l = (length bytes / 2)%nat
                 /\ Forall (fun z => (-32768 <= z <= 32767)%Z) l
  else Int16Array_of bytes = None.
Proof.
  induction bytes as [|a|lo hi rest IH] using pairs_ind; intros Hb.
  - exists []. by repeat split.
  - reflexivity.
  - apply Forall_cons in Hb as [Hlo Hb]. apply Forall_cons in Hb as [Hhi Hb].
    specialize (IH Hb).
    change (Nat.even (length (lo :: hi :: rest)))
      with (Nat.even (length rest)).
    cbn [Int16Array_of].
    destruct (Nat.even (length rest)).
    + destruct IH as (l & -> & Hlen & Hl). eexists. split; [reflexivity|].
      split.
      * cbn [length]. rewrite Hlen.
        change (S (S (length rest))) with (1 * 2 + length rest)%nat.
        by rewrite Nat.div_add_l by lia.
      * constructor; [|done].
        destruct (Z.leb_spec 32768 (Z.of_N lo + 256 * Z.of_N hi)); lia.
    + by rewrite IH.
Qed.

(** X3. [decodeAudioData] on a byte array of even length (not empty: the
    audio context makes no buffer without frames) gives a buffer with one
    sample for every two bytes, each sample in [-1, 1), at the rate asked
    for; on an array of odd length the [Int16Array] view throws. *)
Theorem decodeAudioData_frames (bytes : Uint8Array) (rate : Q) :
  Forall (fun b => (b < 256)%N) bytes -> bytes <> [] ->
  (Nat.even (length bytes) = true ->
   exists buf,
     decodeAudioData bytes rate = Some buf
     /\ sampleRate buf = rate
     /\ length (channelData buf) = (length bytes / 2)%nat
     /\ Forall (fun v => -1 <= v /\ v < 1) (channelData buf)
     /\ duration buf == inject_Z (Z.of_nat (length bytes / 2)) / rate)
  /\ (Nat.even (length bytes) = false -> decodeAudioData bytes rate = None).
Proof.
  intros Hb _. pose proof (Int16Array_of_spec bytes Hb) as H.
  split; intros He; rewrite He in H; unfold decodeAudioData.
  - destruct H as (l & -> & Hlen & Hl). eexists. split; [reflexivity|].
    cbn [sampleRate channelData]. split; [done|].
    split; [by rewrite length_map|]. split.
    + apply List.Forall_forall. intros v (z & <- & Hz)%in_map_iff.
      rewrite List.Forall_forall in Hl. specialize (Hl z Hz).
      unfold Qle, Qlt, Qdiv, Qmult, Qinv, inject_Z. cbn. lia.
    + unfold duration. cbn [sampleRate channelData].
      by rewrite length_map, Hlen.
  - by rewrite H.
Qed.

Lemma decodeAudioData_frames_witness :
  Forall (fun b => (b < 256)%N) [0; 64; 0; 128]%N
  /\ [0; 64; 0; 128]%N <> []
  /\ Nat.even (length [0; 64; 0; 128]%N) = true
  /\ exists buf,
       decodeAudioData [0; 64; 0; 128]%N 24000 = Some buf
       /\ length (channelData buf) = 2%nat
       /\ duration buf == 2 / 24000.
Proof.
  assert (Forall (fun b => (b < 256)%N) [0; 64; 0; 128]%N) as Hb
    by (repeat constructor; lia).
  assert ([0; 64; 0; 128]%N <> []) as Hne by done.
  split; [exact Hb|]. split; [exact Hne|]. split; [reflexivity|].
  destruct (decodeAudioData_frames _ 24000 Hb Hne) as [Heven _].
  destruct (Heven eq_refl) as (buf & Hbuf & _ & Hlen & _ & Hdur).
  exists buf. split; [exact Hbuf|]. split; [exact Hlen|exact Hdur].
Defined.

(** *** From the microphone to the loudspeaker *)

Lemma truncate_close x :
  Qabs (inject_Z (truncate x) - x) < 1 /\ Qabs (inject_Z (truncate x)) <= Qabs x.
Proof.
  destruct x as [n d]. unfold truncate. cbn [Qnum Qden].
  pose proof (Z.quot_rem' n (Z.pos d)) as Hqr.
  pose proof (Z.rem_bound_pos n (Z.pos d)) as Hpos.
  pose proof (Z.rem_bound_pos_neg n (Z.pos d)) as Hneg.
  revert Hqr Hpos Hneg.
  generalize (Z.rem n (Z.pos d)). generalize (Z.quot n (Z.pos d)).
  intros q r Hqr Hpos Hneg.
  assert (0 < Z.pos d)%Z as HD by lia.
  split.
  - apply Qabs_Qlt_condition.
    unfold Qlt, Qminus, Qplus, Qopp, inject_Z. cbn.
    destruct (Z.le_gt_cases 0 n).
    + specialize (Hpos ltac:(lia) HD). split; nia.
    + specialize (Hneg HD ltac:(lia)). split; nia.
  - destruct (Z.le_gt_cases 0 n).
    + specialize (Hpos ltac:(lia) HD).
      assert (0 <= q)%Z by nia.
      rewrite !Qabs_pos by (unfold Qle, inject_Z; cbn; lia).
      unfold Qle, inject_Z. cbn. nia.
    + specialize (Hneg HD ltac:(lia)).
      assert (q <= 0)%Z by nia.
      rewrite !Qabs_neg by (unfold Qle, inject_Z; cbn; lia).
      unfold Qle, Qopp, inject_Z. cbn. nia.
Qed.

(** X4. What the microphone path sends is what the loudspeaker path
    reads: the payload of a captured frame (of at least one sample) decodes
    to a buffer with one sample for each sample captured, the stored
    integer over 32768; for a sample in [-1, 1) it differs from the sample
    by less than 1/32768 and is never larger in magnitude. *)
Theorem capture_playback_round_trip (inputData : list Sample) (rate : Q) :
  inputData <> [] ->
  let int16 := List.map (fun x => ToInt16 (scale x)) inputData in
  exists payload bytes buf,
    encode (buffer_bytes int16) = Some payload
    /\ decode payload = Some bytes
    /\ decodeAudioData bytes rate = Some buf
    /\ channelData buf = List.map (fun z => inject_Z z / 32768) int16
    /\ forall i v, inputData !! i = Some (Finite v) -> -1 <= v -> v < 1 ->
         exists v', channelData buf !! i = Some v'
                    /\ Qabs (v' - v) < 1 / 32768
                    /\ Qabs v' <= Qabs v.
Proof.
  intros _ int16.
  assert (Forall (fun z => (-32768 <= z <= 32767)%Z) int16) as Hrange.
  { apply List.Forall_forall. intros z (s & <- & _)%in_map_iff.
    apply ToInt16_range. }
  pose proof (encode_spec _ (buffer_bytes_bound int16)) as Henc.
  exists (btoa_groups (buffer_bytes int16)), (buffer_bytes int16).
  eexists. split; [done|].
  split; [by apply decode_encode; [apply buffer_bytes_bound|]|].
  unfold decodeAudioData. rewrite Int16Array_of_buffer by done.
  split; [reflexivity|]. cbn [channelData]. split; [reflexivity|].
  intros i v Hi Hlo Hhi.
  exists (inject_Z (truncate (v * 32768)) / 32768). split.
  - unfold int16. change (List.map ?f ?l) with (f <$> l).
    rewrite !list_lookup_fmap, Hi. cbn [fmap option_fmap option_map].
    by rewrite ToInt16_scale.
  - destruct (truncate_close (v * 32768)) as [Hc Hm].
    revert Hc Hm. generalize (inject_Z (truncate (v * 32768))). intros w Hc Hm.
    split.
    + assert (w / 32768 - v == (w - v * 32768) * (1 / 32768)) as -> by field.
      rewrite Qabs_Qmult. change (Qabs (1 / 32768)) with (1 # 32768).
      change (1 / 32768) with (1 # 32768).
      revert Hc. generalize (Qabs (w - v * 32768)). intros a Ha. lra.
    + unfold Qdiv. rewrite Qabs_Qmult in *.
      change (Qabs (/ 32768)) with (1 # 32768).
      change (Qabs 32768) with 32768 in Hm.
      revert Hm. generalize (Qabs w), (Qabs v). intros a b Hab. lra.
Qed.


Lemma capture_playback_round_trip_witness :
  [Finite 0.5] <> []
  /\ exists payload bytes buf,
    encode (buffer_bytes [ToInt16 (scale (Finite 0.5))]) = Some payload
    /\ decode payload = Some bytes
    /\ decodeAudioData bytes 24000 = Some buf
    /\ exists v', channelData buf !! 0%nat = Some v'
                  /\ Qabs (v' - 0.5) < 1 / 32768.
Proof.
  destruct (capture_playback_round_trip [Finite 0.5] 24000 ltac:(done))
    as (payload & bytes & buf & He & Hd & Hb & _ & Hq).
  split; [done|].
  exists payload, bytes, buf. split; [exact He|]. split; [exact Hd|].
  split; [exact Hb|].
  destruct (Hq 0%nat 0.5 eq_refl) as (v' & Hv & Hclose & _);
    [clear; by vm_compute..|].
  exists v'. split; [exact Hv|exact Hclose].
Defined.

End CodecFacts.

(** ** Scheduling over the life of a session *)

Module LifecycleFacts.
Import JS Audio AudioFacts Lifecycle.
Local Open Scope Q_scope.

(** *** How the audio branch can end *)

Lemma chunk_duration_nonneg c d : chunk_duration c = Some d -> 0 <= d.
Proof.
  unfold chunk_duration, decodeAudioData. destruct c; [done|].
  destruct (decode _); [|done]. destruct (Int16Array_of _); [|done].
  intros [= <-]. unfold duration. cbn [channelData sampleRate].
  unfold Qle, Qdiv, Qmult, Qinv, inject_Z. cbn. lia.
Qed.

Lemma play_throws t c st :
  c <> [] -> chunk_duration c = None ->
  play t c st
  = Throws (mkPlayer (Qmax (nextStartTime st) t) (sources st) (scheduled st)
                     (created st) (outputTranscript st)).
Proof.
  unfold play, chunk_duration. destruct c; [done|]. intros _.
  destruct (decode _); [|done]. by destruct (decodeAudioData _ _).
Qed.

Lemma one_bad_character c ch :
  In ch c -> isAsciiWhitespace ch = false -> ch <> pad -> b64val ch = None ->
  chunk_duration c = None.
Proof.
  intros Hin Hws Hpad Hv. unfold chunk_duration. destruct c; [done|].
  destruct (CodecFacts.decode_strict (n :: c)) as [Hbad _].
  by rewrite (Hbad ch).
Qed.

(** X5. A message whose audio chunk does not decode (it is no Base64, or
    it holds an odd number of bytes) makes the handler throw after the
    pending start time was raised to the clock: nothing is scheduled, and
    an interruption that the same message announces is not acted upon. *)
Theorem undecodable_chunk (t : Q) (c : jsstring) (flag : bool) (st : Player) :
  c <> [] -> chunk_duration c = None ->
  onmessage t (mkMessage c flag) st
  = mkPlayer (Qmax (nextStartTime st) t) (sources st) (scheduled st)
             (created st) (outputTranscript st).
Proof.
  intros Hc Hd. unfold onmessage. cbn [inlineData].
  by rewrite play_throws.
Qed.

Lemma undecodable_chunk_witness :
  str "AAA*" <> [] /\ chunk_duration (str "AAA*") = None
  /\ length (scheduled
       (onmessage 4 (mkMessage (str "AAA*") true) (playback [(2, hush)] silent)))
     = 1%nat
  /\ nextStartTime
       (onmessage 4 (mkMessage (str "AAA*") true) (playback [(2, hush)] silent))
     = Qmax (nextStartTime (playback [(2, hush)] silent)) 4.
Proof.
  assert (str "AAA*" <> []) as Hc by done.
  assert (chunk_duration (str "AAA*") = None) as Hd
    by (apply (one_bad_character _ 42%N); [cbn; tauto|done..]).
  split; [exact Hc|]. split; [exact Hd|].
  rewrite (undecodable_chunk 4 _ true (playback [(2, hush)] silent) Hc Hd).
  cbn [scheduled nextStartTime]. split; reflexivity.
Defined.

(** *** The invariant of the playback refs *)

Lemma apart_snoc l s :
  apart l -> (forall a, In a l -> before a s) -> apart (l ++ [s]).
Proof.
  induction l as [|x l IH]; cbn [apart app]; [by repeat split|].
  intros [Hx Hl] Hs. split.
  - apply Forall_app. split; [done|]. constructor; [|done].
    apply Hs. by left.
  - apply IH; [done|]. intros a Ha. apply Hs. by right.
Qed.

Lemma apart_other_than s l : apart l -> apart (other_than s l).
Proof.
  unfold other_than. induction l as [|x l IH]; [done|].
  cbn [apart List.filter]. intros [Hx Hl].
  destruct (negb _); [|by apply IH]. cbn [apart]. split; [|by apply IH].
  rewrite List.Forall_forall in Hx. apply List.Forall_forall.
  intros a Ha%filter_In. apply Hx, Ha.
Qed.

Lemma apart_lookup l : forall i j a b,
  apart l -> l !! i = Some a -> l !! j = Some b -> (i < j)%nat -> before a b.
Proof.
  induction l as [|x l IH]; [done|]. intros i j a b [Hx Hl] Hi Hj Hij.
  destruct j as [|j]; [lia|]. cbn in Hj. destruct i as [|i].
  - injection Hi as <-. rewrite List.Forall_forall in Hx. apply Hx.
    by eapply list_elem_of_In, list_elem_of_lookup_2.
  - cbn in Hi. apply (IH i j); [done..|lia].
Qed.

Lemma stop_each_self l : stop_each l l = [].
Proof. apply stop_each_all. intros x Hx. by exists x. Qed.

Lemma orderly_interrupted st :
  sources st = scheduled st -> orderly (interrupted st).
Proof.
  intros Hset. unfold interrupted. rewrite <- Hset, stop_each_self.
  split; cbn [sources scheduled nextStartTime created apart]; try done.
Qed.

Lemma orderly_onmessage t m st :
  orderly st -> 0 <= t -> orderly (onmessage t m st).
Proof.
  intros [Hset Hclock Hnodes Hapart] Ht. unfold onmessage.
  pose proof (max_bounds (nextStartTime st) t) as [Hm1 Hm2].
  destruct (inlineData m) as [|c0 c] eqn:Hc.
  { cbn [play]. destruct (interruptedFlag m);
      [by apply orderly_interrupted|by split]. }
  destruct (chunk_duration (c0 :: c)) as [d|] eqn:Hd.
  - destruct (play_chunk t _ d st Hd) as (buf & Hbuf & ->).
    pose proof (chunk_duration_nonneg _ _ Hd) as Hd0.
    destruct (interruptedFlag m).
    { apply orderly_interrupted. cbn [sources scheduled]. by rewrite Hset. }
    split; cbn [sources scheduled nextStartTime created].
    + by rewrite Hset.
    + lra.
    + intros s [Hs|[<-|[]]]%in_app_or.
      * destruct (Hnodes s Hs) as (Hn & H0 & He).
        split; [lia|]. split; [done|]. lra.
      * unfold endsAt. cbn [node startedAt buffer]. rewrite Hbuf.
        split; [lia|]. split; lra.
    + apply apart_snoc; [done|]. intros a Ha.
      destruct (Hnodes a Ha) as (Hn & H0 & He).
      split; cbn [node startedAt]; [done|]. lra.
  - rewrite play_throws by done.
    split; cbn [sources scheduled nextStartTime created]; try done.
    + lra.
    + intros s Hs. destruct (Hnodes s Hs) as (Hn & H0 & He).
      split; [done|]. split; [done|]. lra.
Qed.

Lemma orderly_ended s st : orderly st -> orderly (ended s st).
Proof.
  intros [Hset Hclock Hnodes Hapart]. unfold ended.
  split; cbn [sources scheduled nextStartTime created].
  - by rewrite Hset.
  - done.
  - intros a Ha%filter_In. apply Hnodes, Ha.
  - by apply apart_other_than.
Qed.

Lemma orderly_silent : orderly silent.
Proof. by split. Qed.

(** X6. Throughout a session the set of sources holds exactly the nodes
    that are scheduled; the pending start time is never negative and never
    before the end of a scheduled buffer; and of two scheduled nodes the one
    created first has the smaller number and is done before the other
    starts: buffers that are scheduled never overlap. *)
Theorem player_invariant (st : Player) :
  Audio.reachable st ->
  sources st = scheduled st
  /\ 0 <= nextStartTime st
  /\ (forall s, In s (sources st) ->
        (node s < created st)%nat /\ 0 <= startedAt s
        /\ startedAt s + duration (buffer s) <= nextStartTime st)
  /\ (forall i j a b,
        sources st !! i = Some a -> sources st !! j = Some b -> (i < j)%nat ->
        (node a < node b)%nat
        /\ startedAt a + duration (buffer a) <= startedAt b).
Proof.
  intros Hr.
  assert (orderly st) as [Hset Hclock Hnodes Hapart].
  { induction Hr; [apply orderly_silent|by apply orderly_onmessage
                  |by apply orderly_ended]. }
  split; [done|]. split; [done|]. split; [done|].
  intros i j a b Hi Hj Hij. by apply (apart_lookup (sources st) i j).
Qed.

Lemma player_invariant_witness :
  Audio.reachable (playback [(0, hush); (3, hush)] silent)
  /\ sources (playback [(0, hush); (3, hush)] silent)
     = scheduled (playback [(0, hush); (3, hush)] silent)
  /\ 0 <= nextStartTime (playback [(0, hush); (3, hush)] silent).
Proof.
  assert (Audio.reachable (playback [(0, hush); (3, hush)] silent)) as Hr.
  { unfold playback. cbn [fold_left fst snd].
    apply reach_onmessage; [apply reach_onmessage; [apply reach_silent|]|];
      clear; by vm_compute. }
  split; [exact Hr|].
  destruct (player_invariant _ Hr) as (Hset & Hclock & _).
  split; [exact Hset|exact Hclock].
Defined.

(** *** Stopping *)

Lemma frames_inactive fs cap :
  isActive cap = false ->
  fold_left (fun st f => onaudioprocess f st) fs cap = cap.
Proof.
  intros Hoff. induction fs as [|f fs IH]; [done|]. cbn [fold_left].
  assert (onaudioprocess f cap = cap) as ->; [|done].
  unfold onaudioprocess. by rewrite Hoff.
Qed.

Lemma reachable_orderly ch : Lifecycle.reachable ch -> orderly (player ch).
Proof.
  induction 1 as [|ch H IH|live ch H IH|ch H IH|ch H IH|e ch H IH|fs ch H IH
                 |t m ch H IH Ht|s ch H IH].
  - apply orderly_silent.
  - exact IH.
  - exact IH.
  - unfold onclose. by destruct (isActive _).
  - exact IH.
  - destruct IH as [Hset Hclock _ _]. unfold stopSession. cbn [player].
    rewrite <- Hset, stop_each_self. by split.
  - exact IH.
  - by apply orderly_onmessage.
  - by apply orderly_ended.
Qed.

(** X7. After [stopSession] the microphone frames that still arrive are
    dropped and nothing is left scheduled, but the pending start time is
    the one of the stopped session: the first chunk handled afterwards
    starts at that time when the clock is behind it. Frames are dropped
    after [onclose] and [onerror] as well. *)
Theorem stopSession_spec (closeThrows : bool) (ch : Chat)
  (fs : list (list Sample)) :
  Lifecycle.reachable ch ->
  let stopped := stopSession closeThrows ch in
  capture (frames fs stopped) = capture stopped
  /\ outbound (capture stopped) = outbound (capture ch)
  /\ sources (player stopped) = [] /\ scheduled (player stopped) = []
  /\ nextStartTime (player stopped) = nextStartTime (player ch)
  /\ (forall t c d, chunk_duration c = Some d ->
        exists src,
          sources (player (message t (mkMessage c false) stopped)) = [src]
          /\ startedAt src = Qmax (nextStartTime (player ch)) t)
  /\ capture (frames fs (onclose ch)) = capture (onclose ch)
  /\ capture (frames fs (onerror ch)) = capture (onerror ch).
Proof.
  intros Hr stopped.
  destruct (reachable_orderly ch Hr) as [Hset _ _ _].
  assert (player stopped
          = mkPlayer (nextStartTime (player ch)) [] [] (created (player ch))
                     (outputTranscript (player ch))) as Hp.
  { unfold stopped, stopSession. cbn [player].
    by rewrite <- Hset, stop_each_self. }
  split; [by apply frames_inactive|]. split; [done|].
  rewrite Hp. cbn [sources scheduled nextStartTime].
  split; [done|]. split; [done|]. split; [done|]. split; [|split].
  - intros t c d Hd. unfold message, onmessage. cbn [player inlineData].
    rewrite Hp.
    destruct (play_chunk t c d
                (mkPlayer (nextStartTime (player ch)) [] []
                          (created (player ch))
                          (outputTranscript (player ch))) Hd)
      as (buf & _ & ->).
    cbn [interruptedFlag sources nextStartTime app]. by eexists.
  - apply frames_inactive. unfold onclose.
    by destruct (isActive (capture ch)) eqn:E.
  - by apply frames_inactive.
Qed.

Lemma stopSession_spec_witness :
  let talking :=
    message 0 (mkMessage hush false)
      (connected (mkSession true) (onopen idle)) in
  Lifecycle.reachable talking
  /\ nextStartTime (player (stopSession false talking)) == 3 / 24000
  /\ outbound (capture (frames [[Finite 0.5]] (stopSession false talking)))
     = []
  /\ outbound (capture (frames [[Finite 0.5]] talking)) <> [].
Proof.
  intros talking.
  assert (Lifecycle.reachable talking) as Hr.
  { apply reach_message; [|done].
    apply reach_connected, reach_onopen, reach_idle. }
  split; [exact Hr|].
  destruct (stopSession_spec false talking [[Finite 0.5]] Hr)
    as (Hdrop & _ & _ & _ & Hnext & _).
  split; [rewrite Hnext; clear; by vm_compute|].
  split; [rewrite Hdrop; clear; reflexivity|]. clear. by vm_compute.
Defined.

End LifecycleFacts.

(** ** Markers in streamed text, image directives and the transcript *)

Module TranscriptFacts.
Import JS JSON Parser ParserFacts Transcript.

(** *** Trimming *)

Lemma trimStart_fix s :
  (forall c, head s = Some c -> isTrimmable c = false) -> trimStart s = s.
Proof.
  destruct s as [|c s]; [done|]. intros H. cbn [trimStart].
  by rewrite (H c).
Qed.

Lemma trimStart_head s c :
  head (trimStart s) = Some c -> isTrimmable c = false.
Proof.
  induction s as [|x s IH]; [done|]. cbn [trimStart].
  destruct (isTrimmable x) eqn:E; [done|]. by intros [= <-].
Qed.

Lemma trimStart_suffix s : exists pre, s = pre ++ trimStart s.
Proof.
  induction s as [|x s [pre IH]]; [by exists []|]. cbn [trimStart].
  destruct (isTrimmable x); [|by exists []].
  exists (x :: pre). cbn [app]. by rewrite <- IH.
Qed.

Lemma trim_idempotent s : trim (trim s) = trim s.
Proof.
  unfold trim. set (u := trimStart s). set (v := trimStart (rev u)).
  assert (trimStart (rev v) = rev v) as ->.
  { apply trimStart_fix. intros c Hc.
    destruct (trimStart_suffix (rev u)) as [pre Hpre]. fold v in Hpre.
    assert (u = rev v ++ rev pre) as Hu
      by (by rewrite <- rev_app_distr, <- Hpre, rev_involutive).
    apply (trimStart_head s). fold u. rewrite Hu.
    destruct (rev v); [done|]. exact Hc. }
  rewrite rev_involutive. f_equal. apply trimStart_fix.
  intros c Hc. by apply (trimStart_head (rev u)).
Qed.

Lemma in_trimStart c s : In c (trimStart s) -> In c s.
Proof.
  destruct (trimStart_suffix s) as [pre Hs]. intros Hin.
  rewrite Hs. apply in_or_app. by right.
Qed.

Lemma in_trim c s : In c (trim s) -> In c s.
Proof.
  unfold trim. intros Hin. apply in_rev in Hin.
  apply in_trimStart, in_rev in Hin. by apply in_trimStart.
Qed.

(** *** Leftmost matches *)

Section ScanFacts.

Variable here : jsstring -> option (jsstring * jsstring).

(** A match takes at least one code unit. *)
Hypothesis here_takes : forall s cap rest,
  here s = Some (cap, rest) -> exists m, m <> [] /\ s = m ++ rest.

Lemma locate_eq s :
  locate here s =
  match here s with
  | Some (capture, rest) => Some ([], capture, rest)
  | None =>
    match s with
    | [] => None
    | c :: s' =>
      match locate here s' with
      | Some (pre, capture, rest) => Some (c :: pre, capture, rest)
      | None => None
      end
    end
  end.
Proof. by destruct s. Qed.

Lemma locate_split s pre cap rest :
  locate here s = Some (pre, cap, rest) ->
  exists m, m <> [] /\ s = pre ++ m ++ rest.
Proof.
  revert pre. induction s as [|c s IH]; intros pre; rewrite locate_eq.
  - destruct (here []) as [[cap' rest']|] eqn:E; [|done].
    intros [= <- <- <-]. by apply here_takes in E.
  - destruct (here (c :: s)) as [[cap' rest']|] eqn:E.
    + intros [= <- <- <-]. by apply here_takes in E.
    + destruct (locate here s) as [[[pre' cap'] rest']|]; [|done].
      intros [= <- <- <-]. destruct (IH pre' eq_refl) as (m & Hm & ->).
      by exists m.
Qed.

Lemma locate_junk junk X cap rest :
  (forall k, (k < length junk)%nat -> here (drop k junk ++ X) = None) ->
  here X = Some (cap, rest) ->
  locate here (junk ++ X) = Some (junk, cap, rest).
Proof.
  intros Hj HX. induction junk as [|c junk IH]; rewrite locate_eq.
  - cbn [app]. by rewrite HX.
  - pose proof (Hj 0%nat ltac:(cbn; lia)) as H0. cbn [drop] in H0.
    rewrite H0. cbn [app]. rewrite IH; [done|].
    intros k Hk. apply (Hj (S k)). cbn. lia.
Qed.

Lemma locate_none s :
  (forall k, (k <= length s)%nat -> here (drop k s) = None) ->
  locate here s = None.
Proof.
  induction s as [|c s IH]; intros H; rewrite locate_eq.
  - pose proof (H 0%nat ltac:(done)) as H0. cbn [drop] in H0.
    by rewrite H0.
  - pose proof (H 0%nat ltac:(cbn; lia)) as H0. cbn [drop] in H0.
    rewrite H0, IH; [done|].
    intros k Hk. apply (H (S k)). cbn. lia.
Qed.

Lemma exec_none text i :
  (i <= length text)%nat -> locate here (drop i text) = None ->
  exec here text i = (None, 0%nat).
Proof.
  intros Hi Hs. unfold exec. destruct (decide _); [lia|]. by rewrite Hs.
Qed.

Lemma exec_some text i pre cap rest :
  (i <= length text)%nat ->
  locate here (drop i text) = Some (pre, cap, rest) ->
  exec here text i = (Some cap, (length text - length rest)%nat) /\
  (i < length text - length rest <= length text)%nat /\
  drop (length text - length rest) text = rest.
Proof.
  intros Hi Hs. unfold exec. destruct (decide _); [lia|]. rewrite Hs.
  split; [done|]. apply locate_split in Hs as (m & Hm & Hs).
  assert (text = (take i text ++ pre ++ m) ++ rest) as Ht.
  { rewrite <- (take_drop i text) at 1. rewrite Hs.
    by rewrite <- !app_assoc. }
  split; [|by apply (drop_to_suffix _ (take i text ++ pre ++ m))].
  apply (f_equal length) in Ht. rewrite !length_app, length_take in Ht.
  destruct m; [done|]. cbn [length] in Ht. lia.
Qed.

Lemma remove_enough n : forall s m,
  (length s <= n)%nat -> (length s <= m)%nat ->
  remove here n s = remove here m s.
Proof.
  assert (locate here [] = None) as Hnil.
  { rewrite locate_eq. destruct (here []) as [[cap rest]|] eqn:E; [|done].
    apply here_takes in E as (m & Hm & E). by destruct m. }
  induction n as [|n IH]; intros s m Hn Hm.
  - destruct s; [|cbn in Hn; lia]. destruct m; [done|].
    cbn [remove]. by rewrite Hnil.
  - destruct m as [|m].
    { destruct s; [|cbn in Hm; lia]. cbn [remove]. by rewrite Hnil. }
    cbn [remove].
    destruct (locate here s) as [[[pre cap] rest]|] eqn:E; [|done].
    apply locate_split in E as (x & Hx & ->). f_equal.
    rewrite !length_app in Hn, Hm. destruct x; [done|]. cbn [length] in *.
    apply IH; lia.
Qed.

Lemma replace_all_none s : locate here s = None -> replace_all here s = s.
Proof.
  intros E. unfold replace_all. destruct (length s); [done|].
  cbn [remove]. by rewrite E.
Qed.

Lemma replace_all_step junk X cap rest :
  locate here (junk ++ X) = Some (junk, cap, rest) ->
  replace_all here (junk ++ X) = junk ++ replace_all here rest.
Proof.
  intros E. unfold replace_all.
  pose proof (locate_split _ _ _ _ E) as (m & Hm & Hs).
  assert (length rest < length (junk ++ X))%nat as Hlt.
  { rewrite Hs, !length_app. destruct m; [done|]. cbn [length]. lia. }
  destruct (length (junk ++ X)) as [|n]; [lia|].
  cbn [remove]. rewrite E. f_equal. apply remove_enough; lia.
Qed.

Lemma locate_capture s pre cap rest :
  locate here s = Some (pre, cap, rest) -> exists t, here t = Some (cap, rest).
Proof.
  revert pre. induction s as [|c s IH]; intros pre; rewrite locate_eq.
  - destruct (here []) as [[cap' rest']|] eqn:E; [|done].
    intros [= <- <- <-]. eauto.
  - destruct (here (c :: s)) as [[cap' rest']|] eqn:E.
    + intros [= <- <- <-]. eauto.
    + destruct (locate here s) as [[[pre' cap'] rest']|]; [|done].
      intros [= <- <- <-]. by apply (IH pre').
Qed.

End ScanFacts.

(** *** Whiteboard markers *)

Lemma strip_prefix_more p a r z :
  strip_prefix p a = Some r -> strip_prefix p (a ++ z) = Some (r ++ z).
Proof.
  intros ->%strip_prefix_Some. rewrite <- app_assoc. apply strip_prefix_app.
Qed.

Lemma occurs_drop p k : forall s,
  occurs p s = false -> occurs p (drop k s) = false.
Proof.
  induction k as [|k IH]; intros s Hs; [done|].
  destruct s as [|c s]; [done|]. cbn [drop]. apply IH.
  by apply occurs_tail in Hs.
Qed.

Lemma match_here_takes s cap rest :
  match_here s = Some (cap, rest) -> exists m, m <> [] /\ s = m ++ rest.
Proof.
  intros (body & _ & ->)%match_here_split. exists (marker body).
  split; [|done]. pose proof (marker_length body).
  destruct (marker body); [cbn in *; lia|done].
Qed.

Lemma marker_opening body :
  marker body = str "[BOARD:{" ++ body ++ str "}]".
Proof. unfold marker, payload. by rewrite <- !app_assoc. Qed.

Lemma board_not_before junk body rest :
  marker_free junk = true -> junk <> [] ->
  match_here (junk ++ marker body ++ rest) = None.
Proof.
  unfold marker_free. rewrite negb_true_iff. intros Hj Hne.
  unfold match_here.
  destruct (strip_prefix _ _) as [r|] eqn:E; [|done]. exfalso.
  rewrite marker_opening, <- !app_assoc in E.
  apply opening_straddle in E as [r' E]; [|done].
  by rewrite (occurs_head _ _ Hj) in E.
Qed.

Lemma match_here_marker_free s :
  marker_free s = true -> match_here s = None.
Proof.
  unfold marker_free. rewrite negb_true_iff. intros Hs.
  unfold match_here. by rewrite (occurs_head _ _ Hs).
Qed.

Lemma marker_free_drop k s :
  marker_free s = true -> marker_free (drop k s) = true.
Proof.
  unfold marker_free. rewrite !negb_true_iff. apply occurs_drop.
Qed.

Lemma locate_board junk body rest :
  marker_free junk = true -> closed_body body = true ->
  locate match_here (junk ++ marker body ++ rest)
  = Some (junk, payload body, rest).
Proof.
  intros Hj Hb. apply locate_junk; [|by apply match_here_marker].
  intros k Hk. apply board_not_before; [by apply marker_free_drop|].
  intros E. apply (f_equal length) in E. rewrite length_drop in E.
  cbn in E. lia.
Qed.

Lemma locate_marker_free s :
  marker_free s = true -> locate match_here s = None.
Proof.
  intros Hs. apply locate_none. intros k _.
  by apply match_here_marker_free, marker_free_drop.
Qed.

Lemma locate_search s :
  search s = (fun x => (x.1.2, x.2)) <$> locate match_here s.
Proof.
  induction s as [|c s IH]; rewrite search_eq, locate_eq.
  - by destruct (match_here []) as [[cap rest]|].
  - destruct (match_here (c :: s)) as [[cap rest]|]; [done|].
    rewrite IH. by destruct (locate match_here s) as [[[pre cap] rest]|].
Qed.

Lemma search_none s :
  (forall k, (k <= length s)%nat -> match_here (drop k s) = None) ->
  search s = None.
Proof. intros H. by rewrite locate_search, locate_none. Qed.

Lemma parse_none text :
  search text = None ->
  parseWhiteboardCommands text = [] /\ console_warnings text = [].
Proof.
  intros Hs. unfold parseWhiteboardCommands, console_warnings, run.
  cbn [while_loop lastIndex]. by rewrite exec_no_match by (done || lia).
Qed.

Lemma replace_board_chunk ms tail :
  well_formed_chunk ms tail = true ->
  replace_all match_here (assemble ms tail) = between ms tail.
Proof.
  unfold well_formed_chunk, between. rewrite andb_true_iff. intros [Hms Ht].
  induction ms as [|[junk body] ms IH].
  - cbn [assemble List.map concat app].
    by apply replace_all_none, locate_marker_free.
  - cbn [forallb fst snd] in Hms. apply andb_true_iff in Hms as [Hm Hms].
    apply andb_true_iff in Hm as [Hj Hb].
    cbn [assemble List.map concat fst].
    rewrite (replace_all_step _ match_here_takes _ _ (payload body)
               (assemble ms tail)) by by apply locate_board.
    rewrite (IH Hms). by rewrite <- app_assoc.
Qed.

(** *** Text that holds no complete marker *)

Lemma match_here_closes s cap rest :
  match_here s = Some (cap, rest) -> occurs (str "}]") s = true.
Proof.
  intros (body & _ & ->)%match_here_split. apply occurs_spec.
  exists (str "[BOARD:{" ++ body), rest.
  by rewrite marker_opening, <- !app_assoc.
Qed.

Lemma search_no_close s : occurs (str "}]") s = false -> search s = None.
Proof.
  intros Hs. apply search_none. intros k _.
  destruct (match_here (drop k s)) as [[cap rest]|] eqn:E; [|done].
  apply match_here_closes in E. by rewrite (occurs_drop _ k s Hs) in E.
Qed.

(** X8. A text that does not hold the opening of a marker, or does not
    hold the two characters that close one, yields no command and no
    warning, and the transcript keeps it as it is. *)
Theorem no_marker_no_command (text : jsstring) :
  occurs (str "[BOARD:{") text = false \/ occurs (str "}]") text = false ->
  parseWhiteboardCommands text = []
  /\ console_warnings text = []
  /\ replace_all match_here text = text.
Proof.
  intros H.
  assert (search text = None) as Hs.
  { destruct H as [H|H]; [|by apply search_no_close].
    apply search_marker_free. unfold marker_free. by rewrite H. }
  destruct (parse_none text Hs) as [-> ->]. split; [done|]. split; [done|].
  apply replace_all_none. rewrite locate_search in Hs.
  by destruct (locate match_here text).
Qed.

Lemma no_marker_no_command_witness :
  occurs (str "}]") (str "Look: [BOARD:{") = false
  /\ parseWhiteboardCommands (str "Look: [BOARD:{") = []
  /\ parseWhiteboardCommands [] = [].
Proof.
  assert (occurs (str "}]") (str "Look: [BOARD:{") = false) as H1
    by reflexivity.
  split; [exact H1|].
  destruct (no_marker_no_command (str "Look: [BOARD:{") (or_intror H1))
    as (Hp & _).
  split; [exact Hp|].
  by destruct (no_marker_no_command [] (or_introl eq_refl)) as (Hq & _).
Defined.

(** *** A marker cut in two *)

(** The opening is not completed by what closes a marker. *)
Lemma opening_not_completed s z :
  strip_prefix (str "[BOARD:{") s = None ->
  strip_prefix (str "[BOARD:{") (s ++ str "}]" ++ z) = None.
Proof.
  intros E.
  do 8 (destruct s as [|? s];
        [ cbn in E |- *; repeat (case_match; try done) |]).
  cbn in E |- *. repeat (case_match; try done).
Qed.

Lemma opening_in_body body z :
  occurs (str "[BOARD:{") body = false ->
  forall j, (j < length body + 2)%nat ->
  strip_prefix (str "[BOARD:{") (drop j (body ++ str "}]" ++ z)) = None.
Proof.
  induction body as [|c body IH]; intros Hb j Hj.
  - destruct j as [|[|j]]; [reflexivity|reflexivity|cbn in Hj; lia].
  - destruct j as [|j].
    + cbn [drop]. apply opening_not_completed. by apply occurs_head.
    + cbn [drop app]. apply IH; [by apply occurs_tail in Hb|].
      cbn [length] in Hj. lia.
Qed.

(** No marker opens inside a marker whose body holds no opening. *)
Lemma opening_inside body z j :
  marker_free body = true -> (0 < j < length (marker body))%nat ->
  strip_prefix (str "[BOARD:{") (drop j (marker body) ++ z) = None.
Proof.
  unfold marker_free. rewrite negb_true_iff. intros Hb Hj.
  rewrite <- drop_app_le by lia.
  rewrite marker_opening in *. rewrite <- !app_assoc.
  rewrite !length_app in Hj. change (length (str "[BOARD:{")) with 8%nat in Hj.
  change (length (str "}]")) with 2%nat in Hj.
  do 8 (destruct j as [|j]; [first [lia|reflexivity]|]).
  change (drop (S (S (S (S (S (S (S (S j))))))))
            (str "[BOARD:{" ++ body ++ str "}]" ++ z))
    with (drop j (body ++ str "}]" ++ z)).
  apply opening_in_body; [done|lia].
Qed.

Lemma closed_body_prefix body b r rest :
  closed_body body = true -> rest <> [] ->
  body ++ str "}]" = (b ++ str "}]" ++ r) ++ rest -> False.
Proof.
  unfold closed_body. intros [_ Hb%negb_true_iff]%andb_true_iff Hrest E.
  destruct (exists_last Hrest) as (rest' & x & ->).
  change (str "}]") with (str "}" ++ [93%N]) in E at 1.
  rewrite !app_assoc in E. apply app_inj_tail in E as [E _].
  assert (occurs (str "}]") (body ++ str "}") = true) as Ho.
  { apply occurs_spec. exists b, (r ++ rest'). rewrite E.
    by rewrite <- !app_assoc. }
  by rewrite Ho in Hb.
Qed.

Lemma cut_left pre body k :
  marker_free pre = true -> marker_free body = true ->
  closed_body body = true -> (0 < k < length (marker body))%nat ->
  search (pre ++ take k (marker body)) = None.
Proof.
  intros Hp Hb Hc Hk. apply search_none. intros j _.
  pose proof (take_drop k (marker body)) as Hm.
  destruct (decide (j < length pre)%nat) as [Hj|Hj].
  - rewrite drop_app_le by lia. unfold match_here.
    destruct (strip_prefix _ _) as [r|] eqn:E; [|done]. exfalso.
    apply (strip_prefix_more _ _ _ (drop k (marker body))) in E.
    rewrite <- app_assoc, Hm, marker_opening in E.
    apply opening_straddle in E as [r' E].
    + pose proof (marker_free_drop j pre Hp) as Hf. unfold marker_free in Hf.
      apply negb_true_iff in Hf. by rewrite (occurs_head _ _ Hf) in E.
    + intros E'. apply (f_equal length) in E'. rewrite length_drop in E'.
      cbn in E'. lia.
  - rewrite drop_app_ge by lia. generalize (j - length pre)%nat. intros j'.
    unfold match_here.
    destruct (strip_prefix _ _) as [s1|] eqn:E; [|done].
    destruct j' as [|j'].
    + rewrite drop_0 in E. apply strip_prefix_Some in E.
      destruct (lazy_body s1) as [[b r]|] eqn:El; [|done]. exfalso.
      apply lazy_body_split in El. rewrite E, El in Hm.
      rewrite marker_opening in Hm. rewrite <- !app_assoc in Hm.
      apply app_inv_head in Hm.
      apply (closed_body_prefix body b r (drop k (marker body)) Hc).
      * intros E'. apply (f_equal length) in E'. rewrite length_drop in E'.
        cbn [length] in E'. lia.
      * rewrite marker_opening. symmetry. rewrite <- !app_assoc. exact Hm.
    + exfalso.
      destruct (decide (S j' <= k)%nat) as [Hle|Hgt].
      * apply (strip_prefix_more _ _ _ (drop k (marker body))) in E.
        rewrite <- drop_app_le in E by (rewrite length_take; lia).
        rewrite Hm in E.
        pose proof (opening_inside body [] (S j') Hb ltac:(lia)) as Hn.
        rewrite app_nil_r in Hn. by rewrite Hn in E.
      * rewrite drop_ge in E by (rewrite length_take; lia). done.
Qed.

Lemma cut_right body post k :
  marker_free body = true -> marker_free post = true ->
  (0 < k < length (marker body))%nat ->
  search (drop k (marker body) ++ post) = None.
Proof.
  intros Hb Hp Hk. apply search_none. intros j _.
  destruct (decide (j < length (drop k (marker body)))%nat) as [Hj|Hj].
  - rewrite drop_app_le by lia. rewrite drop_drop. unfold match_here.
    rewrite length_drop in Hj.
    by rewrite opening_inside by (done || lia).
  - rewrite drop_app_ge by lia.
    by apply match_here_marker_free, marker_free_drop.
Qed.

(** X9. Commands are looked for in each piece of streamed text on its own:
    when a marker is cut between two pieces, neither piece yields its
    command, although the text in one piece does. *)
Theorem split_marker_is_lost (pre body post : jsstring) (k : nat) :
  marker_free pre = true -> marker_free body = true ->
  marker_free post = true -> closed_body body = true ->
  (0 < k < length (marker body))%nat ->
  parseWhiteboardCommands (pre ++ take k (marker body)) = []
  /\ parseWhiteboardCommands (drop k (marker body) ++ post) = []
  /\ parseWhiteboardCommands (pre ++ marker body ++ post)
     = option_list (command_of (payload body)).
Proof.
  intros Hpre Hb Hpost Hc Hk.
  split; [by apply parse_none, cut_left|].
  split; [by apply parse_none, cut_right|].
  unfold parseWhiteboardCommands, run.
  rewrite (while_loop_chunk [(pre, body)] post).
  - cbn [commands payloads List.map snd app]. by rewrite omap_cons, app_nil_r.
  - unfold well_formed_chunk. cbn [forallb fst snd].
    by rewrite Hpre, Hc, Hpost.
  - cbn [length]. rewrite !length_app. pose proof (marker_length body). lia.
  - cbn [lastIndex]. lia.
  - reflexivity.
Qed.

Lemma split_marker_is_lost_witness :
  let text := marker Examples.f_ma_body in
  marker_free [] = true /\ marker_free Examples.f_ma_body = true
  /\ closed_body Examples.f_ma_body = true
  /\ (0 < 20 < length text)%nat
  /\ parseWhiteboardCommands (take 20 text) = []
  /\ parseWhiteboardCommands (drop 20 text) = []
  /\ parseWhiteboardCommands text = [Examples.f_ma_object].
Proof.
  intros text. subst text.
  assert (marker_free Examples.f_ma_body = true) as Hb by reflexivity.
  assert (closed_body Examples.f_ma_body = true) as Hc by reflexivity.
  assert (0 < 20 < length (marker Examples.f_ma_body))%nat as Hk
    by (split; [lia|apply Nat.ltb_lt; reflexivity]).
  split; [reflexivity|]. split; [exact Hb|]. split; [exact Hc|].
  split; [exact Hk|].
  destruct (split_marker_is_lost [] Examples.f_ma_body [] 20
              eq_refl Hb eq_refl Hc Hk) as (H1 & H2 & H3).
  rewrite app_nil_r in H2. rewrite app_nil_r in H3.
  split; [exact H1|]. split; [exact H2|].
  etrans; [exact H3|]. clear. by vm_compute.
Defined.

(** *** Image directives *)

Lemma prompt_run_split s : forall p r,
  prompt_run s = (p, r) ->
  s = p ++ r /\ forallb (fun c => negb (c =? bracket)%N) p = true
  /\ (r = [] \/ exists r', r = bracket :: r').
Proof.
  induction s as [|c s IH]; intros p r; cbn [prompt_run].
  - intros [= <- <-]. split; [done|]. split; [done|]. by left.
  - destruct (N.eqb_spec c bracket) as [->|Hc].
    + intros [= <- <-]. split; [done|]. split; [done|]. right. by eexists.
    + destruct (prompt_run s) as [p' r'] eqn:E. intros [= <- <-].
      destruct (IH p' r' eq_refl) as (-> & Hp & Hr).
      split; [done|]. split; [|done]. cbn [forallb]. rewrite Hp.
      by destruct (N.eqb_spec c bracket).
Qed.

Lemma prompt_run_body p rest :
  forallb (fun c => negb (c =? bracket)%N) p = true ->
  prompt_run (p ++ bracket :: rest) = (p, bracket :: rest).
Proof.
  induction p as [|c p IH]; cbn [forallb app prompt_run].
  - intros _. by rewrite N.eqb_refl.
  - intros [Hc Hp]%andb_true_iff. apply negb_true_iff in Hc.
    by rewrite Hc, IH.
Qed.

Lemma image_here_split s p rest :
  image_here s = Some (p, rest) ->
  prompt_body p = true /\ s = directive p ++ rest.
Proof.
  unfold image_here.
  destruct (strip_prefix _ s) as [s1|] eqn:E; [|done].
  apply strip_prefix_Some in E as ->.
  destruct (prompt_run s1) as [[|c q] [|x r]] eqn:Er; try done.
  intros [= <- <-]. apply prompt_run_split in Er as (-> & Hq & Hr).
  destruct Hr as [|[r' [= -> ->]]]; [done|].
  split; [done|]. unfold directive. by rewrite <- !app_assoc.
Qed.

Lemma image_here_directive p rest :
  prompt_body p = true -> image_here (directive p ++ rest) = Some (p, rest).
Proof.
  intros Hp. unfold image_here, directive.
  rewrite <- !app_assoc, strip_prefix_app. cbn [app].
  destruct p as [|c p]; [done|]. cbn [prompt_body] in Hp.
  by rewrite prompt_run_body.
Qed.

Lemma directive_length p : (8 <= length (directive p))%nat.
Proof. unfold directive. rewrite !length_app. cbn. lia. Qed.

Lemma image_here_takes s cap rest :
  image_here s = Some (cap, rest) -> exists m, m <> [] /\ s = m ++ rest.
Proof.
  intros [_ ->]%image_here_split. exists (directive cap). split; [|done].
  pose proof (directive_length cap).
  destruct (directive cap); [cbn in *; lia|done].
Qed.

(** The opening of a directive starts with the only bracket it holds. *)
Lemma image_straddle junk x r :
  junk <> [] ->
  strip_prefix (str "[IMAGE:") (junk ++ str "[IMAGE:" ++ x) = Some r ->
  exists r', strip_prefix (str "[IMAGE:") junk = Some r'.
Proof.
  intros Hne E.
  do 7 (destruct junk as [|? junk];
        [ first [ done | by (vm_compute in E; repeat case_match) ] |]).
  cbn in E |- *.
  repeat (case_match; [|done]). eauto.
Qed.

Lemma image_free_drop k s :
  image_free s = true -> image_free (drop k s) = true.
Proof.
  unfold image_free. rewrite !negb_true_iff. apply occurs_drop.
Qed.

Lemma image_here_free s : image_free s = true -> image_here s = None.
Proof.
  unfold image_free. rewrite negb_true_iff. intros Hs.
  unfold image_here. by rewrite (occurs_head _ _ Hs).
Qed.

Lemma image_not_before junk p rest :
  image_free junk = true -> junk <> [] ->
  image_here (junk ++ directive p ++ rest) = None.
Proof.
  intros Hj Hne. unfold image_here.
  destruct (strip_prefix _ _) as [r|] eqn:E; [|done]. exfalso.
  unfold directive in E. rewrite <- !app_assoc in E.
  apply image_straddle in E as [r' E]; [|done].
  unfold image_free in Hj. apply negb_true_iff in Hj.
  by rewrite (occurs_head _ _ Hj) in E.
Qed.

Lemma locate_image junk p rest :
  image_free junk = true -> prompt_body p = true ->
  locate image_here (junk ++ directive p ++ rest) = Some (junk, p, rest).
Proof.
  intros Hj Hp. apply locate_junk; [|by apply image_here_directive].
  intros k Hk. apply image_not_before; [by apply image_free_drop|].
  intros E. apply (f_equal length) in E. rewrite length_drop in E.
  cbn [length] in E. lia.
Qed.

Lemma locate_image_free s :
  image_free s = true -> locate image_here s = None.
Proof.
  intros Hs. apply locate_none. intros k _.
  by apply image_here_free, image_free_drop.
Qed.

Lemma image_loop_chunk ms tail :
  well_formed_images ms tail = true ->
  forall fuel text i prompts,
  (length ms < fuel)%nat -> (i <= length text)%nat ->
  drop i text = assemble_images ms tail ->
  image_loop fuel text i prompts
  = Some (prompts ++ List.map (fun m => trim (snd m)) ms).
Proof.
  unfold well_formed_images. rewrite andb_true_iff. intros [Hms Ht].
  induction ms as [|[junk p] ms IH]; intros fuel text i prompts Hf Hi Hd;
    (destruct fuel as [|fuel]; [cbn in Hf; lia|]); cbn [image_loop].
  - cbn [assemble_images] in Hd.
    rewrite exec_none; [|done|by rewrite Hd; apply locate_image_free].
    by rewrite app_nil_r.
  - cbn [assemble_images] in Hd.
    cbn [forallb fst snd] in Hms. apply andb_true_iff in Hms as [Hm Hms].
    apply andb_true_iff in Hm as [Hj Hp].
    pose proof (locate_image junk p (assemble_images ms tail) Hj Hp) as Hs.
    rewrite <- Hd in Hs.
    destruct (exec_some _ image_here_takes _ _ _ _ _ Hi Hs)
      as (-> & Hlt & Hdrop).
    rewrite (IH Hms); [|cbn in Hf; lia|lia|done].
    cbn [List.map snd]. by rewrite <- app_assoc.
Qed.

Lemma image_loop_terminates fuel : forall text i prompts,
  (length text - i < fuel)%nat ->
  exists l, image_loop fuel text i prompts = Some l.
Proof.
  induction fuel as [|fuel IH]; intros text i prompts Hf; [lia|].
  cbn [image_loop].
  destruct (decide (length text < i)%nat) as [Hgt|Hle].
  { unfold exec. destruct (decide _); [|lia]. eauto. }
  destruct (locate image_here (drop i text)) as [[[pre cap] rest]|] eqn:Hs.
  - destruct (exec_some _ image_here_takes text i pre cap rest)
      as (-> & Hlt & _); [lia|done|].
    apply IH. lia.
  - rewrite exec_none by (done || lia). eauto.
Qed.

Lemma image_loop_prompts (P : jsstring -> Prop) :
  (forall p, prompt_body p = true -> P (trim p)) ->
  forall fuel text i prompts l,
  Forall P prompts -> image_loop fuel text i prompts = Some l -> Forall P l.
Proof.
  intros HP. induction fuel as [|fuel IH]; intros text i prompts l Hps;
    [done|]. cbn [image_loop]. unfold exec.
  destruct (decide _); [by intros [= <-]|].
  destruct (locate image_here (drop i text)) as [[[pre cap] rest]|] eqn:Hs;
    [|by intros [= <-]].
  apply IH. apply Forall_app. split; [done|]. constructor; [|done].
  apply HP. apply locate_capture in Hs as [t Ht].
  by apply image_here_split in Ht as [Hc _].
Qed.

(** X10. [parseImageCommands] on a chunk made of complete image directives
    and text that holds no opening of one returns the prompts of the
    directives, trimmed, in source order: a directive that holds white
    space only gives the empty prompt. On every text the scan returns,
    and each prompt it returns is trimmed and holds no closing bracket. *)
Theorem parseImageCommands_spec (ms : list (jsstring * jsstring))
  (tail : jsstring) :
  well_formed_images ms tail = true ->
  parseImageCommands (assemble_images ms tail)
  = List.map (fun m => trim (snd m)) ms
  /\ (forall text,
        is_Some (image_loop (S (length text)) text 0 [])
        /\ Forall (fun p => ~ In bracket p /\ trim p = p)
                  (parseImageCommands text)).
Proof.
  intros Hwf. split.
  - unfold parseImageCommands.
    rewrite (image_loop_chunk ms tail Hwf); [done| |lia|done].
    clear Hwf. induction ms as [|[junk p] ms IH]; cbn [length]; [lia|].
    cbn [assemble_images]. rewrite !length_app.
    pose proof (directive_length p). lia.
  - intros text.
    destruct (image_loop_terminates (S (length text)) text 0 [])
      as [l Hl]; [lia|].
    split; [by eexists|]. unfold parseImageCommands. rewrite Hl.
    eapply image_loop_prompts; [|constructor|exact Hl].
    intros p Hp. split; [|apply trim_idempotent].
    intros Hin%in_trim. destruct p as [|c p]; [done|].
    cbn [prompt_body] in Hp. rewrite forallb_forall in Hp.
    specialize (Hp _ Hin). by rewrite N.eqb_refl in Hp.
Qed.

Lemma parseImageCommands_spec_witness :
  let chunk := [(str "See ", str " a parabola "); (str " and ", str " ")] in
  well_formed_images chunk (str ".") = true
  /\ assemble_images chunk (str ".")
     = str "See [IMAGE: a parabola ] and [IMAGE: ]."
  /\ parseImageCommands (str "See [IMAGE: a parabola ] and [IMAGE: ].")
     = [str "a parabola"; []].
Proof.
  intros chunk. subst chunk.
  split; [reflexivity|]. split; [reflexivity|].
  destruct (parseImageCommands_spec
              [(str "See ", str " a parabola "); (str " and ", str " ")]
              (str ".") eq_refl) as [H _].
  etrans; [exact H|]. clear. by vm_compute.
Defined.

(** *** The transcript of a turn *)

(** X11. When a turn completes, the tutor's entry of the transcript is
    the text of the turn without its whiteboard markers: for a text made
    of complete markers, what stands between them, when that holds no
    opening of an image directive. Entries that are blank, old or new, are
    dropped, so a turn in which the student said nothing and the tutor
    sent markers only adds no entry. *)
Theorem turn_transcript (fullIn : jsstring) (ms : list (jsstring * jsstring))
  (tail : jsstring) (prev : list Entry) :
  well_formed_chunk ms tail = true ->
  image_free (between ms tail) = true ->
  without_markers (assemble ms tail) = between ms tail
  /\ turnComplete fullIn (assemble ms tail) prev
     = List.filter spoken prev
       ++ List.filter spoken [mkEntry user fullIn;
                              mkEntry model (between ms tail)]
  /\ (trim fullIn = [] -> trim (between ms tail) = [] ->
      turnComplete fullIn (assemble ms tail) prev = List.filter spoken prev)
  /\ Forall (fun t => spoken t = true)
            (turnComplete fullIn (assemble ms tail) prev).
Proof.
  intros Hwf Hfree.
  assert (without_markers (assemble ms tail) = between ms tail) as Hw.
  { unfold without_markers. rewrite replace_board_chunk by done.
    by apply replace_all_none, locate_image_free. }
  assert (turnComplete fullIn (assemble ms tail) prev
          = List.filter spoken prev
            ++ List.filter spoken [mkEntry user fullIn;
                                   mkEntry model (between ms tail)]) as Ht.
  { unfold turnComplete. by rewrite Hw, List.filter_app. }
  split; [done|]. split; [done|]. split.
  - intros Hin Hout. rewrite Ht. cbn [List.filter]. unfold spoken.
    cbn [text]. by rewrite Hin, Hout, app_nil_r.
  - unfold turnComplete. apply List.Forall_forall.
    intros t Hin%filter_In. apply Hin.
Qed.

Lemma turn_transcript_witness :
  well_formed_chunk [(str "Newton: ", Examples.f_ma_body)] (str " ok") = true
  /\ image_free (between [(str "Newton: ", Examples.f_ma_body)] (str " ok"))
     = true
  /\ turnComplete (str " ")
       (assemble [(str "Newton: ", Examples.f_ma_body)] (str " ok")) []
     = [mkEntry model (str "Newton:  ok")].
Proof.
  split; [reflexivity|]. split; [reflexivity|].
  destruct (turn_transcript (str " ")
              [(str "Newton: ", Examples.f_ma_body)] (str " ok") []
              eq_refl eq_refl) as (_ & H & _).
  etrans; [exact H|]. clear. by vm_compute.
Defined.

End TranscriptFacts.

(** ** The surface over a session *)

Module SurfaceFacts.
Import JS Whiteboard WhiteboardFacts Surface.
Local Open Scope Q_scope.

Local Opaque steps.

Section WithHost.
Context {host : Host}.

(** *** Shapes and highlights *)

Lemma shape_ops_incomplete cmd ctx :
  incomplete cmd = true -> shape_ops cmd ctx = [].
Proof.
  unfold incomplete, shape_ops.
  destruct (d_shape cmd), (d_from cmd) as [[? ?]|], (d_to cmd) as [[? ?]|],
    (d_center cmd) as [[? ?]|]; try done;
    by repeat match goal with
       | |- context [if ?t then _ else _] => destruct t
       end.
Qed.

(** X12. A Draw command that lacks what its shape needs (an arrow or a
    line without both end points, a circle without a centre or with no
    radius, a rectangle without a corner or with no width or height) draws
    nothing and moves nothing, and is counted as an item all the same. *)
Theorem incomplete_draw_counts (b : Board) (cmd : DrawCommand) :
  ready b -> incomplete cmd = true ->
  let after := executeCommand (Draw cmd) b in
  calls after = calls b
  /\ raster <$> canvas after = raster <$> canvas b
  /\ itemCount after = S (itemCount b)
  /\ currentY after = currentY b
  /\ canvasHeight after = canvasHeight b
  /\ renderedHashes after = renderedHashes b.
Proof.
  intros (c & Hc & H2) Hi after. unfold after.
  rewrite (executeCommand_Draw cmd b c Hc H2).
  rewrite (shape_ops_incomplete cmd _ Hi).
  cbn [calls canvas itemCount currentY canvasHeight renderedHashes
       List.map paint_all fold_left].
  rewrite app_nil_r, Hc. by repeat split.
Qed.

(** X13. A Highlight command fills its rectangle where the command says,
    whatever the cursor is; it is no item and moves nothing, and it is
    filled again every time it is repeated. *)
Theorem highlight_is_no_item (b : Board) (cmd : HighlightCommand) :
  ready b ->
  let once := executeCommand (Highlight cmd) b in
  let twice := executeCommand (Highlight cmd) once in
  (exists ctx ctx',
     calls once
     = calls b ++ [Paint (FillRect ctx (h_x cmd) (h_y cmd) (h_width cmd)
                                   (h_height cmd))]
     /\ calls twice
        = calls once ++ [Paint (FillRect ctx' (h_x cmd) (h_y cmd)
                                         (h_width cmd) (h_height cmd))])
  /\ itemCount twice = itemCount b
  /\ currentY twice = currentY b
  /\ canvasHeight twice = canvasHeight b
  /\ renderedHashes twice = renderedHashes b.
Proof.
  intros (c & Hc & H2) once twice.
  assert (exists c1, canvas once = Some c1 /\ has2d c1 = true
                     /\ refs once = refs b
                     /\ calls once
                        = calls b ++ [Paint (FillRect
                            (highlight_context cmd (context c))
                            (h_x cmd) (h_y cmd) (h_width cmd) (h_height cmd))])
    as (c1 & Hc1 & H21 & Hr1 & Hcalls1).
  { unfold once. rewrite (executeCommand_Highlight cmd b c Hc H2).
    eexists. split; [reflexivity|]. by repeat split. }
  unfold twice. rewrite (executeCommand_Highlight cmd once c1 Hc1 H21).
  cbn [calls itemCount currentY canvasHeight renderedHashes].
  split; [by eexists _, _|].
  unfold refs in Hr1. by injection Hr1 as -> -> -> -> _.
Qed.

(** *** What a session of plain commands adds up to *)

Lemma plain_step cmd b :
  ready b -> plain cmd = true ->
  currentY (executeCommand cmd b) == currentY b + step cmd
  /\ canvasHeight (executeCommand cmd b) = canvasHeight b
  /\ height <$> canvas (executeCommand cmd b) = height <$> canvas b
  /\ omap expansion (calls (executeCommand cmd b))
     = omap expansion (calls b).
Proof.
  intros Hr Hp. pose proof Hr as (c & Hc & H2).
  destruct cmd as [cmd|cmd|cmd| |cmd]; [| | | |done]; cbn [step].
  - destruct (decide (text_hash (w_text cmd) ∈ renderedHashes b)).
    + rewrite write_duplicate, (moved_spec cmd b c Hc) by done.
      cbn [currentY canvasHeight canvas calls fmap option_fmap option_map].
      rewrite Hc. by destruct c.
    + rewrite write_first, (inked_spec cmd b c Hc) by done.
      cbn [currentY canvasHeight canvas calls fmap option_fmap option_map
           height].
      rewrite Hc, omap_app. cbn [omap expansion]. by rewrite app_nil_r.
  - rewrite (executeCommand_Draw cmd b c Hc H2).
    cbn [currentY canvasHeight canvas calls fmap option_fmap option_map
         height].
    rewrite Hc, omap_app, expansion_Paint, app_nil_r.
    split; [lra|done].
  - rewrite (executeCommand_Highlight cmd b c Hc H2).
    cbn [currentY canvasHeight canvas calls fmap option_fmap option_map
         height].
    rewrite Hc, omap_app. cbn [omap expansion]. rewrite app_nil_r.
    split; [lra|done].
  - rewrite (executeCommand_Clear b c Hc H2).
    cbn [currentY canvasHeight canvas calls fmap option_fmap option_map
         height].
    rewrite Hc, omap_app. cbn [omap expansion divider]. by rewrite app_nil_r.
Qed.

(** X14. A session of commands other than images moves the cursor by the
    sum of what each command takes (a text its line height and the
    padding, drawn or not; a divider 80; shapes and highlights nothing)
    and never grows the surface: the height stays what it was, however far
    down the cursor has gone. The texts remembered are those of the Write
    commands, whatever came in between. *)
Theorem plain_session (b : Board) (cmds : list WhiteboardCommand) :
  ready b -> forallb plain cmds = true ->
  let after := execute_all cmds b in
  currentY after == currentY b + travelled cmds
  /\ canvasHeight after = canvasHeight b
  /\ height <$> canvas after = height <$> canvas b
  /\ omap expansion (calls after) = omap expansion (calls b)
  /\ renderedHashes after = list_to_set (written cmds) ∪ renderedHashes b.
Proof.
  intros Hr Hp after.
  split; [|split; [|split; [|split]]];
    [| | | |by apply renderedHashes_execute_all].
  all: unfold after; clear after; revert b Hr;
    induction cmds as [|cmd cmds IH]; intros b Hr;
    [first [done | unfold travelled; cbn; lra]|];
    cbn [forallb] in Hp; apply andb_true_iff in Hp as [Hp1 Hp2];
    destruct (plain_step cmd b Hr Hp1) as (Hy & Hh & Hc & He);
    change (execute_all (cmd :: cmds) b)
      with (execute_all cmds (executeCommand cmd b));
    rewrite (IH Hp2) by by apply ready_executeCommand.
  - rewrite Hy. unfold travelled. cbn [List.map fold_right]. lra.
  - done.
  - done.
  - done.
Qed.

(** X15. The key of a text is cut at thirty characters: a Write command
    whose text agrees with an earlier one on the first thirty characters,
    once trimmed and in lower case, is taken for a repetition and not
    drawn, however the two texts go on. *)
Theorem long_texts_collide (b : Board) (w1 w2 : WriteCommand) :
  ready b ->
  take 30 (toLowerCase (trim (w_text w1)))
  = take 30 (toLowerCase (trim (w_text w2))) ->
  let first := executeCommand (Write w1) b in
  let second := executeCommand (Write w2) first in
  calls second = calls first
  /\ raster <$> canvas second = raster <$> canvas first
  /\ itemCount second = itemCount first
  /\ currentY second = currentY first + advance w2.
Proof.
  intros Hr Hsame first second.
  assert (ready first) as Hr1 by by apply ready_executeCommand.
  assert (text_hash (w_text w2) ∈ renderedHashes first) as Hin.
  { unfold first. rewrite renderedHashes_executeCommand by done.
    change (written [Write w1]) with [text_hash (w_text w1)].
    assert (text_hash (w_text w2) = text_hash (w_text w1)) as ->
      by (unfold text_hash, substring0; by rewrite Hsame).
    set_solver. }
  destruct Hr1 as (c1 & Hc1 & H21).
  unfold second. rewrite write_duplicate by (done || by exists c1).
  rewrite (moved_spec w2 first c1 Hc1).
  cbn [calls canvas itemCount currentY fmap option_fmap option_map].
  rewrite Hc1. by destruct c1.
Qed.

(** *** Images *)


(** X17. An image whose data is empty or does not load changes nothing:
    the cursor is where it was, nothing is counted and nothing is drawn. *)
Theorem unloadable_image_changes_nothing (b : Board) (cmd : ImageCommand) :
  i_imageData cmd = [] \/ decodeImage (i_imageData cmd) = None ->
  executeCommand (Image cmd) b = b
  /\ (forall x y w h, decodeImage (i_imageData cmd) = None ->
        renderImage (i_imageData cmd) x y w h b = b).
Proof.
  intros H.
  assert (forall x y w h, decodeImage (i_imageData cmd) = None ->
            renderImage (i_imageData cmd) x y w h b = b) as Hr.
  { intros x y w h Hd. unfold renderImage. rewrite Hd.
    destruct (canvas b) as [c|]; [|done]. by destruct (negb (has2d c)). }
  split; [|done]. unfold executeCommand.
  destruct (canvas b) as [c|] eqn:Hc; [|done].
  destruct (negb (has2d c)); [done|].
  destruct H as [->|Hd]; [done|].
  destruct (i_imageData cmd) eqn:E; [done|]. rewrite <- E in *. by apply Hr.
Qed.

(** *** Nothing is taken back *)

Ltac onward :=
  split;
  cbn [called called_all with_currentY with_itemCount with_canvas
       canvasHeight itemCount renderedHashes calls isExpanding];
  [ first [done | lra]
  | first [done | lia]
  | first [done | set_solver]
  | first [by eexists | exists []; by rewrite app_nil_r]
  | done ].

Lemma extends_refl b : extends b b.
Proof.
  split; [lra|lia|done|exists []; by rewrite app_nil_r|done].
Qed.

Lemma extends_trans b1 b2 b3 : extends b1 b2 -> extends b2 b3 -> extends b1 b3.
Proof.
  intros [Hh1 Hn1 Hk1 [m1 Hc1] He1] [Hh2 Hn2 Hk2 [m2 Hc2] He2]. split.
  - lra.
  - lia.
  - set_solver.
  - exists (m1 ++ m2). by rewrite Hc2, Hc1, <- app_assoc.
  - auto.
Qed.

Lemma extends_expandCanvas h b : ready b -> extends b (expandCanvas h b).
Proof.
  intros (c & Hc & H2).
  destruct (Qlt_le_dec (canvasHeight b) h) as [Hlt|Hle].
  - rewrite (expandCanvas_grow h b c Hc H2 Hlt). onward.
  - rewrite expandCanvas_noop by (intros; exact Hle). onward.
Qed.

Lemma extends_renderImage data x y w h b :
  ready b -> extends b (renderImage data x y w h b).
Proof.
  intros (c & Hc & H2). unfold renderImage. rewrite Hc, H2. cbn [negb].
  destruct (decodeImage data) as [img|]; [|apply extends_refl].
  destruct (imgY img y w h b) as [top b1] eqn:Hy.
  assert (extends b b1 /\ ready b1) as [He1 Hr1].
  { unfold imgY, getNextY in Hy. destruct y; injection Hy as <- <-.
    - split; [apply extends_refl|by exists c].
    - split; [onward|by exists c]. }
  set (b2 := if Qle_bool _ _ then _ else _).
  assert (extends b1 b2 /\ ready b2) as [He2 (c2 & Hc2 & H22)].
  { unfold b2. destruct (Qle_bool _ _); [by split; [apply extends_refl|]|].
    split; [by apply extends_expandCanvas|by apply ready_expandCanvas]. }
  rewrite (drawImageWithBorder_spec _ _ _ _ _ _ _ Hc2).
  apply (extends_trans _ b1); [done|]. apply (extends_trans _ b2); [done|].
  onward.
Qed.

Lemma extends_executeCommand cmd b :
  ready b -> extends b (executeCommand cmd b).
Proof.
  intros Hr. pose proof Hr as (c & Hc & H2).
  destruct cmd as [cmd|cmd|cmd| |cmd].
  - destruct (decide (text_hash (w_text cmd) ∈ renderedHashes b)).
    + rewrite write_duplicate, (moved_spec cmd b c Hc) by done. onward.
    + rewrite write_first, (inked_spec cmd b c Hc) by done. onward.
  - rewrite (executeCommand_Draw cmd b c Hc H2). onward.
  - rewrite (executeCommand_Highlight cmd b c Hc H2). onward.
  - rewrite (executeCommand_Clear b c Hc H2). onward.
  - unfold executeCommand. rewrite Hc, H2. cbn [negb].
    destruct (i_imageData cmd); [apply extends_refl|].
    by apply extends_renderImage.
Qed.

(** X18. No call through the handle takes anything back: the height of
    the surface does not go down, the item count does not go down, no
    remembered text is forgotten, the calls made on the canvas so far stay
    as they were, and the board is not left expanding. *)
Theorem nothing_is_taken_back (b after : Board) :
  ready b -> moves b after ->
  canvasHeight b <= canvasHeight after
  /\ (itemCount b <= itemCount after)%nat
  /\ renderedHashes b ⊆ renderedHashes after
  /\ (exists more, calls after = calls b ++ more)
  /\ (isExpanding b = false -> isExpanding after = false).
Proof.
  intros Hr Hm.
  assert (extends b after) as [? ? ? ? ?]; [|done].
  destruct Hm; [by apply extends_executeCommand|by apply extends_renderImage
               |by apply extends_expandCanvas].
Qed.

(** X19. When the snapshot taken before a growth does not load back, the
    grown surface shows the background and nothing else: what was drawn
    before is lost, and the growth completes all the same. *)
Theorem restore_failure_loses_content (b : Board) (c : Canvas) (h : Q) :
  canvas b = Some c -> has2d c = true -> canvasHeight b < h ->
  loadsBack (snapshot c) = false ->
  exists c',
    canvas (expandCanvas h b) = Some c'
    /\ raster c'
       = paint_all (background_ops default_context (width c) (Qfloor h))
                   (fun _ _ => transparent)
    /\ height c' = Qfloor h
    /\ canvasHeight (expandCanvas h b) = h
    /\ isExpanding (expandCanvas h b) = false
    /\ calls (expandCanvas h b)
       = calls b ++ [Expand h; ToDataURL; SetHeight (Qfloor h)]
         ++ List.map Paint
              (background_ops default_context (width c) (Qfloor h)).
Proof.
  intros Hc H2 Hlt Hl. rewrite (expandCanvas_grow h b c Hc H2 Hlt).
  eexists. split; [reflexivity|].
  unfold grown_canvas, growth_calls, restore_ops. rewrite Hl, !app_nil_r.
  cbn [raster height canvasHeight isExpanding calls]. by repeat split.
Qed.

(** *** What holds of every board of a session *)



Context {laws : HostLaws host}.


End WithHost.

(** *** The properties on the box host *)

Lemma fresh_refs :
  currentY (@fresh box_host) = 80
  /\ canvasHeight (@fresh box_host) = inject_Z MIN_CANVAS_HEIGHT
  /\ itemCount (@fresh box_host) = 0%nat
  /\ renderedHashes (@fresh box_host) = ∅.
Proof. rewrite fresh_spec. by repeat split. Qed.

Lemma incomplete_draw_counts_witness :
  @ready (@fresh box_host) /\ incomplete pointless = true
  /\ itemCount (@executeCommand box_host (Draw pointless) (@fresh box_host))
     = 1%nat
  /\ calls (@executeCommand box_host (Draw pointless) (@fresh box_host))
     = calls (@fresh box_host).
Proof.
  split; [apply ready_fresh|]. split; [reflexivity|].
  destruct (@incomplete_draw_counts box_host (@fresh box_host) pointless
              ready_fresh eq_refl) as (Hc & _ & Hn & _).
  destruct fresh_refs as (_ & _ & H0 & _).
  split; [by rewrite Hn, H0|exact Hc].
Defined.

Lemma highlight_is_no_item_witness :
  @ready (@fresh box_host)
  /\ itemCount
       (@executeCommand box_host (Highlight (mkHighlight 40 60 200 30 None))
          (@executeCommand box_host (Highlight (mkHighlight 40 60 200 30 None))
             (@fresh box_host)))
     = 0%nat.
Proof.
  split; [apply ready_fresh|].
  destruct (@highlight_is_no_item box_host (@fresh box_host)
              (mkHighlight 40 60 200 30 None) ready_fresh) as (_ & Hn & _).
  destruct fresh_refs as (_ & _ & H0 & _). by rewrite Hn, H0.
Defined.

Lemma plain_session_witness :
  let cmds := [Write Examples.f_ma; Clear; Draw pointless;
               Write Examples.f_ma_again] in
  @ready (@fresh box_host) /\ forallb plain cmds = true
  /\ currentY (@execute_all box_host cmds (@fresh box_host))
     == 80 + 63.6 + 80 + 0 + 72
  /\ canvasHeight (@execute_all box_host cmds (@fresh box_host)) == 800.
Proof.
  intros cmds. subst cmds.
  split; [apply ready_fresh|]. split; [reflexivity|].
  destruct (@plain_session box_host (@fresh box_host)
              [Write Examples.f_ma; Clear; Draw pointless;
               Write Examples.f_ma_again] ready_fresh eq_refl)
    as (Hy & Hh & _).
  destruct fresh_refs as (Hy0 & Hh0 & _).
  split; [rewrite Hy, Hy0|rewrite Hh, Hh0]; clear; by vm_compute.
Defined.

Lemma long_texts_collide_witness :
  @ready (@fresh box_host)
  /\ take 30 (@toLowerCase box_host (trim (w_text kinetic)))
     = take 30 (@toLowerCase box_host (trim (w_text kinetic_too)))
  /\ w_text kinetic <> w_text kinetic_too
  /\ itemCount (@execute_all box_host [Write kinetic; Write kinetic_too]
                  (@fresh box_host)) = 1%nat.
Proof.
  assert (take 30 (@toLowerCase box_host (trim (w_text kinetic)))
          = take 30 (@toLowerCase box_host (trim (w_text kinetic_too))))
    as Hsame by (vm_compute; reflexivity).
  split; [apply ready_fresh|]. split; [exact Hsame|]. split; [done|].
  destruct (@long_texts_collide box_host (@fresh box_host) kinetic kinetic_too
              ready_fresh Hsame) as (_ & _ & Hn & _).
  change (@execute_all box_host [Write kinetic; Write kinetic_too]
            (@fresh box_host))
    with (@executeCommand box_host (Write kinetic_too)
            (@executeCommand box_host (Write kinetic) (@fresh box_host))).
  rewrite Hn. clear. vm_compute. reflexivity.
Defined.


Lemma unloadable_image_changes_nothing_witness :
  i_imageData (mkImage [] None None None None) = []
  /\ @executeCommand box_host (Image (mkImage [] None None None None))
       (@fresh box_host)
     = @fresh box_host.
Proof.
  split; [reflexivity|].
  by destruct (@unloadable_image_changes_nothing box_host (@fresh box_host)
                 (mkImage [] None None None None) (or_introl eq_refl))
    as [H _].
Defined.

Lemma nothing_is_taken_back_witness :
  @ready (@fresh box_host)
  /\ @moves box_host (@fresh box_host)
       (@expandCanvas box_host 500 (@fresh box_host))
  /\ inject_Z MIN_CANVAS_HEIGHT
     <= canvasHeight (@expandCanvas box_host 500 (@fresh box_host)).
Proof.
  split; [apply ready_fresh|]. split; [apply move_expandCanvas|].
  destruct (@nothing_is_taken_back box_host (@fresh box_host) _ ready_fresh
              (@move_expandCanvas box_host (@fresh box_host) 500))
    as (Hh & _).
  destruct fresh_refs as (_ & Hh0 & _). rewrite Hh0 in Hh. exact Hh.
Defined.

Lemma restore_failure_loses_content_witness :
  canvas (@fresh lossy_host) = Some lossy_canvas
  /\ has2d lossy_canvas = true
  /\ canvasHeight (@fresh lossy_host) < 1000
  /\ @loadsBack lossy_host (snapshot lossy_canvas) = false
  /\ exists c',
       canvas (@expandCanvas lossy_host 1000 (@fresh lossy_host)) = Some c'
       /\ raster c'
          = @paint_all lossy_host
              (@background_ops lossy_host default_context
                 (width lossy_canvas) (Qfloor 1000))
              (fun _ _ => transparent).
Proof.
  assert (canvas (@fresh lossy_host) = Some lossy_canvas) as Hc
    by (rewrite fresh_spec; reflexivity).
  assert (canvasHeight (@fresh lossy_host) < 1000) as Hlt
    by (rewrite fresh_spec; cbn [canvasHeight]; reflexivity).
  split; [exact Hc|]. split; [reflexivity|]. split; [exact Hlt|].
  split; [reflexivity|].
  destruct (@restore_failure_loses_content lossy_host (@fresh lossy_host)
              lossy_canvas 1000 Hc eq_refl Hlt eq_refl)
    as (c' & Hc' & Hr & _).
  exists c'. split; [exact Hc'|exact Hr].
Defined.


End SurfaceFacts.
